(** * Interactive-shell orchestration core of minpeter/agent

    A shallow embedding of the tmux command tokenizer and classifier, the
    session registry hook with its durable storage, the keystroke entry point,
    the output stall detector, the Linux /proc TTY input-wait detector, the
    multiplexer path resolver and the output cap of the command runner,
    followed by the properties the specification states about them and by
    further properties of the same code.

    Conventions of the embedding.
    - A JavaScript string is a [string]: a sequence of 8-bit code units (the
      UTF-8 encoding of the text).  Every character the code inspects (space,
      quotes, backslash, ':' '.' '-') is ASCII, so scanning code units and
      scanning code points agree.
    - A JavaScript [number] that counts things or is a time stamp is a [Z];
      a comparison with a quotient, as in [u >= n / 2], is written without
      the division.
    - [Set<string>] is insertion ordered; it is a duplicate-free [list string]
      in insertion order (module [JSSet]).
    - Module-level mutable variables, the file system, the clock and child
      processes live in an explicit [World] threaded through a state monad.
      A promise is the value it resolves to.  A file is its text, at its
      normalized path.
    - A function that can throw ends in a [Completion]: it returns its value
      or throws an error code, and the world at the throw keeps what was
      done before it.  Creating a directory and writing a file throw as the
      file system has them throw: for a missing parent directory, a file or
      a directory in the way, or a path the store refuses. *)

From Stdlib Require Import ZArith Ascii String List Bool Lia.
From Stdlib Require DecimalString DecimalPos DecimalZ.
Import DecimalString.
From stdpp Require Import base gmap strings list.

Local Open Scope Z_scope.

(** ** JavaScript string primitives used by the sources *)
Module JS.

(** The characters the sources compare against. *)
Definition DQUOTE : ascii := ascii_of_nat 34.
Definition SQUOTE : ascii := "'"%char.
Definition BACKSLASH : ascii := ascii_of_nat 92.
Definition SPACE : ascii := " "%char.
Definition LF : ascii := ascii_of_nat 10.

(** A one-character string. *)
Definition chr (c : ascii) : string := String c EmptyString.

(** Truthiness of a string: only the empty string is falsy. *)
Definition truthy (s : string) : bool :=
  match s with EmptyString => false | String _ _ => true end.

(** [x || y] on strings. *)
Definition or_else (s d : string) : string := if truthy s then s else d.

(** [s.startsWith(p)]. *)
Definition startsWith (s p : string) : bool := String.prefix p s.

(** [s.includes(p)]. *)
Fixpoint includes (s p : string) : bool :=
  String.prefix p s ||
  match s with
  | EmptyString => false
  | String _ s' => includes s' p
  end.

Definition ascii_toLowerCase (c : ascii) : ascii :=
  let n := nat_of_ascii c in
  if ((65 <=? n) && (n <=? 90))%nat then ascii_of_nat (n + 32) else c.

(** [s.toLowerCase()] on the ASCII letters. *)
Fixpoint toLowerCase (s : string) : string :=
  match s with
  | EmptyString => EmptyString
  | String c s' => String (ascii_toLowerCase c) (toLowerCase s')
  end.

(** [s.split(sep)] for a one-character separator: never empty. *)
Fixpoint split (sep : ascii) (s : string) : list string :=
  match s with
  | EmptyString => [EmptyString]
  | String c s' =>
      if Ascii.eqb c sep then EmptyString :: split sep s'
      else match split sep s' with
           | [] => [chr c]
           | p :: ps => String c p :: ps
           end
  end.

(** [parts.join(sep)]. *)
Definition join (sep : string) (parts : list string) : string :=
  String.concat sep parts.

Definition is_ws (c : ascii) : bool :=
  let n := nat_of_ascii c in
  ((n =? 32) || ((9 <=? n) && (n <=? 13)))%nat.

Fixpoint trimStart (s : string) : string :=
  match s with
  | EmptyString => EmptyString
  | String c s' => if is_ws c then trimStart s' else s
  end.

Fixpoint trimEnd (s : string) : string :=
  match s with
  | EmptyString => EmptyString
  | String c s' =>
      match trimEnd s' with
      | EmptyString => if is_ws c then EmptyString else chr c
      | t => String c t
      end
  end.

(** [s.trim()] on the ASCII white space. *)
Definition trim (s : string) : string := trimEnd (trimStart s).

(** Template-literal rendering of an integer. *)
Definition of_Z (z : Z) : string := NilZero.string_of_int (Z.to_int z).

Fixpoint all_chars (p : ascii → bool) (s : string) : bool :=
  match s with
  | EmptyString => true
  | String c s' => p c && all_chars p s'
  end.

(** A run of [n] spaces. *)
Fixpoint spaces (n : nat) : string :=
  match n with
  | O => EmptyString
  | S n' => String SPACE (spaces n')
  end.

End JS.

(** ** shell-interact/utils: tokenizer and subcommand classifier *)
Module Utils.
Import JS.

(** The local variables of [tokenizeCommand]. *)
Record TokState := mkTok {
  tokens : list string;
  current : string;
  inQuote : bool;
  quoteChar : string;
  escaped : bool
}.

Definition tok_init : TokState :=
  mkTok [] EmptyString false EmptyString false.

(** One iteration of [for (const char of cmd)]. *)
Definition tok_step (st : TokState) (char : ascii) : TokState :=
  if escaped st then
    mkTok (tokens st) (current st +:+ chr char) (inQuote st) (quoteChar st) false
  else if Ascii.eqb char BACKSLASH then
    mkTok (tokens st) (current st) (inQuote st) (quoteChar st) true
  else if (Ascii.eqb char SQUOTE || Ascii.eqb char DQUOTE) && negb (inQuote st) then
    mkTok (tokens st) (current st) true (chr char) (escaped st)
  else if String.eqb (chr char) (quoteChar st) && inQuote st then
    mkTok (tokens st) (current st) false EmptyString (escaped st)
  else if Ascii.eqb char SPACE && negb (inQuote st) then
    if truthy (current st) then
      mkTok (tokens st ++ [current st]) EmptyString (inQuote st) (quoteChar st) (escaped st)
    else st
  else
    mkTok (tokens st) (current st +:+ chr char) (inQuote st) (quoteChar st) (escaped st).

Fixpoint tok_loop (st : TokState) (cmd : string) : TokState :=
  match cmd with
  | EmptyString => st
  | String char rest => tok_loop (tok_step st char) rest
  end.

(** The code after the loop: flush a pending token. *)
Definition tok_finish (st : TokState) : list string :=
  if truthy (current st) then tokens st ++ [current st] else tokens st.

Definition tokenizeCommand (cmd : string) : list string :=
  tok_finish (tok_loop tok_init cmd).

Definition globalOptionsWithArgs : list string :=
  ["-L"; "-S"; "-f"; "-c"; "-T"].

(** [findSubcommand]: the list is the suffix [tokens.slice(i)]. *)
Fixpoint findSubcommand (tokens : list string) : string :=
  match tokens with
  | [] => EmptyString
  | token :: rest =>
      if String.eqb token "--" then
        match rest with
        | [] => EmptyString
        | next :: _ => next
        end
      else if bool_decide (token ∈ globalOptionsWithArgs) then
        match rest with
        | [] => EmptyString
        | _ :: rest' => findSubcommand rest'
        end
      else if startsWith token "-" then findSubcommand rest
      else token
  end.

End Utils.

(** ** The JSON of the runtime: [JSON.stringify(v, null, 2)] and [JSON.parse]

    Numbers are integers; a number with a fraction or an exponent, and an
    escape of a surrogate half, are outside the model and do not parse. *)
Module JSON.
Import JS.

#[local] Set Warnings "-register-all".
Inductive value :=
| Null
| Bool (b : bool)
| Number (z : Z)
| Str (s : string)
| Array (items : list value)
| Object (members : list (string * value)).

Definition hex_digit (n : nat) : ascii :=
  match String.get n "0123456789abcdef" with
  | Some c => c
  | None => "0"%char
  end.

(** The escape of one character inside a string literal. *)
Definition escape_char (c : ascii) : string :=
  let n := nat_of_ascii c in
  if Ascii.eqb c DQUOTE then String BACKSLASH (chr DQUOTE)
  else if Ascii.eqb c BACKSLASH then String BACKSLASH (chr BACKSLASH)
  else if (n =? 8)%nat then String BACKSLASH "b"
  else if (n =? 9)%nat then String BACKSLASH "t"
  else if (n =? 10)%nat then String BACKSLASH "n"
  else if (n =? 12)%nat then String BACKSLASH "f"
  else if (n =? 13)%nat then String BACKSLASH "r"
  else if (n <? 32)%nat then
    String BACKSLASH
      (String "u" (String "0" (String "0"
         (String (hex_digit (n / 16)) (chr (hex_digit (n mod 16)))))))
  else chr c.

Fixpoint escape (s : string) : string :=
  match s with
  | EmptyString => EmptyString
  | String c s' => escape_char c +:+ escape s'
  end.

Definition quote (s : string) : string :=
  String DQUOTE (escape s +:+ chr DQUOTE).

(** The text of a value whose own line is indented by [indent]. *)
Fixpoint stringify_at (indent : nat) (v : value) : string :=
  match v with
  | Null => "null"
  | Bool b => if b then "true" else "false"
  | Number z => of_Z z
  | Str s => quote s
  | Array [] => "[]"
  | Array (x :: xs) =>
      let inner := S (S indent) in
      "[" +:+ chr LF +:+ spaces inner +:+ stringify_at inner x
      +:+ (fix more (l : list value) : string :=
             match l with
             | [] => EmptyString
             | y :: l' =>
                 "," +:+ chr LF +:+ spaces inner +:+ stringify_at inner y +:+ more l'
             end) xs
      +:+ chr LF +:+ spaces indent +:+ "]"
  | Object [] => "{}"
  | Object ((k, x) :: ms) =>
      let inner := S (S indent) in
      "{" +:+ chr LF +:+ spaces inner +:+ quote k +:+ ": " +:+ stringify_at inner x
      +:+ (fix more (l : list (string * value)) : string :=
             match l with
             | [] => EmptyString
             | (k', y) :: l' =>
                 "," +:+ chr LF +:+ spaces inner +:+ quote k' +:+ ": "
                 +:+ stringify_at inner y +:+ more l'
             end) ms
      +:+ chr LF +:+ spaces indent +:+ "}"
  end.

(** The items of an array after the first, and the members of an object
    after the first: each on a line of its own behind a comma. *)
Fixpoint items_text (inner : nat) (l : list value) : string :=
  match l with
  | [] => EmptyString
  | y :: l' =>
      "," +:+ chr LF +:+ spaces inner +:+ stringify_at inner y +:+ items_text inner l'
  end.

Fixpoint members_text (inner : nat) (l : list (string * value)) : string :=
  match l with
  | [] => EmptyString
  | (k, y) :: l' =>
      "," +:+ chr LF +:+ spaces inner +:+ quote k +:+ ": "
      +:+ stringify_at inner y +:+ members_text inner l'
  end.

(** [JSON.stringify(v, null, 2)]. *)
Definition stringify (v : value) : string := stringify_at 0 v.

Definition is_space (c : ascii) : bool :=
  let n := nat_of_ascii c in
  ((n =? 32) || (n =? 9) || (n =? 10) || (n =? 13))%nat.

Fixpoint skip_ws (s : string) : string :=
  match s with
  | EmptyString => EmptyString
  | String c s' => if is_space c then skip_ws s' else s
  end.

(** The character a one-letter escape stands for. *)
Definition unescape (e : ascii) : option ascii :=
  if Ascii.eqb e DQUOTE then Some DQUOTE
  else if Ascii.eqb e BACKSLASH then Some BACKSLASH
  else if Ascii.eqb e "/" then Some "/"%char
  else if Ascii.eqb e "b" then Some (ascii_of_nat 8)
  else if Ascii.eqb e "f" then Some (ascii_of_nat 12)
  else if Ascii.eqb e "n" then Some (ascii_of_nat 10)
  else if Ascii.eqb e "r" then Some (ascii_of_nat 13)
  else if Ascii.eqb e "t" then Some (ascii_of_nat 9)
  else None.

Definition hex_value (c : ascii) : option N :=
  let n := N_of_ascii c in
  if ((48 <=? n) && (n <=? 57))%N then Some (n - 48)%N
  else if ((97 <=? n) && (n <=? 102))%N then Some (n - 87)%N
  else if ((65 <=? n) && (n <=? 70))%N then Some (n - 55)%N
  else None.

Definition hex4 (a b c d : ascii) : option N :=
  match hex_value a, hex_value b, hex_value c, hex_value d with
  | Some x, Some y, Some z, Some w => Some (((x * 16 + y) * 16 + z) * 16 + w)%N
  | _, _, _, _ => None
  end.

(** The UTF-8 code units of a code point below 0x10000 that is not a
    surrogate half. *)
Definition utf8 (n : N) : option string :=
  if (n <? 128)%N then Some (chr (ascii_of_N n))
  else if (n <? 2048)%N then
    Some (String (ascii_of_N (192 + n / 64)) (chr (ascii_of_N (128 + n mod 64))))
  else if ((55296 <=? n) && (n <=? 57343))%N then None
  else
    Some (String (ascii_of_N (224 + n / 4096))
            (String (ascii_of_N (128 + (n / 64) mod 64))
               (chr (ascii_of_N (128 + n mod 64))))).

(** The characters of a string literal after its opening quote, and what
    follows the closing quote. *)
Fixpoint parse_chars (s : string) : option (string * string) :=
  match s with
  | EmptyString => None
  | String c rest =>
      if Ascii.eqb c DQUOTE then Some (EmptyString, rest)
      else if Ascii.eqb c BACKSLASH then
        match rest with
        | EmptyString => None
        | String e rest1 =>
            if Ascii.eqb e "u" then
              match rest1 with
              | String h1 (String h2 (String h3 (String h4 rest2))) =>
                  match hex4 h1 h2 h3 h4 with
                  | Some n =>
                      match utf8 n, parse_chars rest2 with
                      | Some b, Some (t, r) => Some (b +:+ t, r)
                      | _, _ => None
                      end
                  | None => None
                  end
              | _ => None
              end
            else
              match unescape e, parse_chars rest1 with
              | Some ch, Some (t, r) => Some (String ch t, r)
              | _, _ => None
              end
        end
      else if (nat_of_ascii c <? 32)%nat then None
      else
        match parse_chars rest with
        | Some (t, r) => Some (String c t, r)
        | None => None
        end
  end.

Definition is_num_char (c : ascii) : bool :=
  let n := nat_of_ascii c in
  Ascii.eqb c "-" || ((48 <=? n) && (n <=? 57))%nat.

(** The longest prefix of sign and digits, and the rest. *)
Fixpoint span_num (s : string) : string * string :=
  match s with
  | EmptyString => (EmptyString, EmptyString)
  | String c r =>
      if is_num_char c then let '(t, r') := span_num r in (String c t, r')
      else (EmptyString, s)
  end.

Definition continues_number (rest : string) : bool :=
  match rest with
  | String c _ => Ascii.eqb c "." || Ascii.eqb c "e" || Ascii.eqb c "E"
  | EmptyString => false
  end.

(** An integer literal: no leading zero, no sign alone. *)
Definition parse_number (s : string) : option (Z * string) :=
  let '(token, rest) := span_num s in
  match NilZero.int_of_string token with
  | Some i =>
      let z := Z.of_int i in
      if (String.eqb (of_Z z) token || String.eqb token "-0")
         && negb (continues_number rest)
      then Some (z, rest) else None
  | None => None
  end.

Definition parse_literal (s : string) : option (value * string) :=
  if String.prefix "true" s then Some (Bool true, String.substring 4 (String.length s - 4) s)
  else if String.prefix "false" s then Some (Bool false, String.substring 5 (String.length s - 5) s)
  else if String.prefix "null" s then Some (Null, String.substring 4 (String.length s - 4) s)
  else None.

(** Recursive descent; [fuel] bounds the nesting and the number of items. *)
Fixpoint parse_value (fuel : nat) (s : string) : option (value * string) :=
  match fuel with
  | O => None
  | S fuel' =>
      match skip_ws s with
      | EmptyString => None
      | String c rest as s' =>
          if Ascii.eqb c "{" then
            match skip_ws rest with
            | String "}" r => Some (Object [], r)
            | _ =>
                match parse_members fuel' rest with
                | Some (ms, r) => Some (Object ms, r)
                | None => None
                end
            end
          else if Ascii.eqb c "[" then
            match skip_ws rest with
            | String "]" r => Some (Array [], r)
            | _ =>
                match parse_elements fuel' rest with
                | Some (xs, r) => Some (Array xs, r)
                | None => None
                end
            end
          else if Ascii.eqb c DQUOTE then
            match parse_chars rest with
            | Some (t, r) => Some (Str t, r)
            | None => None
            end
          else if is_num_char c then
            match parse_number s' with
            | Some (z, r) => Some (Number z, r)
            | None => None
            end
          else parse_literal s'
      end
  end
with parse_elements (fuel : nat) (s : string) : option (list value * string) :=
  match fuel with
  | O => None
  | S fuel' =>
      match parse_value fuel' s with
      | Some (x, r) =>
          match skip_ws r with
          | String c r' =>
              if Ascii.eqb c "," then
                match parse_elements fuel' r' with
                | Some (xs, r'') => Some (x :: xs, r'')
                | None => None
                end
              else if Ascii.eqb c "]" then Some ([x], r')
              else None
          | EmptyString => None
          end
      | None => None
      end
  end
with parse_members (fuel : nat) (s : string)
    : option (list (string * value) * string) :=
  match fuel with
  | O => None
  | S fuel' =>
      match skip_ws s with
      | String c r =>
          if Ascii.eqb c DQUOTE then
            match parse_chars r with
            | Some (k, r1) =>
                match skip_ws r1 with
                | String ":" r2 =>
                    match parse_value fuel' r2 with
                    | Some (x, r3) =>
                        match skip_ws r3 with
                        | String c' r4 =>
                            if Ascii.eqb c' "," then
                              match parse_members fuel' r4 with
                              | Some (ms, r5) => Some ((k, x) :: ms, r5)
                              | None => None
                              end
                            else if Ascii.eqb c' "}" then Some ([(k, x)], r4)
                            else None
                        | EmptyString => None
                        end
                    | None => None
                    end
                | _ => None
                end
            | None => None
            end
          else None
      | EmptyString => None
      end
  end.

(** [JSON.parse(text)], with [None] for the exception it throws. *)
Definition parse (text : string) : option value :=
  match parse_value (S (String.length text)) text with
  | Some (v, rest) =>
      match skip_ws rest with
      | EmptyString => Some v
      | String _ _ => None
      end
  | None => None
  end.

(** [object[k]]: of members with the same name the last one counts. *)
Fixpoint property (k : string) (members : list (string * value)) : option value :=
  match members with
  | [] => None
  | (k', v) :: rest =>
      match property k rest with
      | Some v' => Some v'
      | None => if String.eqb k' k then Some v else None
      end
  end.

End JSON.

(** ** The insertion-ordered [Set<string>] of the runtime *)
Module JSSet.

Definition has (x : string) (s : list string) : bool := bool_decide (x ∈ s).

(** [s.add(x)]: a new element goes last, a present one keeps its place. *)
Definition add (x : string) (s : list string) : list string := if has x s then s else s ++ [x].

(** [s.delete(x)]. *)
Definition delete (x : string) (s : list string) : list string := filter (λ y, y ≠ x) s.

(** [s.clear()]. *)
Definition clear (s : list string) : list string := [].

(** [new Set(array)]. *)
Definition of_array (a : list string) : list string := foldl (λ acc x, add x acc) [] a.

(** [Array.from(s)]. *)
Definition to_array (s : list string) : list string := s.

End JSSet.

(** ** node:path on POSIX: [join] and the normalization behind it *)
Module Path.
Import JS.

Definition SEP : ascii := "/"%char.

(** One segment of the path meets the segments kept so far (the last kept
    one first).  An empty segment and [.] are dropped.  [..] takes the last
    kept segment away; where none is kept, or the last kept one is itself
    [..], it is kept when the path may climb above its start and dropped
    otherwise.  Any other segment is kept. *)
Definition step (allowAboveRoot : bool) (kept : list string) (segment : string)
    : list string :=
  if String.eqb segment EmptyString || String.eqb segment "." then kept
  else if String.eqb segment ".." then
    match kept with
    | top :: below =>
        if negb (String.eqb top "..") then below
        else if allowAboveRoot then segment :: kept else kept
    | [] => if allowAboveRoot then [segment] else []
    end
  else segment :: kept.

(** The loop of [normalizeString] over the segments between separators. *)
Definition resolve (allowAboveRoot : bool) (segments : list string) : list string :=
  rev (fold_left (step allowAboveRoot) segments []).

Fixpoint ends_with_separator (path : string) : bool :=
  match path with
  | EmptyString => false
  | String c EmptyString => Ascii.eqb c SEP
  | String _ rest => ends_with_separator rest
  end.

(** [path.normalize(path)]. *)
Definition normalize (path : string) : string :=
  match path with
  | EmptyString => "."
  | String first _ =>
      let isAbsolute := Ascii.eqb first SEP in
      let trailingSeparator := ends_with_separator path in
      let res := JS.join "/" (resolve (negb isAbsolute) (split SEP path)) in
      if negb (truthy res) then
        if isAbsolute then "/" else if trailingSeparator then "./" else "."
      else
        (if isAbsolute then "/" else EmptyString)
        +:+ res +:+ (if trailingSeparator then "/" else EmptyString)
  end.

(** [path.join(...paths)]: the arguments that are not empty, joined with
    the separator and normalized. *)
Definition join (paths : list string) : string :=
  match List.filter truthy paths with
  | [] => "."
  | joined => normalize (JS.join "/" joined)
  end.

End Path.

(** ** shell-interact/hook/types *)
Record ShellInteractSessionState := mkState {
  sessionID : string;
  tmuxSessions : list string;
  updatedAt : Z
}.

Record SerializedShellInteractSessionState := mkSerialized {
  ser_sessionID : string;
  ser_tmuxSessions : list string;
  ser_updatedAt : Z
}.

(** The object literal of a serialized state, as a JSON value. *)
Definition serialized_value (d : SerializedShellInteractSessionState) : JSON.value :=
  JSON.Object
    [ ("sessionID", JSON.Str (ser_sessionID d));
      ("tmuxSessions", JSON.Array (map JSON.Str (ser_tmuxSessions d)));
      ("updatedAt", JSON.Number (ser_updatedAt d)) ].

Fixpoint strings_of (items : list JSON.value) : option (list string) :=
  match items with
  | [] => Some []
  | JSON.Str x :: rest =>
      match strings_of rest with
      | Some xs => Some (x :: xs)
      | None => None
      end
  | _ => None
  end.

(** A parsed value read at the type the source declares for it,
    [SerializedShellInteractSessionState]: an object with a string
    [sessionID], an array of strings [tmuxSessions] and a number
    [updatedAt].  The source does not check that shape at run time: from a
    parsed value of another shape it builds a state whose fields lie outside
    their declared types (an [undefined] id or time, a set of the characters
    of a string, a set of numbers), and the records of this development,
    which have the declared types, cannot hold such a state.  Here a value
    of another shape gives no state; the properties below that read a record
    read one of the declared shape, as [saveShellInteractSessionState]
    writes it, or are stated relative to what the load returns. *)
Definition typed_serialized (v : JSON.value)
    : option SerializedShellInteractSessionState :=
  match v with
  | JSON.Object members =>
      match JSON.property "sessionID" members,
            JSON.property "tmuxSessions" members,
            JSON.property "updatedAt" members with
      | Some (JSON.Str id), Some (JSON.Array items), Some (JSON.Number at_) =>
          match strings_of items with
          | Some names => Some (mkSerialized id names at_)
          | None => None
          end
      | _, _, _ => None
      end
  | _ => None
  end.

(** ** The world outside the functions *)

(** How a spawned child ends: the [exit] event with its code ([None] when a
    signal ended it), what it wrote, and whether the timeout timer fired
    first; or the [error] event with its message. *)
Inductive ChildOutcome :=
| Exited (code : option Z) (stdout stderr : string) (timedOut : bool)
| SpawnFailed (message : string).

Record World := mkWorld {
  homedir : string;                    (* os.homedir() *)
  clock : nat → Z;                     (* successive values of Date.now() *)
  ticks : nat;                         (* calls of Date.now() so far *)
  dirs : gset string;                  (* directories that exist *)
  files : gmap string string;          (* regular files: path and text *)
  refused : string → option string;    (* paths the store will not create or
                                          write, with the error code: no
                                          permission, a full disk, a name it
                                          cannot hold *)
  sessionStates : gmap string ShellInteractSessionState;
  currentSessionId : option string;
  tmuxPath : option string;            (* utils: the cached binary path *)
  child : string → list string → ChildOutcome;   (* the processes' behaviour *)
  spawned : list (string * list string)          (* children spawned so far *)
}.

Definition M (A : Type) : Type := World → A * World.

Definition ret {A} (a : A) : M A := λ w, (a, w).

Definition bind {A B} (m : M A) (k : A → M B) : M B :=
  λ w, let '(a, w') := m w in k a w'.

Notation "'let*' x ':=' m 'in' k" := (bind m (λ x, k))
  (at level 10, x name, m at level 100, k at level 200, only parsing).

Definition gets {A} (f : World → A) : M A := λ w, (f w, w).
Definition modify (f : World → World) : M unit := λ w, (tt, f w).

(** How a call that can throw ends: it returns its value, or it throws and
    the code of the error is what is known of it. *)
Inductive Completion (A : Type) : Type :=
| Returned (a : A)
| Threw (code : string).

Arguments Returned {A} a.
Arguments Threw {A} code.

(** Code that can throw: the world at a throw is the world the statements
    before it left. *)
Definition Throws (A : Type) : Type := World → Completion A * World.

Definition returns {A} (a : A) : Throws A := λ w, (Returned a, w).

Definition throw {A} (code : string) : Throws A := λ w, (Threw code, w).

(** A call that cannot throw, inside code that can. *)
Definition lift {A} (m : M A) : Throws A :=
  λ w, let '(a, w') := m w in (Returned a, w').

(** Sequencing: what follows a throw is not run. *)
Definition bind_throws {A B} (m : Throws A) (k : A → Throws B) : Throws B :=
  λ w, match m w with
       | (Returned a, w') => k a w'
       | (Threw code, w') => (Threw code, w')
       end.

Notation "'let!' x ':=' m 'in' k" := (bind_throws m (λ x, k))
  (at level 10, x name, m at level 100, k at level 200, only parsing).

Definition set_files (f : gmap string string) (w : World) : World :=
  mkWorld (homedir w) (clock w) (ticks w) (dirs w) f (refused w) (sessionStates w)
          (currentSessionId w) (tmuxPath w) (child w) (spawned w).
Definition set_dirs (d : gset string) (w : World) : World :=
  mkWorld (homedir w) (clock w) (ticks w) d (files w) (refused w) (sessionStates w)
          (currentSessionId w) (tmuxPath w) (child w) (spawned w).
Definition set_sessionStates (m : gmap string ShellInteractSessionState) (w : World) : World :=
  mkWorld (homedir w) (clock w) (ticks w) (dirs w) (files w) (refused w) m
          (currentSessionId w) (tmuxPath w) (child w) (spawned w).
Definition set_ticks (n : nat) (w : World) : World :=
  mkWorld (homedir w) (clock w) n (dirs w) (files w) (refused w) (sessionStates w)
          (currentSessionId w) (tmuxPath w) (child w) (spawned w).
Definition set_spawned (l : list (string * list string)) (w : World) : World :=
  mkWorld (homedir w) (clock w) (ticks w) (dirs w) (files w) (refused w) (sessionStates w)
          (currentSessionId w) (tmuxPath w) (child w) l.
Definition set_currentSessionId (c : option string) (w : World) : World :=
  mkWorld (homedir w) (clock w) (ticks w) (dirs w) (files w) (refused w) (sessionStates w)
          c (tmuxPath w) (child w) (spawned w).

(** [Date.now()]. *)
Definition Date_now : M Z :=
  λ w, (clock w (ticks w), set_ticks (S (ticks w)) w).

(** ** node:fs on a store of directories and files

    The store is keyed by the paths [Path.join] returns.  Making a
    directory and writing a file throw as described below; a file that is
    there can be read and removed. *)

(** The text of a path before its last separator, when it has one. *)
Fixpoint before_last_separator (p : string) : option string :=
  match p with
  | EmptyString => None
  | String c rest =>
      match before_last_separator rest with
      | Some d => Some (String c d)
      | None => if Ascii.eqb c Path.SEP then Some EmptyString else None
      end
  end.

(** The directory a path is an entry of: the root for an entry of the
    root, the working directory for a name without a separator. *)
Definition parent_directory (p : string) : string :=
  match before_last_separator p with
  | Some EmptyString => "/"
  | Some d => d
  | None => "."
  end.

(** The root and the working directory are there; any other directory is
    there when the store has it. *)
Definition is_directory (p : string) (w : World) : bool :=
  bool_decide (p ∈ dirs w) || String.eqb p "/" || String.eqb p ".".

(** The directories on the way to a path, from the top down, the path
    itself last: each prefix of [seen ++ rest] that ends before a separator
    of [rest]. *)
Fixpoint directories_to (seen rest : string) : list string :=
  match rest with
  | EmptyString => [seen]
  | String c rest' =>
      if Ascii.eqb c Path.SEP then
        (if JS.truthy seen then [seen] else [])
        ++ directories_to (seen +:+ String c EmptyString) rest'
      else directories_to (seen +:+ String c EmptyString) rest'
  end.

Definition existsSync (p : string) : M bool :=
  gets (λ w, bool_decide (p ∈ dirs w) || bool_decide (is_Some (files w !! p))).

(** The directories are made one after the other: one that is there is
    passed, a regular file in the way or a refusal of the store throws, and
    what was made before the throw stays. *)
Fixpoint make_directories (todo : list string) : Throws unit :=
  match todo with
  | [] => returns tt
  | d :: rest =>
      λ w,
        if bool_decide (d ∈ dirs w) then make_directories rest w
        else if bool_decide (is_Some (files w !! d)) then
          (Threw (match rest with [] => "EEXIST" | _ => "ENOTDIR" end), w)
        else
          match refused w d with
          | Some code => (Threw code, w)
          | None => make_directories rest (set_dirs ({[d]} ∪ dirs w) w)
          end
  end.

(** [mkdirSync(p, { recursive: true })]. *)
Definition mkdirSync (p : string) : Throws unit :=
  make_directories (directories_to EmptyString p).

(** [None] stands for the exception of a missing or unreadable file. *)
Definition readFileSync (p : string) : M (option string) :=
  gets (λ w, files w !! p).

(** [writeFileSync(p, c)] creates or replaces the file in its directory: it
    throws when the path is a directory, when the directory of the path is
    missing or is a regular file, and when the store refuses the path. *)
Definition writeFileSync (p : string) (c : string) : Throws unit :=
  λ w,
    if bool_decide (p ∈ dirs w) then (Threw "EISDIR", w)
    else if negb (is_directory (parent_directory p) w) then
      (Threw (if bool_decide (is_Some (files w !! parent_directory p))
              then "ENOTDIR" else "ENOENT"), w)
    else
      match refused w p with
      | Some code => (Threw code, w)
      | None => (Returned tt, set_files (<[p := c]> (files w)) w)
      end.


(** [spawn(cmd, args)]: the child is recorded and its outcome delivered. *)
Definition spawn (cmd : string) (args : list string) : M ChildOutcome :=
  λ w, (child w cmd args, set_spawned (spawned w ++ [(cmd, args)]) w).

(** ** shell-interact/hook/constants *)
Module Constants.
Import JS.

Definition CEA_SESSION_PREFIX : string := "cea-".

Definition STORAGE_DIR (w : World) : string :=
  Path.join [homedir w; ".code-editing-agent"; "sessions"].

Definition buildSessionReminderMessage
    (sessions : list string) (newlyCreated : option string) : string :=
  match sessions with
  | [] => EmptyString
  | _ =>
    let message :=
      chr LF +:+ chr LF +:+ "[System Reminder] Active cea-* tmux sessions: "
      +:+ join ", " sessions in
    match newlyCreated with
    | Some (String c n as created) =>
        message +:+ chr LF +:+ "[Action Required] Background process started in '"
        +:+ created +:+ "'. Before reporting completion:" +:+ chr LF
        +:+ "  1. Wait: shell_execute sleep 2-5" +:+ chr LF
        +:+ "  2. Verify output: shell_execute tmux capture-pane -t "
        +:+ created +:+ " -p" +:+ chr LF
        +:+ "  3. For servers: test the endpoint (e.g., curl localhost:PORT)"
    | _ => message
    end
  end.

End Constants.

(** ** shell-interact/hook/storage *)
Module Storage.
Import JS Constants.

Definition getSessionFilePath (sessionID : string) : M string :=
  gets (λ w, Path.join [STORAGE_DIR w; sessionID +:+ ".json"]).

Definition ensureStorageDir : Throws unit :=
  let! dir := lift (gets STORAGE_DIR) in
  let! present := lift (existsSync dir) in
  if present then returns tt else mkdirSync dir.

Definition loadShellInteractSessionState (sessionID : string)
    : M (option ShellInteractSessionState) :=
  let* filePath := getSessionFilePath sessionID in
  let* present := existsSync filePath in
  if negb present then ret None
  else
    let* content := readFileSync filePath in
    match content with
    | Some text =>
        match JSON.parse text with
        | Some parsed =>
            match typed_serialized parsed with
            | Some serialized =>
                ret (Some (mkState (ser_sessionID serialized)
                                   (JSSet.of_array (ser_tmuxSessions serialized))
                                   (ser_updatedAt serialized)))
            | None => ret None
            end
        | None => ret None
        end
    | None => ret None
    end.

(** The write is not inside a [try]: what it throws leaves the function. *)
Definition saveShellInteractSessionState (state : ShellInteractSessionState)
    : Throws unit :=
  let! _ := ensureStorageDir in
  let! filePath := lift (getSessionFilePath (sessionID state)) in
  let serialized :=
    mkSerialized (sessionID state) (JSSet.to_array (tmuxSessions state))
                 (updatedAt state) in
  writeFileSync filePath (JSON.stringify (serialized_value serialized)).


End Storage.

(** ** shell-interact/hook/index: the session registry *)
Module Hook.
Import JS Utils Constants Storage.

Definition setCurrentSessionId (sessionId : string) : M unit :=
  modify (set_currentSessionId (Some sessionId)).

Definition getCurrentSessionId : M (option string) :=
  gets currentSessionId.

(** [name.split(":")[0].split(".")[0]]. *)
Definition normalizeSessionName (name : string) : string :=
  hd EmptyString (split "."%char (hd EmptyString (split ":"%char name))).

(** The loop stops before the last token: a flag there has no value. *)
Fixpoint findFlagValue (tokens : list string) (flag : string) : option string :=
  match tokens with
  | t :: ((v :: _) as rest) =>
      if String.eqb t flag then Some v else findFlagValue rest flag
  | _ => None
  end.

(** [if (flag)]: a value that was found and is not the empty string. *)
Definition found (o : option string) : option string :=
  match o with
  | Some v => if truthy v then Some v else None
  | None => None
  end.

Definition extractSessionNameFromTokens
    (tokens : list string) (subCommand : string) : option string :=
  if String.eqb subCommand "new-session" then
    match found (findFlagValue tokens "-s") with
    | Some sFlag => Some (normalizeSessionName sFlag)
    | None =>
        match found (findFlagValue tokens "-t") with
        | Some tFlag => Some (normalizeSessionName tFlag)
        | None => None
        end
    end
  else
    match found (findFlagValue tokens "-t") with
    | Some tFlag => Some (normalizeSessionName tFlag)
    | None => None
    end.

Definition isCeaSession (sessionName : option string) : bool :=
  match sessionName with
  | Some n => startsWith n CEA_SESSION_PREFIX
  | None => false
  end.

(** The type guard of [isCeaSession] narrows [string | null] to [string];
    it is used only where [isCeaSession] holds. *)
Definition narrowed (sessionName : option string) : string :=
  default EmptyString sessionName.

(** The objects held by the [sessionStates] map are reached through their
    key only, one object per key, so a mutation of the object is a
    replacement of the value at its key. *)
Definition getOrCreateState (sessionID : string) : M ShellInteractSessionState :=
  let* existing := gets (λ w, sessionStates w !! sessionID) in
  match existing with
  | Some st => ret st
  | None =>
      let* persisted := loadShellInteractSessionState sessionID in
      let* state :=
        match persisted with
        | Some p => ret p
        | None =>
            let* now := Date_now in
            ret (mkState sessionID [] now)
        end in
      let* _ := modify (λ w, set_sessionStates (<[sessionID := state]> (sessionStates w)) w) in
      ret state
  end.




Record ToolExecuteResult := mkResult {
  output : string;
  sessionReminder : option string
}.

(** The three-way mutation of [state.tmuxSessions], with [stateChanged]. *)
Definition mutate (isNewSession isKillSession isKillServer : bool)
    (sessionName : option string) (sessions : list string) : list string * bool :=
  if isNewSession && isCeaSession sessionName then
    (JSSet.add (narrowed sessionName) sessions, true)
  else if isKillSession && isCeaSession sessionName then
    (JSSet.delete (narrowed sessionName) sessions, true)
  else if isKillServer then
    (JSSet.clear sessions, true)
  else (sessions, false).

(** The state object after its set and [updatedAt] were assigned. *)
Definition touched (state : ShellInteractSessionState)
    (sessions : list string) (now : Z) : ShellInteractSessionState :=
  mkState (sessionID state) sessions now.

(** The hook throws what the save of the changed state throws: the state
    in memory has its new set and time by then, and no result is built. *)
Definition shellInteractHook (sessionID tmuxCommand toolOutput : string)
    : Throws ToolExecuteResult :=
  if startsWith toolOutput "Error:" then returns (mkResult toolOutput None)
  else
    let tokens := tokenizeCommand tmuxCommand in
    let subCommand := findSubcommand tokens in
    let! state := lift (getOrCreateState sessionID) in
    let isNewSession := String.eqb subCommand "new-session" in
    let isKillSession := String.eqb subCommand "kill-session" in
    let isKillServer := String.eqb subCommand "kill-server" in
    let sessionName := extractSessionNameFromTokens tokens subCommand in
    let '(sessions, stateChanged) :=
      mutate isNewSession isKillSession isKillServer sessionName
             (tmuxSessions state) in
    let! state :=
      if stateChanged then
        let! now := lift Date_now in
        let state := touched state sessions now in
        let! _ := lift (modify (λ w, set_sessionStates
                                       (<[sessionID := state]> (sessionStates w)) w)) in
        let! _ := saveShellInteractSessionState state in
        returns state
      else returns state in
    let isSessionOperation := isNewSession || isKillSession || isKillServer in
    let sessionReminder :=
      if isSessionOperation then
        Some (buildSessionReminderMessage
                (JSSet.to_array (tmuxSessions state))
                (if isNewSession && isCeaSession sessionName
                 then Some (narrowed sessionName) else None))
      else None in
    returns (mkResult
               (match sessionReminder with
                | Some r => if truthy r then toolOutput +:+ r else toolOutput
                | None => toolOutput
                end)
               sessionReminder).

End Hook.

(** ** shell-interact/index and shell-interact/constants: the keystroke entry point *)
Module ShellInteract.
Import JS Utils Hook.

Definition DEFAULT_TIMEOUT_MS : Z := 60000.

Definition BLOCKED_TMUX_SUBCOMMANDS : list string :=
  ["capture-pane"; "capturep"; "save-buffer"; "saveb";
   "show-buffer"; "showb"; "pipe-pane"; "pipep"].

Record ShellInteractResult := mkInteract {
  success : bool;
  output : string
}.

(** [`${code}`] of an exit code, [null] after a signal. *)
Definition code_text (code : option Z) : string :=
  match code with Some c => of_Z c | None => "null" end.

Definition blocked_message (part0 : string) : string :=
  "Error: '" +:+ part0 +:+
  "' is blocked. Use shell_execute instead for capturing/printing terminal output.".

(** The promise of [executeTmuxCommand], resolved by the child's events.
    The hook runs inside the [exit] listener: what it throws leaves the
    listener, and the promise is not resolved. *)
Definition executeTmuxCommand (tmuxCommand : string) : Throws ShellInteractResult :=
  let! cached := lift (gets tmuxPath) in
  let tmuxPath := default "tmux" cached in
  let parts := tokenizeCommand tmuxCommand in
  match parts with
  | [] => returns (mkInteract false "Error: Empty tmux command")
  | part0 :: _ =>
      let subcommand := toLowerCase part0 in
      if bool_decide (subcommand ∈ BLOCKED_TMUX_SUBCOMMANDS) then
        returns (mkInteract false (blocked_message part0))
      else
        let fullCommand := tmuxPath +:+ " " +:+ tmuxCommand in
        let! outcome := lift (spawn "/bin/bash" ["-c"; fullCommand]) in
        match outcome with
        | SpawnFailed message => returns (mkInteract false ("Error: " +:+ message))
        | Exited code stdout stderr timedOut =>
            if timedOut then
              returns (mkInteract false
                         ("Error: Timeout after " +:+ of_Z DEFAULT_TIMEOUT_MS +:+ "ms"))
            else if negb (bool_decide (code = Some 0)) then
              let errorMsg :=
                or_else (trim stderr)
                        ("Command failed with exit code " +:+ code_text code) in
              returns (mkInteract false ("Error: " +:+ errorMsg))
            else
              let output := or_else stdout "(no output)" in
              let! sessionId := lift getCurrentSessionId in
              match found sessionId with
              | Some sid =>
                  let! hookResult := shellInteractHook sid tmuxCommand output in
                  returns (mkInteract true (Hook.output hookResult))
              | None => returns (mkInteract true output)
              end
        end
  end.

End ShellInteract.

(** ** output-stall-detector *)
Module StallDetector.
Import JS.

Inductive Confidence := high | medium | low.

Record OutputStallResult := mkStall {
  isStalled : bool;
  sampleCount : Z;
  unchangedCount : Z;
  lastOutput : string;
  confidence : Confidence;
  detail : string
}.

Record StallDetectorOptions := mkOptions {
  opt_sampleCount : option Z;
  opt_sampleIntervalMs : option Z;
  opt_sessionId : string
}.

(** What the detector does to the outside, in order. *)
Inductive Event :=
| Captured (sessionId : string)     (* tmux capture-pane -p -t sessionId *)
| Timer (ms : Z)                    (* await of a setTimeout of ms *)
| SleepChild (ms : Z).              (* spawnSync of sleep for ms / 1000 seconds *)

(** The terminal: the status and stdout of the k-th capture of a session,
    the number of captures made, and the events so far. *)
Record Terminal := mkTerminal {
  pane : nat → string → option Z * string;
  shots : nat;
  log : list Event
}.

Definition T (A : Type) : Type := Terminal → A * Terminal.

Definition capturePane (sessionId : string) : T string :=
  λ t,
    let '(status, stdout) := pane t (shots t) sessionId in
    let t' := mkTerminal (pane t) (S (shots t)) (log t ++ [Captured sessionId]) in
    if negb (bool_decide (status = Some 0)) then (EmptyString, t')
    else (or_else stdout EmptyString, t').

Definition sleep (ms : Z) : T unit :=
  λ t, (tt, mkTerminal (pane t) (shots t) (log t ++ [Timer ms])).

Definition sleepSync (ms : Z) : T unit :=
  λ t, (tt, mkTerminal (pane t) (shots t) (log t ++ [SleepChild ms])).

(** The sampling loop, from index [i]; [todo] is the number of iterations
    left, [Z.to_nat (sampleCount - i)]. *)
Fixpoint sample_loop (pause : Z → T unit) (sessionId : string)
    (sampleCount sampleIntervalMs : Z) (todo : nat) (i : Z)
    (samples : list string) : T (list string) :=
  match todo with
  | O => λ t, (samples, t)
  | S todo' =>
      λ t,
        let '(output, t1) := capturePane sessionId t in
        let samples := samples ++ [output] in
        let '(_, t2) :=
          if i <? sampleCount - 1 then pause sampleIntervalMs t1 else (tt, t1) in
        sample_loop pause sessionId sampleCount sampleIntervalMs todo' (i + 1)
                    samples t2
  end.

(** The counting loop: [samples[i] === samples[i - 1]] for [i] from 1. *)
Fixpoint count_unchanged (samples : list string) : Z :=
  match samples with
  | prev :: ((cur :: _) as rest) =>
      (if String.eqb cur prev then 1 else 0) + count_unchanged rest
  | _ => 0
  end.

(** The part after sampling, the same text in both variants.
    [unchangedCount >= sampleCount / 2] is a comparison of reals. *)
Definition classify (samples : list string) (sampleCount sampleIntervalMs : Z)
    : OutputStallResult :=
  let unchangedCount := count_unchanged samples in
  let isStalled := unchangedCount =? sampleCount - 1 in
  let lastOutput := default EmptyString (last samples) in
  let confidence :=
    if isStalled && (3 <=? sampleCount) then high
    else if sampleCount <=? 2 * unchangedCount then medium
    else low in
  let detail :=
    if isStalled then
      "Output stalled: " +:+ of_Z sampleCount +:+ " samples over "
      +:+ of_Z ((sampleCount - 1) * sampleIntervalMs) +:+ "ms showed no change"
    else
      "Output active: " +:+ of_Z (sampleCount - unchangedCount) +:+ " of "
      +:+ of_Z sampleCount +:+ " samples showed changes" in
  mkStall isStalled sampleCount unchangedCount lastOutput confidence detail.

Definition detectOutputStall (options : StallDetectorOptions) : T OutputStallResult :=
  let sessionId := opt_sessionId options in
  let sampleCount := default 3 (opt_sampleCount options) in
  let sampleIntervalMs := default 500 (opt_sampleIntervalMs options) in
  λ t,
    let '(samples, t') :=
      sample_loop sleep sessionId sampleCount sampleIntervalMs
                  (Z.to_nat sampleCount) 0 [] t in
    (classify samples sampleCount sampleIntervalMs, t').

Definition detectOutputStallSync (sessionId : string)
    (sampleCount sampleIntervalMs : option Z) : T OutputStallResult :=
  let sampleCount := default 2 sampleCount in
  let sampleIntervalMs := default 300 sampleIntervalMs in
  λ t,
    let '(samples, t') :=
      sample_loop sleepSync sessionId sampleCount sampleIntervalMs
                  (Z.to_nat sampleCount) 0 [] t in
    (classify samples sampleCount sampleIntervalMs, t').

End StallDetector.

(** ** linux-proc-detector: the TTY input-wait detector *)
Module LinuxProc.
Import JS.

Inductive Confidence := high | medium | low.

Record ProcSignal := mkSignal {
  name : string;
  value : string;
  indicatesInputWait : bool
}.

Record LinuxProcDetectionResult := mkDetection {
  detected : bool;
  confidence : Confidence;
  detail : string;
  signals : list ProcSignal;
  pid : option Z;
  command : option string
}.

Definition TTY_READ_WCHAN_PATTERNS : list string :=
  ["n_tty_read"; "tty_read"; "wait_woken"; "do_select"; "poll_schedule_timeout"].

Definition TTY_READ_STACK_PATTERNS : list string :=
  ["n_tty_read"; "tty_read"; "pty_write"; "tty_ldisc_receive_buf"].

(** What the probes see: the platform name, the status and stdout of a
    [/bin/bash -c] child, and the result of reading a file or a link
    ([None] when the call throws). *)
Record ProcEnv := mkEnv {
  platform : string;
  sh : string → option Z * string;
  readFile : string → option string;
  readlink : string → option string
}.

Definition isLinuxPlatform (env : ProcEnv) : bool :=
  String.eqb (platform env) "linux".

Fixpoint skip (n : nat) (s : string) : string :=
  match n, s with
  | S n', String _ s' => skip n' s'
  | _, _ => s
  end.

(** [s.replace(pat, rep)]: the first occurrence only. *)
Fixpoint replace (s pat rep : string) : string :=
  if String.prefix pat s then rep +:+ skip (String.length pat) s
  else match s with
       | EmptyString => EmptyString
       | String c s' => String c (replace s' pat rep)
       end.

(** [s.split(/\s+/)]. *)
Fixpoint splitWs (s : string) : list string :=
  match s with
  | EmptyString => [EmptyString]
  | String c s' =>
      if is_ws c then
        match s' with
        | String c' _ => if is_ws c' then splitWs s' else EmptyString :: splitWs s'
        | EmptyString => EmptyString :: splitWs s'
        end
      else match splitWs s' with
           | [] => [chr c]
           | p :: ps => String c p :: ps
           end
  end.

Definition digit_of (c : ascii) : option Z :=
  let n := nat_of_ascii c in
  if ((48 <=? n) && (n <=? 57))%nat then Some (Z.of_nat n - 48) else None.

Fixpoint leading_digits (s : string) (acc : option Z) : option Z :=
  match s with
  | EmptyString => acc
  | String c s' =>
      match digit_of c with
      | Some d => leading_digits s' (Some (10 * default 0 acc + d))
      | None => acc
      end
  end.

(** [Number.parseInt(s, 10)], with [None] for [NaN]. *)
Definition parseInt (s : string) : option Z :=
  match trimStart s with
  | String "-" r => Z.opp <$> leading_digits r None
  | String "+" r => leading_digits r None
  | r => leading_digits r None
  end.

Definition getForegroundPid (env : ProcEnv) (tty : string) : option Z :=
  let ttyName := replace tty "/dev/" EmptyString in
  let '(status, stdout) :=
    sh env ("ps -t " +:+ ttyName +:+
            " -o pid,stat,comm --no-headers | grep '+' | head -1") in
  if negb (bool_decide (status = Some 0)) || negb (truthy (trim stdout)) then None
  else
    let parts := splitWs (trim stdout) in
    if (length parts <? 1)%nat then None
    else parseInt (hd EmptyString parts).

Definition proc_path (pid : Z) (entry : string) : string :=
  "/proc/" +:+ of_Z pid +:+ "/" +:+ entry.

Definition getProcessCommand (env : ProcEnv) (pid : Z) : option string :=
  match readFile env (proc_path pid "comm") with
  | Some text => let comm := trim text in if truthy comm then Some comm else None
  | None => None
  end.

Definition getProcessStdinFd (env : ProcEnv) (pid : Z) : option string :=
  readlink env (proc_path pid "fd/0").

Definition getProcessWchan (env : ProcEnv) (pid : Z) : option string :=
  match readFile env (proc_path pid "wchan") with
  | Some text => let wchan := trim text in
                 if String.eqb wchan "0" then None else Some wchan
  | None => None
  end.

Definition getProcessStack (env : ProcEnv) (pid : Z) : option string :=
  readFile env (proc_path pid "stack").

Definition getProcessSyscall (env : ProcEnv) (pid : Z) : option string :=
  trim <$> readFile env (proc_path pid "syscall").

(** [!x] on [string | null]. *)
Definition absent (x : option string) : bool :=
  match x with Some v => negb (truthy v) | None => true end.

(** [x || "unknown"] on [string | null]. *)
Definition or_unknown (x : option string) : string :=
  match x with Some v => or_else v "unknown" | None => "unknown" end.

Definition matches_any (patterns : list string) (text : string) : bool :=
  existsb (λ pattern, includes (toLowerCase text) (toLowerCase pattern)) patterns.

Definition checkWchanForTtyRead (wchan : option string) : bool :=
  if absent wchan then false
  else matches_any TTY_READ_WCHAN_PATTERNS (default EmptyString wchan).

Definition checkStackForTtyRead (stack : option string) : bool :=
  if absent stack then false
  else matches_any TTY_READ_STACK_PATTERNS (default EmptyString stack).

Definition checkSyscallForStdinRead (syscall : option string) : bool :=
  match syscall with
  | None => false
  | Some syscall =>
      if negb (truthy syscall) then false
      else if String.eqb syscall "running" then false
      else
        match split " "%char syscall with
        | syscallNum :: fd :: _ =>
            let isReadSyscall := String.eqb syscallNum "0" || String.eqb syscallNum "read" in
            let isStdinFd := String.eqb fd "0x0" || String.eqb fd "0" in
            isReadSyscall && isStdinFd
        | _ => false
        end
  end.

(** The four signals in the order they are pushed. *)
Definition gather (stdinFd wchan syscall : option string)
    (stdinMatchesTty wchanIndicatesTtyRead stackIndicatesTtyRead
     syscallIndicatesStdinRead : bool) : list ProcSignal :=
  [ mkSignal "stdin_fd" (or_unknown stdinFd) stdinMatchesTty;
    mkSignal "wchan" (or_unknown wchan) wchanIndicatesTtyRead;
    mkSignal "stack"
      (if stackIndicatesTtyRead then "contains tty_read frames" else "no tty_read")
      stackIndicatesTtyRead;
    mkSignal "syscall" (or_unknown syscall) syscallIndicatesStdinRead ].

(** The [if / else if] chain that sets [confidence] and [detected]. *)
Definition decide_wait
    (stdinMatchesTty wchanIndicatesTtyRead stackIndicatesTtyRead
     syscallIndicatesStdinRead : bool) (positiveSignals : nat)
    : Confidence * bool :=
  if stdinMatchesTty && (wchanIndicatesTtyRead || stackIndicatesTtyRead) then
    (high, true)
  else if stdinMatchesTty && (syscallIndicatesStdinRead || (2 <=? positiveSignals)%nat) then
    (medium, true)
  else if (1 <=? positiveSignals)%nat then
    (low, true)
  else
    (low, false).

(** Everything after the foreground process is known. *)
Definition analyse (env : ProcEnv) (paneTty : string) (pid : Z)
    : LinuxProcDetectionResult :=
  let command := getProcessCommand env pid in
  let stdinFd := getProcessStdinFd env pid in
  let wchan := getProcessWchan env pid in
  let stack := getProcessStack env pid in
  let syscall := getProcessSyscall env pid in
  let stdinMatchesTty := bool_decide (stdinFd = Some paneTty) in
  let wchanIndicatesTtyRead := checkWchanForTtyRead wchan in
  let stackIndicatesTtyRead := checkStackForTtyRead stack in
  let syscallIndicatesStdinRead := checkSyscallForStdinRead syscall in
  let signals :=
    gather stdinFd wchan syscall stdinMatchesTty wchanIndicatesTtyRead
           stackIndicatesTtyRead syscallIndicatesStdinRead in
  let positiveSignals := length (filter (λ s, indicatesInputWait s = true) signals) in
  let '(confidence, detected) :=
    decide_wait stdinMatchesTty wchanIndicatesTtyRead stackIndicatesTtyRead
                syscallIndicatesStdinRead positiveSignals in
  let signalSummary :=
    join ", " (map name (filter (λ s, indicatesInputWait s = true) signals)) in
  let who :=
    "Linux /proc analysis: Process " +:+ chr DQUOTE +:+ default "null" command
    +:+ chr DQUOTE +:+ " (PID " +:+ of_Z pid +:+ ") " in
  mkDetection detected confidence
    (if detected then
       who +:+ "appears to be waiting for TTY input. Positive signals: "
       +:+ or_else signalSummary "none"
     else who +:+ "does not appear to be waiting for input")
    signals (Some pid) command.

Definition detectLinuxProcTtyWait (env : ProcEnv) (sessionId : string)
    : option LinuxProcDetectionResult :=
  if negb (isLinuxPlatform env) then None
  else
    let '(status, stdout) :=
      sh env ("tmux display -t " +:+ sessionId +:+ " -p " +:+ chr DQUOTE
              +:+ "#{pane_tty}" +:+ chr DQUOTE) in
    if negb (bool_decide (status = Some 0)) || negb (truthy (trim stdout)) then None
    else
      let paneTty := trim stdout in
      match getForegroundPid env paneTty with
      | None => None
      | Some pid => if pid =? 0 then None else Some (analyse env paneTty pid)
      end.

End LinuxProc.

(** ** shell-interact/utils: the multiplexer path resolver

    The resolver is asynchronous.  A call returns a promise, and the [exit]
    or [error] event of a child arrives later, as an event of its own; a
    child ends with one of the two, and one callback runs at a time, to its
    end.  Promise objects live in a store and are named by their index in
    it; a promise never rejects here. *)
Module TmuxPath.
Import JS.

(** A promise object: pending, or resolved with [string | null]. *)
Inductive Promise := Pending | Resolved (path : option string).

(** A child of [findTmuxPath] whose event has not arrived yet. *)
Inductive Awaited :=
| Lookup (cmd : string)      (* [which tmux] or [where tmux] *)
| Verify (path : string).    (* [path -V] *)

Record Resolver := mkResolver {
  platform : string;                       (* process.platform *)
  world : World;                           (* holds [tmuxPath] and the children *)
  promises : list Promise;                 (* the promise objects made so far *)
  initPromise : option nat;                (* the module variable, a reference *)
  inflight : list (Awaited * nat)          (* awaited children, each with the
                                              promise its chain settles *)
}.

Definition set_tmuxPath (p : option string) (w : World) : World :=
  mkWorld (homedir w) (clock w) (ticks w) (dirs w) (files w) (refused w) (sessionStates w)
          (currentSessionId w) p (child w) (spawned w).

(** [spawn(cmd, args)] with handlers attached: the child is started. *)
Definition start_child (cmd : string) (args : list string) (w : World) : World :=
  set_spawned (spawned w ++ [(cmd, args)]) w.

(** [findTmuxPath().then(...)] up to the first suspension: the lookup child
    is started and the promise of the chain is returned. *)
Definition findTmuxPath (s : Resolver) : nat * Resolver :=
  let isWindows := String.eqb (platform s) "win32" in
  let cmd := if isWindows then "where" else "which" in
  let id := length (promises s) in
  (id, mkResolver (platform s) (start_child cmd ["tmux"] (world s))
                  (promises s ++ [Pending]) (initPromise s)
                  (inflight s ++ [(Lookup cmd, id)])).

Definition getTmuxPath (s : Resolver) : nat * Resolver :=
  match tmuxPath (world s) with
  | Some p =>
      (* Promise.resolve(tmuxPath): a new promise, already resolved *)
      (length (promises s),
       mkResolver (platform s) (world s) (promises s ++ [Resolved (Some p)])
                  (initPromise s) (inflight s))
  | None =>
      match initPromise s with
      | Some pr => (pr, s)
      | None =>
          let '(id, s') := findTmuxPath s in
          (id, mkResolver (platform s') (world s') (promises s') (Some id)
                          (inflight s'))
      end
  end.

Definition getCachedTmuxPath (s : Resolver) : option string :=
  tmuxPath (world s).

Definition startBackgroundTmuxCheck (s : Resolver) : Resolver :=
  match initPromise s with
  | Some _ => s
  | None =>
      let '(id, s') := getTmuxPath s in
      mkResolver (platform s') (world s') (promises s') (Some id) (inflight s')
  end.

(** The chain of promise [id] ends with [path]: the promise is resolved and
    the callback of [getTmuxPath] assigns [tmuxPath]. *)
Definition settle (id : nat) (path : option string)
    (rest : list (Awaited * nat)) (s : Resolver) : Resolver :=
  mkResolver (platform s) (set_tmuxPath path (world s))
             (<[id := Resolved path]> (promises s)) (initPromise s) rest.

(** The [exit] or [error] event of the [k]-th awaited child; what the child
    did is what the world says of it. *)
Definition child_event (k : nat) (s : Resolver) : Resolver :=
  match inflight s !! k with
  | None => s
  | Some (awaited, id) =>
      let rest := take k (inflight s) ++ drop (S k) (inflight s) in
      match awaited with
      | Lookup cmd =>
          match child (world s) cmd ["tmux"] with
          | SpawnFailed _ => settle id None rest s
          | Exited code stdout _ _ =>
              if negb (bool_decide (code = Some 0)) then settle id None rest s
              else
                let path := hd EmptyString (split LF (trim stdout)) in
                if negb (truthy path) then settle id None rest s
                else
                  mkResolver (platform s) (start_child path ["-V"] (world s))
                             (promises s) (initPromise s)
                             (rest ++ [(Verify path, id)])
          end
      | Verify path =>
          match child (world s) path ["-V"] with
          | SpawnFailed _ => settle id None rest s
          | Exited verifyCode _ _ _ =>
              settle id (if bool_decide (verifyCode = Some 0) then Some path else None)
                     rest s
          end
      end
  end.

(** What happens to the resolver: calls from the program and events of the
    children, in any order. *)
Inductive Event :=
| CallGetTmuxPath
| CallStartBackgroundTmuxCheck
| ChildEvent (k : nat).

Definition step (s : Resolver) (e : Event) : Resolver :=
  match e with
  | CallGetTmuxPath => (getTmuxPath s).2
  | CallStartBackgroundTmuxCheck => startBackgroundTmuxCheck s
  | ChildEvent k => child_event k s
  end.

Definition run (s : Resolver) (events : list Event) : Resolver :=
  foldl step s events.

(** The state when the module has been loaded. *)
Definition loaded (platform : string) (w : World) : Resolver :=
  mkResolver platform (set_tmuxPath None w) [] None [].

End TmuxPath.

(** ** shell-execute: the output cap of the command runner

    [length] and [slice] count UTF-16 code units, so in this module a string
    is the sequence of its code units. *)
Module ShellExecute.
Import JS.

Definition MAX_OUTPUT_LENGTH : Z := 50000.
Definition DEFAULT_TIMEOUT_MS : Z := 10000.

(** The code units of a text of ASCII characters. *)
Definition units (s : string) : list N :=
  map N_of_ascii (list_ascii_of_string s).

(** [s.slice(start, end)]; [None] stands for an omitted [end]. *)
Definition slice (s : list N) (start : Z) (end_ : option Z) : list N :=
  let len := Z.of_nat (length s) in
  let from := if start <? 0 then Z.max (len + start) 0 else Z.min start len in
  let to :=
    match end_ with
    | None => len
    | Some e => if e <? 0 then Z.max (len + e) 0 else Z.min e len
    end in
  take (Z.to_nat (to - from)) (drop (Z.to_nat from) s).

Definition truncateOutput (output : list N) (maxLength : Z) : list N :=
  if Z.of_nat (length output) <=? maxLength then output
  else
    let half := maxLength / 2 in
    let first := slice output 0 (Some half) in
    let last := slice output (- half) None in
    let omitted := Z.of_nat (length output) - maxLength in
    first ++ units (chr LF +:+ "[... ") ++ units (of_Z omitted)
    ++ units (" characters omitted ...]" +:+ chr LF) ++ last.

Record CommandResult := mkCommandResult {
  exitCode : Z;
  output : list N
}.

(** [session] is the shared session's [executeCommand], a collaborator:
    given the command, the working directory and the timeout it yields an
    exit code and the output. *)
Definition executeCommand
    (session : list N → option (list N) → Z → Z * list N)
    (command : list N) (workdir : option (list N)) (timeoutMs : option Z)
    : CommandResult :=
  let timeoutMs := default DEFAULT_TIMEOUT_MS timeoutMs in
  let result := session command workdir timeoutMs in
  mkCommandResult result.1 (truncateOutput result.2 MAX_OUTPUT_LENGTH).

End ShellExecute.

(** ** Vocabulary of the specification

    The notions the specification uses to describe the functions above, each
    defined from its words and independently of the code it is compared to. *)
Module Spec.
Import JS Utils Constants Hook.

(** *** Command strings as the tokenizer rules describe them *)

(** A character standing for itself, or a backslash and the character it
    escapes. *)
Inductive atom := Plain (c : ascii) | Escape (c : ascii).

(** A stretch of unquoted text one atom long, or a quoted group. *)
Inductive piece := Bare (a : atom) | Group (q : ascii) (body : list atom).

Definition is_quote (c : ascii) : bool := Ascii.eqb c SQUOTE || Ascii.eqb c DQUOTE.

Definition atom_text (a : atom) : string :=
  match a with
  | Plain c => chr c
  | Escape c => String BACKSLASH (chr c)
  end.

Definition atom_value (a : atom) : ascii :=
  match a with Plain c | Escape c => c end.

Fixpoint atoms_text (l : list atom) : string :=
  match l with
  | [] => EmptyString
  | a :: l' => atom_text a +:+ atoms_text l'
  end.

Fixpoint atoms_value (l : list atom) : string :=
  match l with
  | [] => EmptyString
  | a :: l' => String (atom_value a) (atoms_value l')
  end.

(** Outside quotes a plain character is none of backslash, quote, space. *)
Definition bare_ok (a : atom) : bool :=
  match a with
  | Plain c => negb (Ascii.eqb c BACKSLASH) && negb (is_quote c) && negb (Ascii.eqb c SPACE)
  | Escape _ => true
  end.

(** Inside a group opened by [q] a plain character is neither backslash
    nor [q]; spaces and the other quote are plain there. *)
Definition inside_ok (q : ascii) (a : atom) : bool :=
  match a with
  | Plain c => negb (Ascii.eqb c BACKSLASH) && negb (Ascii.eqb c q)
  | Escape _ => true
  end.

Definition piece_ok (p : piece) : bool :=
  match p with
  | Bare a => bare_ok a
  | Group q body => is_quote q && forallb (inside_ok q) body
  end.

Definition piece_text (p : piece) : string :=
  match p with
  | Bare a => atom_text a
  | Group q body => String q (atoms_text body +:+ chr q)
  end.

Definition piece_value (p : piece) : string :=
  match p with
  | Bare a => chr (atom_value a)
  | Group _ body => atoms_value body
  end.

(** A word: pieces written one after the other. *)
Fixpoint word_text (w : list piece) : string :=
  match w with
  | [] => EmptyString
  | p :: w' => piece_text p +:+ word_text w'
  end.

Fixpoint word_value (w : list piece) : string :=
  match w with
  | [] => EmptyString
  | p :: w' => piece_value p +:+ word_value w'
  end.

Definition word_ok (w : list piece) : bool := forallb piece_ok w.

(** A command as the rules read it: words, each followed by a run of
    [S n] spaces; a last word; possibly a group that is opened and never
    closed; possibly a backslash as the very last character. *)
Record shape := mkShape {
  init : list (list piece * nat);
  final : list piece;
  unclosed : option (ascii * list atom);
  dangling : bool
}.

Fixpoint init_text (l : list (list piece * nat)) : string :=
  match l with
  | [] => EmptyString
  | (w, n) :: l' => word_text w +:+ spaces (S n) +:+ init_text l'
  end.

Definition unclosed_text (o : option (ascii * list atom)) : string :=
  match o with
  | Some (q, body) => String q (atoms_text body)
  | None => EmptyString
  end.

Definition unclosed_value (o : option (ascii * list atom)) : string :=
  match o with
  | Some (_, body) => atoms_value body
  | None => EmptyString
  end.

Definition unclosed_ok (o : option (ascii * list atom)) : bool :=
  match o with
  | Some (q, body) => is_quote q && forallb (inside_ok q) body
  | None => true
  end.

Definition dangling_text (d : bool) : string :=
  if d then chr BACKSLASH else EmptyString.

(** The characters of the command. *)
Definition shape_text (sh : shape) : string :=
  init_text (init sh) +:+ word_text (final sh)
  +:+ unclosed_text (unclosed sh) +:+ dangling_text (dangling sh).

Definition shape_ok (sh : shape) : bool :=
  forallb (λ e, word_ok e.1) (init sh) && word_ok (final sh)
  && unclosed_ok (unclosed sh).

(** The tokens the rules assign: the values of the words, in order, the
    text after an unclosed quote joining the last one, and the empty values
    left out. *)
Definition shape_tokens (sh : shape) : list string :=
  filter (λ v, truthy v = true)
         (map (λ e, word_value e.1) (init sh)
          ++ [word_value (final sh) +:+ unclosed_value (unclosed sh)]).

(** Reading a string as a command, a character at a time. *)
Definition read_step (sh : shape) (c : ascii) : shape :=
  if dangling sh then
    match unclosed sh with
    | Some (q, body) =>
        mkShape (init sh) (final sh) (Some (q, body ++ [Escape c])) false
    | None =>
        mkShape (init sh) (final sh ++ [Bare (Escape c)]) None false
    end
  else if Ascii.eqb c BACKSLASH then
    mkShape (init sh) (final sh) (unclosed sh) true
  else
    match unclosed sh with
    | Some (q, body) =>
        if Ascii.eqb c q then
          mkShape (init sh) (final sh ++ [Group q body]) None false
        else mkShape (init sh) (final sh) (Some (q, body ++ [Plain c])) false
    | None =>
        if is_quote c then mkShape (init sh) (final sh) (Some (c, [])) false
        else if Ascii.eqb c SPACE then
          mkShape (init sh ++ [(final sh, 0%nat)]) [] None false
        else mkShape (init sh) (final sh ++ [Bare (Plain c)]) None false
    end.

Fixpoint read_loop (sh : shape) (s : string) : shape :=
  match s with
  | EmptyString => sh
  | String c rest => read_loop (read_step sh c) rest
  end.

Definition read_command (s : string) : shape :=
  read_loop (mkShape [] [] None false) s.

(** The rule on separators read with white space for space: two words
    of plain letters with one white-space character between them are two
    tokens. *)
Definition whitespace_separates : Prop :=
  ∀ (c : ascii) (a b : list piece),
    is_ws c = true → word_ok a = true → word_ok b = true →
    tokenizeCommand (word_text a +:+ chr c +:+ word_text b)
    = filter (λ v, truthy v = true) [word_value a; word_value b].

(** *** The registry *)

(** The tracked-session set of a conversation as the registry holds it:
    the cached state, else the persisted one, else none. *)
Definition tracked (sessionID : string) (w : World) : list string :=
  tmuxSessions (getOrCreateState sessionID w).1.

(** A name cut at the first ':' or '.'. *)
Fixpoint truncate_at_separator (name : string) : string :=
  match name with
  | EmptyString => EmptyString
  | String c rest =>
      if Ascii.eqb c ":" || Ascii.eqb c "." then EmptyString
      else String c (truncate_at_separator rest)
  end.

(** The resolved target name of a creation: the -s value, else the -t value. *)
Definition resolved_new (tokens : list string) : option string :=
  truncate_at_separator <$>
    match findFlagValue tokens "-s" with
    | Some v => Some v
    | None => findFlagValue tokens "-t"
    end.

(** The resolved target name of any other command: the -t value. *)
Definition resolved_target (tokens : list string) : option string :=
  truncate_at_separator <$> findFlagValue tokens "-t".


(** The reminder: the tracked names, comma separated, behind its heading. *)
Definition reminder_text (names : list string) : string :=
  chr LF +:+ chr LF +:+ "[System Reminder] Active cea-* tmux sessions: "
  +:+ join ", " names.

(** The follow-up guidance for a session that was just created. *)
Definition guidance_text (created : string) : string :=
  chr LF +:+ "[Action Required] Background process started in '"
  +:+ created +:+ "'. Before reporting completion:" +:+ chr LF
  +:+ "  1. Wait: shell_execute sleep 2-5" +:+ chr LF
  +:+ "  2. Verify output: shell_execute tmux capture-pane -t "
  +:+ created +:+ " -p" +:+ chr LF
  +:+ "  3. For servers: test the endpoint (e.g., curl localhost:PORT)".

(** The path of the durable record of a conversation. *)
Definition record_path (w : World) (sessionID : string) : string :=
  Path.join [STORAGE_DIR w; sessionID +:+ ".json"].

(** The state a file's text stands for, if it parses to one. *)
Definition stored_state (text : string) : option ShellInteractSessionState :=
  match JSON.parse text with
  | Some v =>
      match typed_serialized v with
      | Some d =>
          Some (mkState (ser_sessionID d) (JSSet.of_array (ser_tmuxSessions d))
                        (ser_updatedAt d))
      | None => None
      end
  | None => None
  end.

(** The names in the durable record of a conversation, if it has one. *)
Definition persisted_names (w : World) (sessionID : string) : option (list string) :=
  match files w !! record_path w sessionID with
  | Some text =>
      match JSON.parse text with
      | Some v => ser_tmuxSessions <$> typed_serialized v
      | None => None
      end
  | None => None
  end.

(** The prefixed name a command creates, if it creates one. *)
Definition created_name (tokens : list string) (subCommand : string) : option string :=
  if String.eqb subCommand "new-session" then
    match resolved_new tokens with
    | Some n => if startsWith n CEA_SESSION_PREFIX then Some n else None
    | None => None
    end
  else None.

(** The prefixed name a command kills, if it kills one, for a given
    resolution of the target name. *)
Definition killed_name_by (resolve : list string → option string)
    (tokens : list string) (subCommand : string) : option string :=
  if String.eqb subCommand "kill-session" then
    match resolve tokens with
    | Some n => if startsWith n CEA_SESSION_PREFIX then Some n else None
    | None => None
    end
  else None.

(** The name is resolved from the -t value. *)
Definition killed_name : list string → string → option string :=
  killed_name_by resolved_target.


(** The update of the tracked set by one [recordEvent]: creation of a
    prefixed name adds it, killing a prefixed name removes it, kill-server
    clears the set, anything else leaves it as it was. *)
Definition update_rule_by (resolve : list string → option string)
    (sessionID tmuxCommand toolOutput : string) (w : World) : Prop :=
  let tokens := tokenizeCommand tmuxCommand in
  let sub := findSubcommand tokens in
  let before := tracked sessionID w in
  let after := tracked sessionID (shellInteractHook sessionID tmuxCommand toolOutput w).2 in
  (∀ n, created_name tokens sub = Some n → after = JSSet.add n before)
  ∧ (∀ n, killed_name_by resolve tokens sub = Some n → after = JSSet.delete n before)
  ∧ (sub = "kill-server" → after = [])
  ∧ (created_name tokens sub = None → killed_name_by resolve tokens sub = None →
     sub ≠ "kill-server" → after = before).

(** The rule with one notion of resolved name, the -s value else the -t
    value, for creation and for killing alike. *)
Definition update_as_stated : string → string → string → World → Prop :=
  update_rule_by resolved_new.

(** The rule with the name of a kill resolved from the -t value. *)
Definition update_rule : string → string → string → World → Prop :=
  update_rule_by resolved_target.

(** A name that holds no separator. *)
Definition slash_free (s : string) : bool :=
  all_chars (λ c, negb (Ascii.eqb c Path.SEP)) s.

(** A segment that [Path.step] keeps as it is. *)
Definition plain_segment (s : string) : bool :=
  truthy s && negb (String.eqb s ".") && negb (String.eqb s "..") && slash_free s.

(** The kept segments of a path that is being normalized, the last kept
    one first: plain ones, and below them [..] ones in a path that may
    climb above its start. *)
Definition settled (allowAboveRoot : bool) (kept : list string) : Prop :=
  ∃ plain k,
    kept = plain ++ replicate k ".."
    ∧ Forall (λ s, plain_segment s = true) plain
    ∧ (k ≠ 0%nat → allowAboveRoot = true).

Definition is_absolute (path : string) : bool :=
  match path with
  | String first _ => Ascii.eqb first Path.SEP
  | EmptyString => false
  end.

(** The store can take the record of a conversation: the id is a plain
    file name, each directory on the way to the storage directory is there
    or can be made, no directory stands at the path of the record, and the
    store does not refuse that path. *)
Definition creatable (w : World) (d : string) : bool :=
  bool_decide (d ∈ dirs w)
  || (negb (bool_decide (is_Some (files w !! d)))
      && negb (bool_decide (is_Some (refused w d)))).

Definition storable (w : World) (sessionID : string) : bool :=
  slash_free sessionID
  && forallb (creatable w) (directories_to EmptyString (STORAGE_DIR w))
  && negb (bool_decide (record_path w sessionID ∈ dirs w))
  && negb (bool_decide (is_Some (refused w (record_path w sessionID)))).

(** The round trip as the specification states it: the save returns, and
    the load that follows returns a state with the same id and names. *)
Definition round_trip_as_stated (state : ShellInteractSessionState) (w : World) : Prop :=
  let saved := Storage.saveShellInteractSessionState state w in
  saved.1 = Returned tt
  ∧ ∃ loaded,
      (Storage.loadShellInteractSessionState (sessionID state) saved.2).1 = Some loaded
      ∧ sessionID loaded = sessionID state
      ∧ tmuxSessions loaded = tmuxSessions state.

(** The round trip as the code makes it: a store that can take the record
    makes the save return, and a save that returned is read back. *)
Definition round_trip_rule (state : ShellInteractSessionState) (w : World) : Prop :=
  let saved := Storage.saveShellInteractSessionState state w in
  (storable w (sessionID state) = true → saved.1 = Returned tt)
  ∧ (saved.1 = Returned tt →
     ∃ loaded,
       (Storage.loadShellInteractSessionState (sessionID state) saved.2).1 = Some loaded
       ∧ sessionID loaded = sessionID state
       ∧ tmuxSessions loaded = tmuxSessions state).






(** A world with nothing on disk, a store that refuses no path, nothing
    cached and children that exit with code 0 and no output. *)
Definition fresh_world : World :=
  mkWorld "/home/agent" (λ n, 1700000000000 + Z.of_nat n) 0 ∅ ∅ (λ _, None) ∅ None None
          (λ _ _, Exited (Some 0) EmptyString EmptyString false) [].

(** The same world with the given sessions of a conversation tracked in
    memory. *)
Definition world_tracking (sid : string) (names : list string) : World :=
  set_sessionStates {[ sid := mkState sid names 1700000000000 ]} fresh_world.

(** *** The TTY decision table *)

Record Signals := mkSignals {
  stdinMatch : bool;
  wchanMatch : bool;
  stackMatch : bool;
  syscallMatch : bool
}.

Definition positives (s : Signals) : nat :=
  length (filter (λ b, b = true)
            [stdinMatch s; wchanMatch s; stackMatch s; syscallMatch s]).

(** The rows of the table, in order: a condition and what it decides
    (confidence, detected). *)
Definition tty_table : list ((Signals → bool) * (LinuxProc.Confidence * bool)) :=
  [ (λ s, stdinMatch s && (wchanMatch s || stackMatch s), (LinuxProc.high, true));
    (λ s, stdinMatch s && (syscallMatch s || (2 <=? positives s)%nat),
     (LinuxProc.medium, true));
    (λ s, (1 <=? positives s)%nat, (LinuxProc.low, true)) ].

(** First match wins; otherwise not detected, low. *)
Definition first_match (s : Signals) : LinuxProc.Confidence * bool :=
  match find (λ row, row.1 s) tty_table with
  | Some row => row.2
  | None => (LinuxProc.low, false)
  end.

(** The four signals a detection recorded. *)
Definition signals_of (r : LinuxProc.LinuxProcDetectionResult) : option Signals :=
  match map LinuxProc.indicatesInputWait (LinuxProc.signals r) with
  | [a; b; c; d] => Some (mkSignals a b c d)
  | _ => None
  end.

(** low < medium < high. *)
Definition rank (c : LinuxProc.Confidence) : nat :=
  match c with
  | LinuxProc.low => 0
  | LinuxProc.medium => 1
  | LinuxProc.high => 2
  end.

(** The second vector has every positive signal of the first. *)
Definition at_least (s1 s2 : Signals) : Prop :=
  (stdinMatch s1 = true → stdinMatch s2 = true) ∧
  (wchanMatch s1 = true → wchanMatch s2 = true) ∧
  (stackMatch s1 = true → stackMatch s2 = true) ∧
  (syscallMatch s1 = true → syscallMatch s2 = true).

(** A process whose stdin is the pane's tty; [wchan] is what its wait
    channel file holds. *)
Definition waiting_env (wchan : string) : LinuxProc.ProcEnv :=
  LinuxProc.mkEnv "linux"
    (λ cmd, if startsWith cmd "ps " then (Some 0, " 4242 Ss+  cat")
            else (Some 0, "/dev/pts/7"))
    (λ path, if String.eqb path "/proc/4242/wchan" then Some wchan else None)
    (λ _, Some "/dev/pts/7").

(** *** The stall detector *)

(** The sample a capture yields: the pane text, or the empty string when
    the capture failed. *)
Definition shot_text (r : option Z * string) : string :=
  match r.1 with
  | Some 0 => r.2
  | _ => EmptyString
  end.

(** The [n] samples a detection takes of a session on a terminal. *)
Definition sampled (t : StallDetector.Terminal) (sessionId : string) (n : nat)
    : list string :=
  map (λ k, shot_text (StallDetector.pane t (StallDetector.shots t + k)%nat sessionId))
      (seq 0 n).

(** The number of adjacent pairs of identical samples. *)
Definition adjacent_identical_pairs (samples : list string) : nat :=
  length (filter (λ i, samples !! i = samples !! S i)
                 (seq 0 (length samples - 1))).

(** A terminal whose successive captures show the given texts. *)
Definition terminal_showing (texts : list string) : StallDetector.Terminal :=
  StallDetector.mkTerminal (λ k _, (Some 0, nth k texts EmptyString)) 0 [].

(** A detector entry point whose omitted sample count and interval behave
    as the given values. *)
Definition defaults_to (N interval : Z)
    (run : option Z → option Z → StallDetector.T StallDetector.OutputStallResult)
    : Prop :=
  ∀ (n i : option Z) (t : StallDetector.Terminal),
    run n i t = run (Some (default N n)) (Some (default interval i)) t.

(** Sleeping, in either way, leaves the pane and the capture count alone. *)
Definition is_pause (pause : Z → StallDetector.T unit) : Prop :=
  ∀ ms t, StallDetector.pane (pause ms t).2 = StallDetector.pane t
          ∧ StallDetector.shots (pause ms t).2 = StallDetector.shots t.

(** What the specification says of a result, given the samples taken:
    the unchanged count is the number of adjacent identical pairs; stalled
    means that count is N - 1; confidence is high if stalled and N >= 3,
    else medium if the count is at least N / 2, else low; and the last
    output is the final sample. *)
Definition stall_verdict (samples : list string)
    (r : StallDetector.OutputStallResult) : Prop :=
  let N := Z.of_nat (length samples) in
  StallDetector.unchangedCount r = Z.of_nat (adjacent_identical_pairs samples)
  ∧ (StallDetector.isStalled r = true ↔ StallDetector.unchangedCount r = N - 1)
  ∧ StallDetector.confidence r
    = (if StallDetector.isStalled r && (3 <=? N) then StallDetector.high
       else if N <=? 2 * StallDetector.unchangedCount r then StallDetector.medium
       else StallDetector.low)
  ∧ (∀ x, last samples = Some x → StallDetector.lastOutput r = x).

(** The suspending and the blocking entry point of the detector, as
    functions of the two optional parameters. *)
Definition suspending (sessionId : string) (n i : option Z)
    : StallDetector.T StallDetector.OutputStallResult :=
  StallDetector.detectOutputStall (StallDetector.mkOptions n i sessionId).

Definition blocking (sessionId : string) (n i : option Z)
    : StallDetector.T StallDetector.OutputStallResult :=
  StallDetector.detectOutputStallSync sessionId n i.

(** Both entry points default to 3 samples, 500 ms apart. *)
Definition both_default_to_3_and_500 : Prop :=
  ∀ sessionId : string,
    defaults_to 3 500 (suspending sessionId)
    ∧ defaults_to 3 500 (blocking sessionId).

End Spec.

Import JS Utils Constants Storage Hook Spec.

(** ** Notions used by the further properties *)

(** *** Commands *)

(** A word of characters that stand for themselves outside quotes. *)
Definition plain_word (w : string) : bool :=
  truthy w && all_chars (λ c, bare_ok (Plain c)) w.

(** A string written with a backslash before each character. *)
Fixpoint escaped_text (s : string) : string :=
  match s with
  | EmptyString => EmptyString
  | String c s' => String BACKSLASH (String c (escaped_text s'))
  end.

(** *** The registry across calls *)

(** The world a new process finds: the disk as it is, nothing in memory. *)
Definition restarted (w : World) : World := set_sessionStates ∅ w.

(** Memory and disk agree on a conversation: its state carries its own id,
    its set has no duplicates, and a restarted process would track the same
    sessions. *)
Definition consistent (sid : string) (w : World) : Prop :=
  sessionID (getOrCreateState sid w).1 = sid
  ∧ NoDup (tracked sid w)
  ∧ tracked sid (restarted w) = tracked sid w.


(** *** The keystroke entry point *)

(** The child the entry point runs for a command. *)
Definition bash_child (w : World) (tmuxCommand : string) : string * list string :=
  ("/bin/bash", ["-c"; default "tmux" (tmuxPath w) +:+ " " +:+ tmuxCommand]).

(** The tokens of a command pass the checks made before spawning. *)
Definition accepted (tmuxCommand : string) : Prop :=
  ∃ part0 rest,
    tokenizeCommand tmuxCommand = part0 :: rest
    ∧ toLowerCase part0 ∉ ShellInteract.BLOCKED_TMUX_SUBCOMMANDS.

(** A world whose multiplexer answers every command with exit code 1 and
    the given text on its error stream. *)
Definition failing_world (stderr : string) : World :=
  mkWorld "/home/agent" (λ n, 1700000000000 + Z.of_nat n) 0 ∅ ∅ (λ _, None) ∅
          (Some "conv-1") None
          (λ _ _, Exited (Some 1) EmptyString stderr false) [].

(** A world whose multiplexer answers every command with exit code 0 and
    the given output, for conversation conv-1. *)
Definition answering_world (stdout : string) : World :=
  mkWorld "/home/agent" (λ n, 1700000000000 + Z.of_nat n) 0 ∅ ∅ (λ _, None) ∅
          (Some "conv-1") None
          (λ _ _, Exited (Some 0) stdout EmptyString false) [].

(** *** Stall detection *)

(** The captures and pauses of a detection with [n] samples: a capture,
    then a pause and a capture for each further sample. *)
Fixpoint schedule (sessionId : string) (pause : StallDetector.Event) (n : nat)
    : list StallDetector.Event :=
  match n with
  | O => []
  | S n' =>
      StallDetector.Captured sessionId ::
      match n' with
      | O => []
      | S _ => pause :: schedule sessionId pause n'
      end
  end.

(** The number of adjacent pairs of samples that differ. *)
Definition adjacent_differing_pairs (samples : list string) : nat :=
  length (filter (λ i, samples !! i ≠ samples !! S i)
                 (seq 0 (length samples - 1))).

(** A terminal on which no capture of the session succeeds between the
    captures made so far and the end. *)
Definition captures_fail (t : StallDetector.Terminal) (sessionId : string) : Prop :=
  ∀ k, (StallDetector.pane t (StallDetector.shots t + k)%nat sessionId).1 ≠ Some 0.

(** A terminal on which every capture fails with status 1. *)
Definition dead_terminal : StallDetector.Terminal :=
  StallDetector.mkTerminal (λ _ _, (Some 1, "no server running")) 0 [].

(** *** The TTY input-wait detector *)

(** The signals of a result that indicate an input wait. *)
Definition positive_signals (r : LinuxProc.LinuxProcDetectionResult)
    : list LinuxProc.ProcSignal :=
  filter (λ s, LinuxProc.indicatesInputWait s = true) (LinuxProc.signals r).

(** How a detail text names the process. *)
Definition process_text (command : option string) (pid : Z) : string :=
  "Linux /proc analysis: Process " +:+ chr DQUOTE +:+ default "null" command
  +:+ chr DQUOTE +:+ " (PID " +:+ of_Z pid +:+ ") ".

(** The beginnings of a syscall line that is a read on descriptor 0: the
    syscall as [0] or [read], the descriptor as [0x0] or [0]. *)
Definition stdin_read_fields : list string :=
  ["0 0x0"; "0 0"; "read 0x0"; "read 0"].

(** *** The path resolver *)

(** The lookup child of a platform. *)
Definition lookup_child (platform : string) : string * list string :=
  (if String.eqb platform "win32" then "where" else "which", ["tmux"]).

(** The probe of a path. *)
Definition probe_child (path : string) : string * list string := (path, ["-V"]).

(** What awaiting a promise yields, once it is resolved. *)
Definition awaited_value (s : TmuxPath.Resolver) (pr : nat) : option (option string) :=
  match TmuxPath.promises s !! pr with
  | Some (TmuxPath.Resolved v) => Some v
  | _ => None
  end.

(** The path the lookup of a world proposes: the first line of what the
    lookup child prints, when it exits with code 0 and the line is not
    empty. *)
Definition proposed_path (platform : string) (w : World) : option string :=
  match child w (lookup_child platform).1 (lookup_child platform).2 with
  | SpawnFailed _ => None
  | Exited code stdout _ _ =>
      if bool_decide (code = Some 0) then
        let path := hd EmptyString (split LF (trim stdout)) in
        if truthy path then Some path else None
      else None
  end.

(** The proposed path, when its probe exits with code 0. *)
Definition verified_path (platform : string) (w : World) : option string :=
  match proposed_path platform w with
  | None => None
  | Some path =>
      match child w (probe_child path).1 (probe_child path).2 with
      | SpawnFailed _ => None
      | Exited verifyCode _ _ _ =>
          if bool_decide (verifyCode = Some 0) then Some path else None
      end
  end.

(** The states the resolver of a process goes through: nothing started;
    the lookup running; the probe running; resolved. *)
Definition resolver_phase (pl : string) (w : World) (s : TmuxPath.Resolver) : Prop :=
  (TmuxPath.initPromise s = None ∧ TmuxPath.inflight s = []
   ∧ tmuxPath (TmuxPath.world s) = None
   ∧ spawned (TmuxPath.world s) = spawned w)
  ∨ (∃ id,
       TmuxPath.initPromise s = Some id
       ∧ TmuxPath.promises s !! id = Some TmuxPath.Pending
       ∧ TmuxPath.inflight s = [(TmuxPath.Lookup (lookup_child pl).1, id)]
       ∧ tmuxPath (TmuxPath.world s) = None
       ∧ spawned (TmuxPath.world s) = spawned w ++ [lookup_child pl])
  ∨ (∃ id path,
       TmuxPath.initPromise s = Some id
       ∧ TmuxPath.promises s !! id = Some TmuxPath.Pending
       ∧ TmuxPath.inflight s = [(TmuxPath.Verify path, id)]
       ∧ tmuxPath (TmuxPath.world s) = None
       ∧ spawned (TmuxPath.world s) = spawned w ++ [lookup_child pl; probe_child path]
       ∧ proposed_path pl w = Some path)
  ∨ (∃ id,
       TmuxPath.initPromise s = Some id
       ∧ TmuxPath.promises s !! id = Some (TmuxPath.Resolved (verified_path pl w))
       ∧ TmuxPath.inflight s = []
       ∧ tmuxPath (TmuxPath.world s) = verified_path pl w
       ∧ (spawned (TmuxPath.world s) = spawned w ++ [lookup_child pl]
          ∨ ∃ path, spawned (TmuxPath.world s)
                    = spawned w ++ [lookup_child pl; probe_child path])).

Definition resolver_invariant (pl : string) (w : World) (s : TmuxPath.Resolver) : Prop :=
  TmuxPath.platform s = pl
  ∧ child (TmuxPath.world s) = child w
  ∧ Forall (λ p, p = TmuxPath.Pending
                 ∨ p = TmuxPath.Resolved (verified_path pl w))
           (TmuxPath.promises s)
  ∧ resolver_phase pl w s.

(** A world in which [which tmux] prints a path whose probe succeeds. *)
Definition world_with_tmux : World :=
  mkWorld "/home/agent" (λ n, 1700000000000 + Z.of_nat n) 0 ∅ ∅ (λ _, None) ∅ None None
          (λ cmd _, if String.eqb cmd "which"
                    then Exited (Some 0) ("/usr/bin/tmux" +:+ chr LF) EmptyString false
                    else Exited (Some 0) "tmux 3.4" EmptyString false) [].

(** *** The output cap *)

(** The mark left where output was cut, with the count it reports. *)
Definition omission_mark (omitted : Z) : list N :=
  ShellExecute.units (chr LF +:+ "[... ") ++ ShellExecute.units (of_Z omitted)
  ++ ShellExecute.units (" characters omitted ...]" +:+ chr LF).

(** * Properties *)

(** ** Strings *)

Lemma append_nil_l (s : string) : EmptyString +:+ s = s.
Proof. reflexivity. Qed.

Lemma append_cons (c : ascii) (s t : string) : String c s +:+ t = String c (s +:+ t).
Proof. reflexivity. Qed.

Lemma append_nil_r (s : string) : s +:+ EmptyString = s.
Proof.
  induction s as [|c s IH]; [reflexivity |].
  rewrite append_cons. f_equal. exact IH.
Qed.

Lemma append_assoc (a b c : string) : (a +:+ b) +:+ c = a +:+ (b +:+ c).
Proof.
  induction a as [|x a IH]; [reflexivity |].
  rewrite !append_cons. f_equal. exact IH.
Qed.

Lemma append_chr (s : string) (c : ascii) (t : string) :
  (s +:+ chr c) +:+ t = s +:+ String c t.
Proof. rewrite append_assoc. reflexivity. Qed.

Lemma chr_append (c : ascii) (s : string) : chr c +:+ s = String c s.
Proof. reflexivity. Qed.

Lemma chr_eqb (c q : ascii) : String.eqb (chr c) (chr q) = Ascii.eqb c q.
Proof. unfold chr. simpl. destruct (Ascii.eqb c q); reflexivity. Qed.

(** ** The JSON text of a serialized state *)
Section Json.
Import JSON.

Lemma length_append (a b : string) :
  String.length (a +:+ b) = (String.length a + String.length b)%nat.
Proof.
  induction a as [|c a IH]; [reflexivity |].
  rewrite append_cons. simpl. rewrite IH. reflexivity.
Qed.

Lemma stringify_array (indent : nat) (x : value) (xs : list value) :
  stringify_at indent (Array (x :: xs))
  = "[" +:+ chr LF +:+ spaces (S (S indent)) +:+ stringify_at (S (S indent)) x
    +:+ items_text (S (S indent)) xs +:+ chr LF +:+ spaces indent +:+ "]".
Proof.
  cbn [stringify_at]. do 5 f_equal.
  induction xs as [|y ys IH]; [reflexivity |].
  cbn [items_text]. rewrite <- IH. reflexivity.
Qed.

Lemma stringify_object (indent : nat) (k : string) (x : value)
    (ms : list (string * value)) :
  stringify_at indent (Object ((k, x) :: ms))
  = "{" +:+ chr LF +:+ spaces (S (S indent)) +:+ quote k +:+ ": "
    +:+ stringify_at (S (S indent)) x
    +:+ members_text (S (S indent)) ms +:+ chr LF +:+ spaces indent +:+ "}".
Proof.
  cbn [stringify_at]. do 7 f_equal.
  induction ms as [|[k' y] ms IH]; [reflexivity |].
  cbn [members_text]. rewrite <- IH. reflexivity.
Qed.

Lemma skip_ws_spaces (n : nat) (s : string) :
  skip_ws (spaces n +:+ s) = skip_ws s.
Proof. induction n as [|n IH]; [reflexivity | exact IH]. Qed.

Lemma skip_ws_line (n : nat) (s : string) :
  skip_ws (chr LF +:+ spaces n +:+ s) = skip_ws s.
Proof. rewrite chr_append. simpl. apply skip_ws_spaces. Qed.

(** A string literal reads back as the string. *)
Lemma parse_chars_escape_char (c : ascii) (tail t r : string) :
  parse_chars tail = Some (t, r) →
  parse_chars (escape_char c +:+ tail) = Some (String c t, r).
Proof.
  intros H.
  destruct c as [[] [] [] [] [] [] [] []];
    match goal with
    | |- context [escape_char ?a] =>
        let e := eval vm_compute in (escape_char a) in
        change (escape_char a) with e
    end;
    rewrite ?append_cons, ?append_nil_l; simpl; rewrite H; reflexivity.
Qed.

Lemma parse_chars_escape (s rest : string) :
  parse_chars (escape s +:+ String DQUOTE rest) = Some (s, rest).
Proof.
  induction s as [|c s IH].
  - reflexivity.
  - cbn [escape]. rewrite append_assoc. apply parse_chars_escape_char, IH.
Qed.

Lemma parse_chars_quote (s rest : string) :
  parse_chars (escape s +:+ chr DQUOTE +:+ rest) = Some (s, rest).
Proof. rewrite chr_append. apply parse_chars_escape. Qed.

(** An integer reads back as the integer. *)
Lemma uint_num_chars (d : Decimal.uint) :
  all_chars is_num_char (NilEmpty.string_of_uint d) = true.
Proof. induction d; simpl; try rewrite IHd; reflexivity. Qed.

Lemma of_Z_num_chars (z : Z) : all_chars is_num_char (of_Z z) = true.
Proof.
  unfold of_Z, NilZero.string_of_int, NilZero.string_of_uint.
  destruct (Z.to_int z) as [d|d]; destruct d; simpl;
    try rewrite uint_num_chars; reflexivity.
Qed.

Lemma of_Z_nonempty (z : Z) : ∃ c t, of_Z z = String c t.
Proof.
  unfold of_Z, NilZero.string_of_int, NilZero.string_of_uint.
  destruct (Z.to_int z) as [d|d]; destruct d; simpl; eauto.
Qed.

Lemma span_num_app (t rest : string) :
  all_chars is_num_char t = true →
  match rest with String c _ => is_num_char c = false | EmptyString => True end →
  span_num (t +:+ rest) = (t, rest).
Proof.
  intros Ht Hrest. induction t as [|c t IH].
  - rewrite append_nil_l. destruct rest as [|c rest]; [reflexivity |].
    simpl. rewrite Hrest. reflexivity.
  - simpl in Ht. apply andb_true_iff in Ht as [Hc Ht].
    rewrite append_cons. simpl. rewrite Hc, (IH Ht). reflexivity.
Qed.

Lemma int_of_string_of_Z (z : Z) :
  NilZero.int_of_string (of_Z z) = Some (Z.to_int z).
Proof.
  unfold of_Z. apply NilZero.isi.
  - destruct z as [|p|p]; simpl; try discriminate.
    intros [= H]. apply (DecimalPos.Unsigned.to_uint_nonnil p H).
  - destruct z as [|p|p]; simpl; try discriminate.
    intros [= H]. apply (DecimalPos.Unsigned.to_uint_nonnil p H).
Qed.

Lemma parse_number_of_Z (z : Z) (rest : string) :
  match rest with String c _ => is_num_char c = false | EmptyString => True end →
  continues_number rest = false →
  parse_number (of_Z z +:+ rest) = Some (z, rest).
Proof.
  intros Hrest Hcont. unfold parse_number.
  rewrite span_num_app by (apply of_Z_num_chars || assumption).
  rewrite int_of_string_of_Z, DecimalZ.of_to, String.eqb_refl, Hcont.
  reflexivity.
Qed.

(** What [parse_value] does at the first character of a value. *)
Lemma parse_value_at_quote (fuel : nat) (rest : string) :
  parse_value (S fuel) (String DQUOTE rest)
  = match parse_chars rest with
    | Some (t, r) => Some (Str t, r)
    | None => None
    end.
Proof. reflexivity. Qed.

Lemma parse_value_at_num (fuel : nat) (c : ascii) (rest : string) :
  is_num_char c = true →
  parse_value (S fuel) (String c rest)
  = match parse_number (String c rest) with
    | Some (z, r) => Some (Number z, r)
    | None => None
    end.
Proof.
  destruct c as [[] [] [] [] [] [] [] []]; intros H;
    (discriminate H || reflexivity).
Qed.

Lemma parse_value_string (fuel : nat) (s rest : string) :
  parse_value (S fuel) (quote s +:+ rest) = Some (Str s, rest).
Proof.
  unfold quote. rewrite append_cons, append_assoc, parse_value_at_quote.
  rewrite parse_chars_quote. reflexivity.
Qed.

Lemma parse_value_number (fuel : nat) (z : Z) (rest : string) :
  match rest with String c _ => is_num_char c = false | EmptyString => True end →
  continues_number rest = false →
  parse_value (S fuel) (of_Z z +:+ rest) = Some (Number z, rest).
Proof.
  intros Hrest Hcont.
  pose proof (parse_number_of_Z z rest Hrest Hcont) as Hnum.
  pose proof (of_Z_num_chars z) as Hall.
  destruct (of_Z_nonempty z) as (c & t & E). rewrite E in *.
  simpl in Hall. apply andb_true_iff in Hall as [Hc _].
  rewrite append_cons in *.
  rewrite parse_value_at_num, Hnum by exact Hc. reflexivity.
Qed.

Lemma parse_value_line (fuel n : nat) (s : string) :
  parse_value fuel (chr LF +:+ spaces n +:+ s) = parse_value fuel s.
Proof.
  destruct fuel as [|fuel]; [reflexivity |].
  cbn [parse_value]. rewrite skip_ws_line. reflexivity.
Qed.

Lemma parse_value_space (fuel : nat) (s : string) :
  parse_value fuel (String SPACE s) = parse_value fuel s.
Proof. destruct fuel as [|fuel]; reflexivity. Qed.

(** One step of the descent, from the results of its parts. *)
Lemma parse_elements_more (fuel : nat) (s r' r'' : string) (x : value)
    (xs : list value) :
  parse_value fuel s = Some (x, String "," r') →
  parse_elements fuel r' = Some (xs, r'') →
  parse_elements (S fuel) s = Some (x :: xs, r'').
Proof.
  intros Hv Hrest. cbn [parse_elements]. rewrite Hv.
  change (skip_ws (String "," r')) with (String "," r').
  change (Ascii.eqb "," ",") with true. cbv iota.
  rewrite Hrest. reflexivity.
Qed.

Lemma parse_elements_last (fuel : nat) (s r r' : string) (x : value) :
  parse_value fuel s = Some (x, r) →
  skip_ws r = String "]" r' →
  parse_elements (S fuel) s = Some ([x], r').
Proof.
  intros Hv Hr. cbn [parse_elements]. rewrite Hv, Hr. reflexivity.
Qed.

Lemma parse_value_array_of (fuel : nat) (rest r0 r : string) (xs : list value) :
  skip_ws rest = String DQUOTE r0 →
  parse_elements fuel rest = Some (xs, r) →
  parse_value (S fuel) (String "[" rest) = Some (Array xs, r).
Proof.
  intros Hws He.
  change (parse_value (S fuel) (String "[" rest))
    with (match skip_ws rest with
          | String "]" r => Some (Array [], r)
          | _ => match parse_elements fuel rest with
                 | Some (xs, r) => Some (Array xs, r)
                 | None => None
                 end
          end).
  rewrite Hws, He. reflexivity.
Qed.

Lemma parse_members_more (fuel : nat) (s r r1 r2 r3 r4 r5 k : string) (x : value)
    (ms : list (string * value)) :
  skip_ws s = String DQUOTE r →
  parse_chars r = Some (k, r1) →
  skip_ws r1 = String ":" r2 →
  parse_value fuel r2 = Some (x, r3) →
  skip_ws r3 = String "," r4 →
  parse_members fuel r4 = Some (ms, r5) →
  parse_members (S fuel) s = Some ((k, x) :: ms, r5).
Proof.
  intros H1 H2 H3 H4 H5 H6. cbn [parse_members].
  rewrite H1. change (Ascii.eqb DQUOTE DQUOTE) with true. cbv iota.
  rewrite H2, H3, H4, H5.
  change (Ascii.eqb "," ",") with true. cbv iota.
  rewrite H6. reflexivity.
Qed.

Lemma parse_members_last (fuel : nat) (s r r1 r2 r3 r4 k : string) (x : value) :
  skip_ws s = String DQUOTE r →
  parse_chars r = Some (k, r1) →
  skip_ws r1 = String ":" r2 →
  parse_value fuel r2 = Some (x, r3) →
  skip_ws r3 = String "}" r4 →
  parse_members (S fuel) s = Some ([(k, x)], r4).
Proof.
  intros H1 H2 H3 H4 H5. cbn [parse_members].
  rewrite H1. change (Ascii.eqb DQUOTE DQUOTE) with true. cbv iota.
  rewrite H2, H3, H4, H5. reflexivity.
Qed.

Lemma parse_value_object_of (fuel : nat) (rest r0 r : string)
    (ms : list (string * value)) :
  skip_ws rest = String DQUOTE r0 →
  parse_members fuel rest = Some (ms, r) →
  parse_value (S fuel) (String "{" rest) = Some (Object ms, r).
Proof.
  intros Hws Hm.
  change (parse_value (S fuel) (String "{" rest))
    with (match skip_ws rest with
          | String "}" r => Some (Object [], r)
          | _ => match parse_members fuel rest with
                 | Some (ms, r) => Some (Object ms, r)
                 | None => None
                 end
          end).
  rewrite Hws, Hm. reflexivity.
Qed.

Lemma skip_ws_quote (indent : nat) (s rest : string) :
  skip_ws (chr LF +:+ spaces indent +:+ quote s +:+ rest)
  = String DQUOTE (escape s +:+ chr DQUOTE +:+ rest).
Proof.
  rewrite skip_ws_line. unfold quote. rewrite append_cons, append_assoc.
  reflexivity.
Qed.

(** The items of an array of strings, from the line of the first one. *)
Lemma parse_elements_strings (xs : list string) :
  ∀ (x : string) (fuel indent : nat) (rest : string),
    (2 + length xs ≤ fuel)%nat →
    parse_elements fuel
      (chr LF +:+ spaces (S (S indent)) +:+ quote x
       +:+ items_text (S (S indent)) (map Str xs)
       +:+ chr LF +:+ spaces indent +:+ "]" +:+ rest)
    = Some (map Str (x :: xs), rest).
Proof.
  induction xs as [|y ys IH]; intros x fuel indent rest Hfuel.
  - destruct fuel as [|[|fuel]]; [simpl in Hfuel; lia .. |].
    cbn [map items_text]. rewrite append_nil_l.
    eapply parse_elements_last.
    + rewrite parse_value_line. apply parse_value_string.
    + rewrite skip_ws_line. reflexivity.
  - destruct fuel as [|[|fuel]]; [simpl in Hfuel; lia .. |].
    cbn [map items_text]. rewrite ?append_assoc.
    eapply parse_elements_more.
    + rewrite parse_value_line. apply parse_value_string.
    + change (stringify_at (S (S indent)) (Str y)) with (quote y).
      apply IH. simpl in Hfuel |- *. lia.
Qed.

Lemma strings_of_Str (xs : list string) : strings_of (map Str xs) = Some xs.
Proof. induction xs as [|x xs IH]; simpl; [| rewrite IH]; reflexivity. Qed.

Lemma parse_value_array (names : list string) (fuel indent : nat) (rest : string) :
  (3 + length names ≤ fuel)%nat →
  parse_value fuel (stringify_at indent (Array (map Str names)) +:+ rest)
  = Some (Array (map Str names), rest).
Proof.
  intros Hfuel. destruct fuel as [|fuel]; [lia |].
  destruct names as [|x xs].
  - reflexivity.
  - cbn [map]. rewrite stringify_array. rewrite ?append_assoc.
    change (stringify_at (S (S indent)) (Str x)) with (quote x).
    eapply parse_value_array_of.
    + apply skip_ws_quote.
    + apply (parse_elements_strings xs x fuel indent rest).
      simpl in Hfuel. lia.
Qed.

(** The text of a serialized state parses to the value it was made from. *)
Lemma parse_value_serialized (d : SerializedShellInteractSessionState) (fuel : nat) :
  (7 + length (ser_tmuxSessions d) ≤ fuel)%nat →
  parse_value fuel (stringify (serialized_value d))
  = Some (serialized_value d, EmptyString).
Proof.
  intros Hfuel. destruct fuel as [|[|[|[|[|fuel]]]]]; [lia .. |].
  unfold stringify, serialized_value. rewrite stringify_object.
  cbn [members_text]. rewrite ?append_assoc, ?append_nil_l.
  eapply parse_value_object_of; [apply skip_ws_quote |].
  eapply parse_members_more.
  - apply skip_ws_quote.
  - apply parse_chars_quote.
  - reflexivity.
  - rewrite parse_value_space. apply parse_value_string.
  - reflexivity.
  - eapply parse_members_more.
    + apply skip_ws_quote.
    + apply parse_chars_quote.
    + reflexivity.
    + rewrite parse_value_space. apply parse_value_array. lia.
    + reflexivity.
    + eapply parse_members_last.
      * apply skip_ws_quote.
      * apply parse_chars_quote.
      * reflexivity.
      * rewrite parse_value_space. apply parse_value_number; reflexivity.
      * reflexivity.
Qed.

Lemma length_stringify_serialized (d : SerializedShellInteractSessionState) :
  (6 + length (ser_tmuxSessions d) ≤ String.length (stringify (serialized_value d)))%nat.
Proof.
  unfold stringify, serialized_value. rewrite stringify_object.
  cbn [members_text]. rewrite !length_append.
  assert (H : ∀ (l : list string) n,
             (length l ≤ String.length (stringify_at n (Array (map Str l))) + 1)%nat).
  { intros l n. destruct l as [|x xs]; [simpl; lia |].
    cbn [map]. rewrite stringify_array, !length_append.
    assert (Hi : (length xs ≤ String.length (items_text (S (S n)) (map Str xs)))%nat).
    { induction xs as [|y ys IH]; [simpl; lia |].
      cbn [map items_text]. rewrite !length_append. simpl length.
      simpl String.length at 1. lia. }
    simpl length. simpl String.length at 1. lia. }
  specialize (H (ser_tmuxSessions d) 2%nat).
  revert H.
  generalize (String.length (stringify_at 2 (Array (map Str (ser_tmuxSessions d))))).
  generalize (String.length (stringify_at 2 (Str (ser_sessionID d)))).
  generalize (String.length (stringify_at 2 (Number (ser_updatedAt d)))).
  intros a b c H. simpl. lia.
Qed.

(** [JSON.parse(JSON.stringify(serialized))] is [serialized]. *)
Lemma json_round_trip (d : SerializedShellInteractSessionState) :
  parse (stringify (serialized_value d)) = Some (serialized_value d)
  ∧ typed_serialized (serialized_value d) = Some d.
Proof.
  split.
  - unfold parse. rewrite parse_value_serialized; [reflexivity |].
    pose proof (length_stringify_serialized d). lia.
  - destruct d as [id names at_]. unfold serialized_value, typed_serialized.
    simpl. rewrite strings_of_Str. reflexivity.
Qed.

End Json.

(** ** Tokenizer *)
Section Tokenizer.

(** Outside quotes, nothing pending but [cur]. *)
Local Notation "'neutral' toks cur" := (mkTok toks cur false EmptyString false)
  (at level 10, toks at level 9, cur at level 9, only parsing).
(** Inside a group opened by [q]. *)
Local Notation "'within' q toks cur" := (mkTok toks cur true (chr q) false)
  (at level 10, q at level 9, toks at level 9, cur at level 9, only parsing).

Lemma tok_loop_app (st : TokState) (a b : string) :
  tok_loop st (a +:+ b) = tok_loop (tok_loop st a) b.
Proof.
  revert st. induction a as [|c a IH]; intros st; [reflexivity |].
  rewrite append_cons. simpl. apply IH.
Qed.

(** A backslash and the next character: the character is kept, the
    backslash is not, whatever the character and the quoting are. *)
Lemma tok_escape (toks : list string) (cur : string) (iq : bool) (qc : string)
    (c : ascii) (rest : string) :
  tok_loop (mkTok toks cur iq qc false) (String BACKSLASH (String c rest))
  = tok_loop (mkTok toks (cur +:+ chr c) iq qc false) rest.
Proof. reflexivity. Qed.

Lemma is_quote_cases (q : ascii) :
  is_quote q = true → q = SQUOTE ∨ q = DQUOTE.
Proof.
  unfold is_quote. intros H. apply orb_true_iff in H.
  destruct H as [H|H]; apply Ascii.eqb_eq in H; auto.
Qed.

Lemma tok_plain_within (q c : ascii) (toks : list string) (cur rest : string) :
  is_quote q = true → inside_ok q (Plain c) = true →
  tok_loop (within q toks cur) (String c rest)
  = tok_loop (within q toks (cur +:+ chr c)) rest.
Proof.
  intros Hq Hc. simpl in Hc. apply andb_true_iff in Hc as [Hb Hn].
  apply negb_true_iff in Hb, Hn.
  simpl. unfold tok_step. simpl.
  rewrite Hb, Hn, !andb_false_r. reflexivity.
Qed.

Lemma tok_atoms_within (q : ascii) (body : list atom) :
  is_quote q = true → forallb (inside_ok q) body = true →
  ∀ toks cur rest,
    tok_loop (within q toks cur) (atoms_text body +:+ rest)
    = tok_loop (within q toks (cur +:+ atoms_value body)) rest.
Proof.
  intros Hq. induction body as [|a body IH]; intros Hok toks cur rest.
  - simpl. rewrite append_nil_r. reflexivity.
  - simpl in Hok. apply andb_true_iff in Hok as [Ha Hrest].
    cbn [atoms_text atoms_value]. rewrite append_assoc.
    destruct a as [c|c]; cbn [atom_text atom_value].
    + rewrite chr_append.
      rewrite (tok_plain_within q c) by assumption.
      rewrite IH by assumption. rewrite append_chr. reflexivity.
    + rewrite append_cons, chr_append.
      rewrite tok_escape. rewrite IH by assumption.
      rewrite append_chr. reflexivity.
Qed.

(** A quote that matches the opening one closes the group. *)
Lemma tok_close (q : ascii) (toks : list string) (cur rest : string) :
  is_quote q = true →
  tok_loop (within q toks cur) (String q rest) = tok_loop (neutral toks cur) rest.
Proof.
  intros Hq. destruct (is_quote_cases q Hq) as [-> | ->]; reflexivity.
Qed.

Lemma tok_open (q : ascii) (toks : list string) (cur rest : string) :
  is_quote q = true →
  tok_loop (neutral toks cur) (String q rest) = tok_loop (within q toks cur) rest.
Proof.
  intros Hq. destruct (is_quote_cases q Hq) as [-> | ->]; reflexivity.
Qed.

Lemma tok_plain_bare (c : ascii) (toks : list string) (cur rest : string) :
  bare_ok (Plain c) = true →
  tok_loop (neutral toks cur) (String c rest)
  = tok_loop (neutral toks (cur +:+ chr c)) rest.
Proof.
  intros Hc. simpl in Hc.
  apply andb_true_iff in Hc as [Hc Hs]. apply andb_true_iff in Hc as [Hb Hq].
  apply negb_true_iff in Hb, Hq, Hs. unfold is_quote in Hq.
  simpl. unfold tok_step. simpl.
  rewrite Hb, Hq, Hs. simpl.
  replace (String.eqb (chr c) EmptyString) with false by reflexivity.
  reflexivity.
Qed.

Lemma tok_piece (p : piece) :
  piece_ok p = true →
  ∀ toks cur rest,
    tok_loop (neutral toks cur) (piece_text p +:+ rest)
    = tok_loop (neutral toks (cur +:+ piece_value p)) rest.
Proof.
  intros Hok toks cur rest.
  destruct p as [[c|c] | q body]; cbn [piece_text piece_value atom_text atom_value].
  - rewrite chr_append. apply tok_plain_bare. exact Hok.
  - rewrite append_cons, chr_append. apply tok_escape.
  - simpl in Hok. apply andb_true_iff in Hok as [Hq Hbody].
    rewrite append_cons, append_assoc.
    rewrite tok_open by assumption.
    rewrite tok_atoms_within by assumption.
    rewrite chr_append. apply tok_close. exact Hq.
Qed.

Lemma tok_word (w : list piece) :
  word_ok w = true →
  ∀ toks cur rest,
    tok_loop (neutral toks cur) (word_text w +:+ rest)
    = tok_loop (neutral toks (cur +:+ word_value w)) rest.
Proof.
  induction w as [|p w IH]; intros Hok toks cur rest.
  - simpl. rewrite append_nil_r. reflexivity.
  - unfold word_ok in Hok. simpl in Hok. apply andb_true_iff in Hok as [Hp Hw].
    cbn [word_text word_value].
    rewrite append_assoc, tok_piece by assumption.
    rewrite IH by assumption. rewrite append_assoc. reflexivity.
Qed.

(** A run of unquoted spaces ends the pending token, if there is one. *)
Lemma tok_spaces (n : nat) (toks : list string) (cur rest : string) :
  tok_loop (neutral toks cur) (spaces (S n) +:+ rest)
  = tok_loop (neutral (toks ++ filter (λ v, truthy v = true) [cur]) EmptyString) rest.
Proof.
  revert toks cur. induction n as [|n IH]; intros toks cur.
  - destruct cur; simpl; [rewrite app_nil_r |]; reflexivity.
  - change (spaces (S (S n))) with (String SPACE (spaces (S n))).
    rewrite append_cons.
    change (tok_loop (neutral toks cur) (String SPACE (spaces (S n) +:+ rest)))
      with (tok_loop (tok_step (neutral toks cur) SPACE) (spaces (S n) +:+ rest)).
    destruct cur as [|c cur].
    + change (tok_step (neutral toks EmptyString) SPACE) with (neutral toks EmptyString).
      rewrite IH. simpl. rewrite !app_nil_r. reflexivity.
    + change (tok_step (neutral toks (String c cur)) SPACE)
        with (neutral (toks ++ [String c cur]) EmptyString).
      rewrite IH. simpl. rewrite !app_nil_r. reflexivity.
Qed.

Lemma tok_init_text (l : list (list piece * nat)) :
  forallb (λ e, word_ok e.1) l = true →
  ∀ toks rest,
    tok_loop (neutral toks EmptyString) (init_text l +:+ rest)
    = tok_loop
        (neutral (toks ++ filter (λ v, truthy v = true) (map (λ e, word_value e.1) l))
                 EmptyString) rest.
Proof.
  induction l as [|[w n] l IH]; intros Hok toks rest.
  - simpl. rewrite app_nil_r. reflexivity.
  - simpl in Hok. apply andb_true_iff in Hok as [Hw Hl].
    cbn [init_text]. rewrite !append_assoc.
    rewrite tok_word by assumption. rewrite append_nil_l.
    rewrite tok_spaces, IH by assumption.
    rewrite <- app_assoc. f_equal. f_equal.
    simpl map. rewrite (filter_cons _ (word_value w)).
    destruct (word_value w); reflexivity.
Qed.

(** What is pending when the loop ends is the last token, if it is not
    empty; an open quote or a pending escape is no error. *)
Lemma tok_finish_pending (toks : list string) (cur : string) (iq : bool) (qc : string)
    (esc : bool) :
  tok_finish (mkTok toks cur iq qc esc)
  = toks ++ filter (λ v, truthy v = true) [cur].
Proof.
  unfold tok_finish. simpl. destruct cur; simpl; [rewrite app_nil_r |]; reflexivity.
Qed.

Lemma tok_dangling (d : bool) (toks : list string) (cur : string) (iq : bool) (qc : string) :
  tok_finish (tok_loop (mkTok toks cur iq qc false) (dangling_text d))
  = toks ++ filter (λ v, truthy v = true) [cur].
Proof.
  destruct d; simpl; unfold tok_step; simpl; apply tok_finish_pending.
Qed.

(** The end of a command: the last word, then possibly a group that is
    never closed, then possibly a backslash. *)
Lemma tok_ending (w : list piece) (o : option (ascii * list atom)) (d : bool)
    (toks : list string) :
  word_ok w = true → unclosed_ok o = true →
  tok_finish (tok_loop (neutral toks EmptyString)
                       (word_text w +:+ unclosed_text o +:+ dangling_text d))
  = toks ++ filter (λ v, truthy v = true) [word_value w +:+ unclosed_value o].
Proof.
  intros Hw Ho. rewrite tok_word by assumption. rewrite append_nil_l.
  destruct o as [[q body]|]; cbn [unclosed_text unclosed_value].
  - simpl in Ho. apply andb_true_iff in Ho as [Hq Hbody].
    rewrite append_cons, tok_open by assumption.
    rewrite tok_atoms_within by assumption. apply tok_dangling.
  - rewrite append_nil_l, append_nil_r. apply tok_dangling.
Qed.

Lemma tokenize_shape (sh : shape) :
  shape_ok sh = true → tokenizeCommand (shape_text sh) = shape_tokens sh.
Proof.
  intros Hok. unfold shape_ok in Hok.
  apply andb_true_iff in Hok as [Hok Ho]. apply andb_true_iff in Hok as [Hi Hf].
  unfold tokenizeCommand, shape_text, shape_tokens, tok_init.
  rewrite tok_init_text by assumption.
  rewrite tok_ending by assumption.
  rewrite filter_app. reflexivity.
Qed.

(** Every string has a reading. *)
Lemma atoms_text_app (l1 l2 : list atom) :
  atoms_text (l1 ++ l2) = atoms_text l1 +:+ atoms_text l2.
Proof.
  induction l1 as [|a l1 IH]; [reflexivity |].
  simpl. rewrite IH, append_assoc. reflexivity.
Qed.

Lemma word_text_app (w1 w2 : list piece) :
  word_text (w1 ++ w2) = word_text w1 +:+ word_text w2.
Proof.
  induction w1 as [|p w1 IH]; [reflexivity |].
  simpl. rewrite IH, append_assoc. reflexivity.
Qed.

Lemma init_text_app (l1 l2 : list (list piece * nat)) :
  init_text (l1 ++ l2) = init_text l1 +:+ init_text l2.
Proof.
  induction l1 as [|[w n] l1 IH]; [reflexivity |].
  simpl app. cbn [init_text]. rewrite IH, !append_assoc. reflexivity.
Qed.

Lemma read_step_text (sh : shape) (c : ascii) :
  shape_text (read_step sh c) = shape_text sh +:+ chr c.
Proof.
  destruct sh as [i f o d]. unfold read_step, shape_text. simpl.
  destruct d.
  - destruct o as [[q body]|]; simpl.
    + rewrite atoms_text_app. simpl.
      rewrite !append_nil_r, !append_assoc. reflexivity.
    + rewrite word_text_app. simpl.
      rewrite !append_nil_r, !append_assoc. reflexivity.
  - destruct (Ascii.eqb_spec c BACKSLASH) as [-> | Hb]; simpl.
    + rewrite !append_nil_r, !append_assoc. reflexivity.
    + destruct o as [[q body]|]; simpl.
      * destruct (Ascii.eqb_spec c q) as [-> | Hq]; simpl.
        -- rewrite word_text_app. simpl.
           rewrite !append_nil_r, !append_assoc. reflexivity.
        -- rewrite atoms_text_app. simpl.
           rewrite !append_nil_r, !append_assoc. reflexivity.
      * destruct (is_quote c); simpl.
        -- rewrite !append_nil_r, !append_assoc. reflexivity.
        -- destruct (Ascii.eqb_spec c SPACE) as [-> | Hs]; simpl.
           ++ rewrite init_text_app. cbn [init_text spaces].
              rewrite !append_nil_r, !append_assoc. reflexivity.
           ++ rewrite word_text_app. simpl.
              rewrite !append_nil_r, !append_assoc. reflexivity.
Qed.

Lemma read_step_ok (sh : shape) (c : ascii) :
  shape_ok sh = true → shape_ok (read_step sh c) = true.
Proof.
  destruct sh as [i f o d]. unfold read_step, shape_ok, word_ok. simpl.
  intros Hok. apply andb_true_iff in Hok as [Hok Ho].
  apply andb_true_iff in Hok as [Hi Hf].
  destruct d.
  - destruct o as [[q body]|]; simpl in *.
    + apply andb_true_iff in Ho as [Hq Hbody].
      rewrite Hi, Hf, Hq, forallb_app, Hbody. reflexivity.
    + rewrite Hi, forallb_app, Hf. reflexivity.
  - destruct (Ascii.eqb c BACKSLASH) eqn:Hb; simpl.
    + rewrite Hi, Hf, Ho. reflexivity.
    + destruct o as [[q body]|]; simpl in *.
      * apply andb_true_iff in Ho as [Hq Hbody].
        destruct (Ascii.eqb c q) eqn:Ecq; simpl.
        -- rewrite Hi, forallb_app, Hf. simpl. rewrite Hq, Hbody. reflexivity.
        -- rewrite Hi, Hf, Hq, forallb_app, Hbody. simpl.
           rewrite Hb, Ecq. reflexivity.
      * destruct (is_quote c) eqn:Eq; simpl.
        -- rewrite Hi, Hf, Eq. reflexivity.
        -- destruct (Ascii.eqb c SPACE) eqn:Es; simpl.
           ++ rewrite forallb_app, Hi. simpl. unfold word_ok. rewrite Hf. reflexivity.
           ++ rewrite Hi, forallb_app, Hf. simpl. rewrite Hb, Eq, Es. reflexivity.
Qed.

Lemma read_loop_spec (s : string) (sh : shape) :
  shape_ok sh = true →
  shape_ok (read_loop sh s) = true
  ∧ shape_text (read_loop sh s) = shape_text sh +:+ s.
Proof.
  revert sh. induction s as [|c s IH]; intros sh Hok.
  - simpl. rewrite append_nil_r. auto.
  - simpl. destruct (IH (read_step sh c) (read_step_ok sh c Hok)) as [H1 H2].
    split; [exact H1 |]. rewrite H2, read_step_text, append_assoc. reflexivity.
Qed.

Lemma read_command_spec (s : string) :
  shape_ok (read_command s) = true ∧ shape_text (read_command s) = s.
Proof.
  unfold read_command.
  destruct (read_loop_spec s (mkShape [] [] None false) eq_refl) as [H1 H2].
  split; [exact H1 | exact H2].
Qed.

(** No token is empty. *)
Lemma tok_step_nonempty (st : TokState) (c : ascii) :
  Forall (λ t, truthy t = true) (tokens st) →
  Forall (λ t, truthy t = true) (tokens (tok_step st c)).
Proof.
  intros H. unfold tok_step.
  repeat match goal with
         | |- context [if ?b then _ else _] => destruct b eqn:?
         end; simpl; try assumption.
  apply Forall_app. split; [assumption | constructor; [assumption | constructor]].
Qed.

Lemma tokenize_nonempty (cmd : string) :
  Forall (λ t, truthy t = true) (tokenizeCommand cmd).
Proof.
  unfold tokenizeCommand.
  assert (H : ∀ st, Forall (λ t, truthy t = true) (tokens st) →
                    Forall (λ t, truthy t = true) (tokens (tok_loop st cmd))).
  { induction cmd as [|c cmd IH]; intros st Hst; simpl; [assumption |].
    apply IH, tok_step_nonempty, Hst. }
  specialize (H tok_init ltac:(constructor)).
  unfold tok_finish. destruct (truthy (current (tok_loop tok_init cmd))) eqn:E.
  - apply Forall_app. split; [assumption | constructor; [assumption | constructor]].
  - assumption.
Qed.

End Tokenizer.

(** C7, as stated, fails on white space other than the space character.
    The input is the three characters a, TAB, b: one white-space character
    between two plain words.  The claim makes them two tokens; the loop
    compares with the space character only and yields the single token
    a TAB b. *)
Lemma tokenizer_tab_is_no_separator : ¬ whitespace_separates.
Proof.
  intros H.
  specialize (H (ascii_of_nat 9) [Bare (Plain "a")] [Bare (Plain "b")] eq_refl eq_refl eq_refl).
  vm_compute in H. discriminate H.
Qed.

(** C7 (amended: the separator is the space character).  Every input
    string reads as a command: words separated by runs of one or more
    unquoted spaces, where a word is made of plain characters,
    backslash-escaped characters and groups in single or double quotes,
    possibly ending in a quote that is never closed.  For every such command
    the tokens are the values of the words, in order, empty ones left out: a
    group contributes its body with its spaces and without its quotes, an
    escaped character (a quote, a space, a backslash, anything) contributes
    itself without the backslash, and the quote that matches the opening one
    ends the group.  A quote that is never closed is no error: what follows
    it joins the token in progress and is the last token.  The command of the
    specification yields [echo hi] as one token and the escaped semicolon as
    the token [;]. *)
Theorem tokenizer_rules (sh : shape) (s : string) :
  shape_ok sh = true →
  tokenizeCommand (shape_text sh) = shape_tokens sh
  ∧ (shape_ok (read_command s) = true
     ∧ shape_text (read_command s) = s
     ∧ tokenizeCommand s = shape_tokens (read_command s))
  ∧ tokenizeCommand
      "new-session -d -s cea-a \; send-keys -t cea-a 'echo hi' Enter"
    = ["new-session"; "-d"; "-s"; "cea-a"; ";"; "send-keys"; "-t"; "cea-a";
       "echo hi"; "Enter"].
Proof.
  intros Hok. split; [apply tokenize_shape, Hok | split].
  - destruct (read_command_spec s) as [H1 H2].
    split; [exact H1 | split; [exact H2 |]].
    rewrite <- H2 at 1. apply tokenize_shape, H1.
  - vm_compute. reflexivity.
Qed.

(** The rules at a command with an escaped space, a run of two spaces, a
    group in single quotes, and a double quote that is never closed. *)
Lemma tokenizer_rules_witness :
  tokenizeCommand
    (shape_text
       (mkShape [([Bare (Plain "a"); Bare (Escape " "); Bare (Plain "b")], 1%nat);
                 ([Group SQUOTE [Plain "c"; Plain " "; Plain "d"]], 0%nat)]
                [Bare (Plain "e")] (Some (DQUOTE, [Plain "f"; Plain " "])) false))
  = ["a b"; "c d"; "ef "].
Proof.
  exact (proj1 (tokenizer_rules
                  (mkShape [([Bare (Plain "a"); Bare (Escape " "); Bare (Plain "b")], 1%nat);
                            ([Group SQUOTE [Plain "c"; Plain " "; Plain "d"]], 0%nat)]
                           [Bare (Plain "e")] (Some (DQUOTE, [Plain "f"; Plain " "])) false)
                  EmptyString eq_refl)).
Defined.

(** ** TTY input-wait detector *)
Section TtyDetector.
Import LinuxProc.

(** What [analyse] computes, in terms of the four signals it gathered. *)
Lemma analyse_signals (env : ProcEnv) (paneTty : string) (pid : Z) :
  let r := analyse env paneTty pid in
  let s := mkSignals
             (bool_decide (getProcessStdinFd env pid = Some paneTty))
             (checkWchanForTtyRead (getProcessWchan env pid))
             (checkStackForTtyRead (getProcessStack env pid))
             (checkSyscallForStdinRead (getProcessSyscall env pid)) in
  signals_of r = Some s
  ∧ (confidence r, detected r)
    = decide_wait (stdinMatch s) (wchanMatch s) (stackMatch s) (syscallMatch s)
                  (positives s).
Proof.
  unfold analyse.
  generalize (bool_decide (getProcessStdinFd env pid = Some paneTty)) as a.
  generalize (checkWchanForTtyRead (getProcessWchan env pid)) as b.
  generalize (checkStackForTtyRead (getProcessStack env pid)) as c.
  generalize (checkSyscallForStdinRead (getProcessSyscall env pid)) as d.
  intros d c b a. destruct a, b, c, d; split; reflexivity.
Qed.

(** The [if / else if] chain is the table read top down. *)
Lemma decide_wait_table (s : Signals) :
  decide_wait (stdinMatch s) (wchanMatch s) (stackMatch s) (syscallMatch s)
              (positives s)
  = first_match s.
Proof. destruct s as [[] [] [] []]; reflexivity. Qed.

Lemma detect_is_analyse (env : ProcEnv) (sessionId : string)
    (r : LinuxProcDetectionResult) :
  detectLinuxProcTtyWait env sessionId = Some r →
  ∃ paneTty pid, r = analyse env paneTty pid.
Proof.
  unfold detectLinuxProcTtyWait.
  destruct (negb (isLinuxPlatform env)); [discriminate |].
  destruct (sh env _) as [status stdout].
  destruct (_ || _); [discriminate |].
  destruct (getForegroundPid env (trim stdout)) as [pid|]; [| discriminate].
  destruct (pid =? 0); [discriminate |].
  intros [= <-]. eauto.
Qed.

Lemma first_match_monotone (s1 s2 : Signals) :
  at_least s1 s2 →
  (rank (first_match s1).1 ≤ rank (first_match s2).1)%nat
  ∧ ((first_match s1).2 = true → (first_match s2).2 = true).
Proof.
  destruct s1 as [a1 b1 c1 d1], s2 as [a2 b2 c2 d2].
  unfold at_least. simpl. intros (Ha & Hb & Hc & Hd).
  destruct a1; [rewrite (Ha eq_refl) | clear Ha];
  (destruct b1; [rewrite (Hb eq_refl) | clear Hb]);
  (destruct c1; [rewrite (Hc eq_refl) | clear Hc]);
  (destruct d1; [rewrite (Hd eq_refl) | clear Hd]);
  repeat match goal with b : bool |- _ => destruct b end;
  vm_compute; split; (lia || congruence || auto).
Qed.

End TtyDetector.


(** C9.  Confidence is monotonic in the signals: when a second detection has
    every positive signal of a first one, its confidence is at least as
    great (low < medium < high), and it is detected if the first one is.
    Stated of the table and of the results the detector computes. *)
Theorem tty_confidence_monotone
    (env1 env2 : LinuxProc.ProcEnv) (tty1 tty2 : string) (pid1 pid2 : Z)
    (s1 s2 : Signals) :
  signals_of (LinuxProc.analyse env1 tty1 pid1) = Some s1 →
  signals_of (LinuxProc.analyse env2 tty2 pid2) = Some s2 →
  at_least s1 s2 →
  (rank (first_match s1).1 ≤ rank (first_match s2).1)%nat
  ∧ ((first_match s1).2 = true → (first_match s2).2 = true)
  ∧ (rank (LinuxProc.confidence (LinuxProc.analyse env1 tty1 pid1))
     ≤ rank (LinuxProc.confidence (LinuxProc.analyse env2 tty2 pid2)))%nat
  ∧ (LinuxProc.detected (LinuxProc.analyse env1 tty1 pid1) = true
     → LinuxProc.detected (LinuxProc.analyse env2 tty2 pid2) = true).
Proof.
  intros H1 H2 Hle.
  destruct (analyse_signals env1 tty1 pid1) as [E1 V1].
  destruct (analyse_signals env2 tty2 pid2) as [E2 V2].
  rewrite E1 in H1. rewrite E2 in H2.
  injection H1 as H1. injection H2 as H2.
  rewrite H1 in V1. rewrite H2 in V2.
  rewrite decide_wait_table in V1, V2.
  destruct (first_match_monotone s1 s2 Hle) as [Hr Hd].
  apply (f_equal fst) in V1 as C1. apply (f_equal snd) in V1 as D1.
  apply (f_equal fst) in V2 as C2. apply (f_equal snd) in V2 as D2.
  simpl in C1, D1, C2, D2.
  rewrite C1, C2, D1, D2. auto.
Qed.

(** A process reading its terminal whose wait channel is a futex scores
    low; the same process blocked in [n_tty_read] scores high. *)
Lemma tty_confidence_monotone_witness :
  (rank (LinuxProc.confidence (LinuxProc.analyse (waiting_env "futex_wait_queue") "/dev/pts/7" 4242))
   ≤ rank (LinuxProc.confidence (LinuxProc.analyse (waiting_env "n_tty_read") "/dev/pts/7" 4242)))%nat.
Proof.
  refine (proj1 (proj2 (proj2
    (tty_confidence_monotone
       (waiting_env "futex_wait_queue") (waiting_env "n_tty_read")
       "/dev/pts/7" "/dev/pts/7" 4242 4242
       (mkSignals true false false false) (mkSignals true true false false)
       eq_refl eq_refl _)))).
  unfold at_least. simpl. repeat split; intros; (reflexivity || discriminate).
Defined.

(** ** Output stall detector *)
Section Stall.
Import StallDetector.

Lemma capturePane_spec (sessionId : string) (t : Terminal) :
  capturePane sessionId t
  = (shot_text (pane t (shots t) sessionId),
     mkTerminal (pane t) (S (shots t)) (log t ++ [Captured sessionId])).
Proof.
  unfold capturePane, shot_text.
  destruct (pane t (shots t) sessionId) as [status stdout]. simpl.
  destruct status as [[| |]|]; simpl; try reflexivity.
  unfold or_else. destruct stdout; reflexivity.
Qed.

Lemma sleep_is_pause : is_pause sleep.
Proof. intros ms t. split; reflexivity. Qed.

Lemma sleepSync_is_pause : is_pause sleepSync.
Proof. intros ms t. split; reflexivity. Qed.

Lemma sampled_S (t : Terminal) (sessionId : string) (n : nat) (t' : Terminal) :
  pane t' = pane t → shots t' = S (shots t) →
  sampled t sessionId (S n)
  = shot_text (pane t (shots t) sessionId) :: sampled t' sessionId n.
Proof.
  intros Hp Hs. unfold sampled. simpl. rewrite Nat.add_0_r. f_equal.
  rewrite <- seq_shift, map_map. apply map_ext. intros k.
  rewrite Hp, Hs. f_equal. f_equal. lia.
Qed.

Lemma sample_loop_samples (pause : Z → T unit) (sessionId : string)
    (sampleCount sampleIntervalMs : Z) :
  is_pause pause →
  ∀ (todo : nat) (i : Z) (samples : list string) (t : Terminal),
    (sample_loop pause sessionId sampleCount sampleIntervalMs todo i samples t).1
    = samples ++ sampled t sessionId todo.
Proof.
  intros Hpause. induction todo as [|todo IH]; intros i samples t.
  - simpl. rewrite app_nil_r. reflexivity.
  - cbn [sample_loop]. rewrite capturePane_spec.
    set (t1 := mkTerminal _ _ _).
    destruct (i <? sampleCount - 1).
    + destruct (pause sampleIntervalMs t1) as [u t2] eqn:E.
      destruct (Hpause sampleIntervalMs t1) as [Hp Hs]. rewrite E in Hp, Hs.
      simpl in Hp, Hs. rewrite IH.
      rewrite (sampled_S t sessionId todo t2) by assumption.
      rewrite <- app_assoc. reflexivity.
    + rewrite IH.
      rewrite (sampled_S t sessionId todo t1) by reflexivity.
      rewrite <- app_assoc. reflexivity.
Qed.

Lemma length_filter_shift (P Q : nat → Prop)
    `{∀ i, Decision (P i)} `{∀ i, Decision (Q i)} (l : list nat) :
  (∀ i, P (S i) ↔ Q i) →
  length (filter P (map S l)) = length (filter Q l).
Proof.
  intros HPQ. induction l as [|x l IH]; [reflexivity |].
  simpl map. rewrite !filter_cons.
  destruct (decide (P (S x))) as [p|p], (decide (Q x)) as [q|q]; simpl;
    try (rewrite IH; reflexivity).
  - exfalso. apply q, HPQ, p.
  - exfalso. apply p, HPQ, q.
Qed.

(** The counting loop counts the adjacent pairs of identical samples. *)
Lemma count_unchanged_pairs (samples : list string) :
  count_unchanged samples = Z.of_nat (adjacent_identical_pairs samples).
Proof.
  induction samples as [|a samples IH]; [reflexivity |].
  destruct samples as [|b l]; [reflexivity |].
  change (count_unchanged (a :: b :: l))
    with ((if String.eqb b a then 1 else 0) + count_unchanged (b :: l)).
  rewrite IH. clear IH.
  unfold adjacent_identical_pairs.
  change (length (a :: b :: l) - 1)%nat with (S (length l)).
  change (length (b :: l) - 1)%nat with (length l - 0)%nat.
  rewrite Nat.sub_0_r.
  change (seq 0 (S (length l))) with (0%nat :: seq 1 (length l)).
  rewrite <- seq_shift, filter_cons.
  assert (Hshift :
    length (filter (λ i, (a :: b :: l) !! i = (a :: b :: l) !! S i)
                   (map S (seq 0 (length l))))
    = length (filter (λ i, (b :: l) !! i = (b :: l) !! S i) (seq 0 (length l))))
    by (apply length_filter_shift; intros i; reflexivity).
  destruct (String.eqb_spec b a) as [-> | Hne].
  - rewrite decide_True by reflexivity. cbn [length]. rewrite Hshift. lia.
  - rewrite decide_False by (simpl; congruence). rewrite Hshift. lia.
Qed.

Lemma last_app_sampled (samples : list string) (x : string) :
  last samples = Some x → default EmptyString (last samples) = x.
Proof. intros ->. reflexivity. Qed.

(** What the shared tail of the two entry points computes from the
    samples, when as many samples were taken as were asked for. *)
Lemma classify_verdict (samples : list string) (sampleCount sampleIntervalMs : Z) :
  length samples = Z.to_nat sampleCount →
  stall_verdict samples (classify samples sampleCount sampleIntervalMs).
Proof.
  intros Hlen. unfold stall_verdict, classify. cbn [unchangedCount isStalled confidence lastOutput].
  rewrite count_unchanged_pairs.
  assert (Hpairs : (adjacent_identical_pairs samples ≤ length samples - 1)%nat).
  { unfold adjacent_identical_pairs.
    etransitivity; [apply length_filter |]. rewrite length_seq. reflexivity. }
  set (u := adjacent_identical_pairs samples) in *.
  split; [reflexivity |]. split; [| split].
  - rewrite Z.eqb_eq. destruct (Z.le_gt_cases 0 sampleCount); lia.
  - destruct (Z.le_gt_cases 0 sampleCount) as [Hpos | Hneg].
    + replace (Z.of_nat (length samples)) with sampleCount by lia. reflexivity.
    + assert (length samples = 0%nat) as Hz by lia.
      assert (u = 0%nat) as -> by lia. rewrite Hz.
      change (Z.of_nat 0) with 0.
      replace (0 =? sampleCount - 1) with false by (symmetry; apply Z.eqb_neq; lia).
      replace (sampleCount <=? 2 * 0) with true by (symmetry; apply Z.leb_le; lia).
      reflexivity.
  - intros x Hx. apply last_app_sampled, Hx.
Qed.

End Stall.

(** C3.  For the samples a detection takes, N of them: the unchanged count
    is the number of adjacent pairs of identical samples; the result is
    stalled exactly when that count is N - 1; the confidence is high if
    stalled and N >= 3, else medium if the count is at least N / 2 (as a
    fraction), else low; and the last output is the final sample.  This holds
    of the suspending and of the blocking entry point, for every sample
    count, interval and terminal.  Three captures A, A, A are stalled with
    high confidence; A, B, C are not stalled with count 0; A, A, B are not
    stalled with count 1. *)
Theorem stall_detector_verdict :
  (∀ (options : StallDetector.StallDetectorOptions) (t : StallDetector.Terminal),
     stall_verdict
       (sampled t (StallDetector.opt_sessionId options)
                (Z.to_nat (default 3 (StallDetector.opt_sampleCount options))))
       (StallDetector.detectOutputStall options t).1)
  ∧ (∀ (sessionId : string) (n i : option Z) (t : StallDetector.Terminal),
       stall_verdict
         (sampled t sessionId (Z.to_nat (default 2 n)))
         (StallDetector.detectOutputStallSync sessionId n i t).1)
  ∧ (∀ sessionId,
       let r := (suspending sessionId (Some 3) None (terminal_showing ["A"; "A"; "A"])).1 in
       StallDetector.isStalled r = true
       ∧ StallDetector.confidence r = StallDetector.high)
  ∧ (∀ sessionId,
       let r := (suspending sessionId (Some 3) None (terminal_showing ["A"; "B"; "C"])).1 in
       StallDetector.isStalled r = false ∧ StallDetector.unchangedCount r = 0)
  ∧ (∀ sessionId,
       let r := (suspending sessionId (Some 3) None (terminal_showing ["A"; "A"; "B"])).1 in
       StallDetector.isStalled r = false ∧ StallDetector.unchangedCount r = 1).
Proof.
  split; [| split; [| split; [| split]]].
  - intros options t. unfold StallDetector.detectOutputStall.
    destruct (StallDetector.sample_loop _ _ _ _ _ _ _ _) as [samples t'] eqn:E.
    apply (f_equal fst) in E. rewrite sample_loop_samples in E
      by apply sleep_is_pause.
    simpl in E. subst samples. simpl fst.
    apply classify_verdict. unfold sampled. rewrite length_map, length_seq.
    reflexivity.
  - intros sessionId n i t. unfold StallDetector.detectOutputStallSync.
    destruct (StallDetector.sample_loop _ _ _ _ _ _ _ _) as [samples t'] eqn:E.
    apply (f_equal fst) in E. rewrite sample_loop_samples in E
      by apply sleepSync_is_pause.
    simpl in E. subst samples. simpl fst.
    apply classify_verdict. unfold sampled. rewrite length_map, length_seq.
    reflexivity.
  - intros sessionId. split; reflexivity.
  - intros sessionId. split; reflexivity.
  - intros sessionId. split; reflexivity.
Qed.

(** C6, as stated, fails for the blocking entry point.  On a terminal that
    shows A three times, a call of [detectOutputStallSync] for session cea-x
    that omits both parameters takes 2 samples with one sleep of 300 ms; a
    call that passes 3 and 500 takes 3 samples with two sleeps of 500 ms. *)
Lemma stall_sync_defaults_differ : ¬ both_default_to_3_and_500.
Proof.
  intros H. destruct (H "cea-x") as [_ Hsync].
  specialize (Hsync None None (terminal_showing ["A"; "A"; "A"])).
  apply (f_equal (λ p, StallDetector.sampleCount p.1)) in Hsync.
  vm_compute in Hsync. discriminate Hsync.
Qed.

(** C6 (amended).  The suspending entry point [detectOutputStall] defaults
    to 3 samples and an interval of 500 ms; the blocking entry point
    [detectOutputStallSync] defaults to 2 samples and an interval of 300 ms.
    With both parameters omitted the first captures three times and waits
    500 ms twice, the second captures twice and sleeps 300 ms once. *)
Theorem stall_detector_defaults (sessionId : string) :
  defaults_to 3 500 (suspending sessionId)
  ∧ defaults_to 2 300 (blocking sessionId)
  ∧ (∀ t,
       let '(r, t') := suspending sessionId None None t in
       StallDetector.sampleCount r = 3
       ∧ StallDetector.log t'
         = StallDetector.log t
           ++ [StallDetector.Captured sessionId; StallDetector.Timer 500;
               StallDetector.Captured sessionId; StallDetector.Timer 500;
               StallDetector.Captured sessionId])
  ∧ (∀ t,
       let '(r, t') := blocking sessionId None None t in
       StallDetector.sampleCount r = 2
       ∧ StallDetector.log t'
         = StallDetector.log t
           ++ [StallDetector.Captured sessionId; StallDetector.SleepChild 300;
               StallDetector.Captured sessionId]).
Proof.
  split; [| split; [| split]].
  - intros [n|] [i|] t; reflexivity.
  - intros [n|] [i|] t; reflexivity.
  - intros t. unfold suspending, StallDetector.detectOutputStall.
    cbn [StallDetector.opt_sessionId StallDetector.opt_sampleCount
         StallDetector.opt_sampleIntervalMs default].
    change (Z.to_nat 3) with 3%nat. cbn [StallDetector.sample_loop].
    repeat (rewrite capturePane_spec; simpl).
    rewrite <- !app_assoc. split; reflexivity.
  - intros t. unfold blocking, StallDetector.detectOutputStallSync.
    cbn [default]. change (Z.to_nat 2) with 2%nat. cbn [StallDetector.sample_loop].
    repeat (rewrite capturePane_spec; simpl).
    rewrite <- !app_assoc. split; reflexivity.
Qed.

(** ** The runtime's ordered set *)
Section OrderedSet.

Lemma elem_of_add (x y : string) (s : list string) :
  x ∈ JSSet.add y s ↔ x = y ∨ x ∈ s.
Proof.
  unfold JSSet.add, JSSet.has. case_bool_decide as Hy.
  - split; [auto |]. intros [-> | H]; assumption.
  - rewrite elem_of_app, list_elem_of_singleton. tauto.
Qed.

Lemma elem_of_delete (x y : string) (s : list string) :
  x ∈ JSSet.delete y s ↔ x ≠ y ∧ x ∈ s.
Proof. unfold JSSet.delete. rewrite list_elem_of_filter. tauto. Qed.

Lemma NoDup_add (y : string) (s : list string) :
  NoDup s → NoDup (JSSet.add y s).
Proof.
  intros Hs. unfold JSSet.add, JSSet.has. case_bool_decide as Hy; [assumption |].
  apply NoDup_app. split; [assumption |]. split.
  - intros x Hx Hx'. apply list_elem_of_singleton in Hx'. subst. contradiction.
  - apply NoDup_singleton.
Qed.

Lemma NoDup_delete (y : string) (s : list string) :
  NoDup s → NoDup (JSSet.delete y s).
Proof. intros Hs. unfold JSSet.delete. apply NoDup_filter, Hs. Qed.

Lemma of_array_from (acc a : list string) :
  NoDup (acc ++ a) → foldl (λ acc x, JSSet.add x acc) acc a = acc ++ a.
Proof.
  revert acc. induction a as [|x a IH]; intros acc Hnd.
  - simpl. rewrite app_nil_r. reflexivity.
  - simpl. assert (Hx : x ∉ acc).
    { apply NoDup_app in Hnd as (_ & Hdisj & _). intros Hin.
      apply (Hdisj x Hin). left. }
    unfold JSSet.add at 2, JSSet.has. rewrite bool_decide_eq_false_2 by assumption.
    rewrite IH; rewrite <- app_assoc; [reflexivity | exact Hnd].
Qed.

(** [new Set(Array.from(s))] has the elements of [s] in the order of [s]. *)
Lemma of_array_to_array (s : list string) :
  NoDup s → JSSet.of_array (JSSet.to_array s) = s.
Proof. intros Hs. unfold JSSet.of_array, JSSet.to_array. apply (of_array_from [] s), Hs. Qed.

End OrderedSet.

(** ** Durable storage *)

(** *** Paths as [join] returns them *)
Section PathFacts.

Lemma split_nonempty (sep : ascii) (s : string) : split sep s ≠ [].
Proof.
  destruct s as [|c s]; simpl; [discriminate |].
  destruct (Ascii.eqb c sep); [discriminate |].
  destruct (split sep s); discriminate.
Qed.

Lemma split_app (sep : ascii) (a b : string) :
  split sep (a +:+ String sep b) = split sep a ++ split sep b.
Proof.
  induction a as [|c a IH].
  - simpl. rewrite Ascii.eqb_refl. reflexivity.
  - change (String c a +:+ String sep b) with (String c (a +:+ String sep b)).
    cbn [split]. rewrite IH.
    destruct (Ascii.eqb c sep); [reflexivity |].
    pose proof (split_nonempty sep a) as Hne.
    destruct (split sep a) as [|p ps]; [contradiction | reflexivity].
Qed.

Lemma split_slash_free (s : string) :
  slash_free s = true → split Path.SEP s = [s].
Proof.
  induction s as [|c s IH]; [reflexivity |].
  cbn [slash_free all_chars]. intros H. apply andb_true_iff in H as [Hc Hs].
  apply negb_true_iff in Hc. cbn [split]. rewrite Hc.
  unfold slash_free in IH. rewrite (IH Hs). reflexivity.
Qed.

Lemma split_segments (s : string) :
  Forall (λ t, slash_free t = true) (split Path.SEP s).
Proof.
  induction s as [|c s IH]; [repeat constructor |].
  cbn [split]. destruct (Ascii.eqb c Path.SEP) eqn:Ec.
  - constructor; [reflexivity | exact IH].
  - pose proof (split_nonempty Path.SEP s) as Hne.
    destruct (split Path.SEP s) as [|p ps]; [contradiction |].
    inversion IH as [|? ? Hp Hps]; subst. constructor; [| exact Hps].
    cbn [slash_free all_chars]. rewrite Ec. exact Hp.
Qed.

Lemma join_snoc (xs : list string) (y : string) :
  xs ≠ [] → JS.join "/" (xs ++ [y]) = JS.join "/" xs +:+ "/" +:+ y.
Proof.
  unfold JS.join. induction xs as [|x xs IH]; [contradiction |]. intros _.
  destruct xs as [|x' xs].
  - reflexivity.
  - change (String.concat "/" ((x :: x' :: xs) ++ [y]))
      with (x +:+ "/" +:+ String.concat "/" ((x' :: xs) ++ [y])).
    rewrite IH by discriminate.
    change (String.concat "/" (x :: x' :: xs))
      with (x +:+ "/" +:+ String.concat "/" (x' :: xs)).
    rewrite !append_assoc. reflexivity.
Qed.

Lemma split_join (segments : list string) :
  segments ≠ [] → Forall (λ t, slash_free t = true) segments →
  split Path.SEP (JS.join "/" segments) = segments.
Proof.
  unfold JS.join. induction segments as [|x xs IH]; [contradiction |].
  intros _ Hall. inversion Hall as [|? ? Hx Hxs]; subst.
  destruct xs as [|x' xs].
  - apply split_slash_free, Hx.
  - change (String.concat "/" (x :: x' :: xs))
      with (x +:+ String Path.SEP (String.concat "/" (x' :: xs))).
    rewrite split_app, IH by (discriminate || assumption).
    rewrite split_slash_free by assumption. reflexivity.
Qed.

Lemma plain_segment_tests (s : string) :
  plain_segment s = true →
  String.eqb s EmptyString = false ∧ String.eqb s "." = false
  ∧ String.eqb s ".." = false ∧ slash_free s = true.
Proof.
  unfold plain_segment. intros H.
  apply andb_true_iff in H as [H Hfree]. apply andb_true_iff in H as [H Hdd].
  apply andb_true_iff in H as [Ht Hd].
  apply negb_true_iff in Hd, Hdd.
  destruct s; [discriminate |]. auto.
Qed.

Lemma step_plain (a : bool) (kept : list string) (s : string) :
  plain_segment s = true → Path.step a kept s = s :: kept.
Proof.
  intros H. apply plain_segment_tests in H as (H0 & H1 & H2 & _).
  unfold Path.step. rewrite H0, H1, H2. reflexivity.
Qed.

Lemma step_settled (a : bool) (kept : list string) (s : string) :
  settled a kept → slash_free s = true → settled a (Path.step a kept s).
Proof.
  intros (plain & k & -> & Hplain & Hk) Hs. unfold Path.step.
  destruct (String.eqb_spec s EmptyString) as [-> | H0];
    [exists plain, k; auto |].
  destruct (String.eqb_spec s ".") as [-> | H1]; [exists plain, k; auto |].
  cbn [orb].
  destruct (String.eqb_spec s "..") as [-> | H2].
  - destruct plain as [|p plain].
    + destruct k as [|k]; cbn [app replicate].
      * destruct a; [exists [], 1%nat | exists [], 0%nat]; repeat split; auto.
      * rewrite String.eqb_refl. cbn [negb]. rewrite Hk by discriminate.
        exists [], (S (S k)). repeat split; auto.
    + inversion Hplain as [|? ? Hp Hrest]; subst.
      apply plain_segment_tests in Hp as (_ & _ & Hp & _).
      cbn [app]. rewrite Hp. cbn [negb]. exists plain, k. auto.
  - exists (s :: plain), k. repeat split; auto. constructor; [| exact Hplain].
    unfold plain_segment. rewrite Hs.
    apply String.eqb_neq in H0, H1, H2. rewrite H1, H2.
    destruct s; [discriminate | reflexivity].
Qed.

Lemma fold_settled (a : bool) (segments kept : list string) :
  settled a kept → Forall (λ t, slash_free t = true) segments →
  settled a (fold_left (Path.step a) segments kept).
Proof.
  revert kept. induction segments as [|s segments IH]; intros kept Hk Hall;
    [exact Hk |].
  inversion Hall; subst. simpl. apply IH; [apply step_settled |]; assumption.
Qed.

Lemma settled_nil (a : bool) : settled a [].
Proof. exists [], 0%nat. repeat split; auto. Qed.

Lemma fold_plain (a : bool) (segments kept : list string) :
  Forall (λ s, plain_segment s = true) segments →
  fold_left (Path.step a) segments kept = rev segments ++ kept.
Proof.
  revert kept. induction segments as [|s segments IH]; intros kept Hall;
    [reflexivity |].
  inversion Hall; subst. simpl. rewrite step_plain, IH by assumption.
  rewrite <- app_assoc. reflexivity.
Qed.

Lemma fold_climbs (k j : nat) :
  fold_left (Path.step true) (replicate k "..") (replicate j "..")
  = replicate (k + j) "..".
Proof.
  revert j. induction k as [|k IH]; intros j; [reflexivity |].
  cbn [replicate fold_left].
  replace (Path.step true (replicate j "..") "..") with (replicate (S j) "..").
  - rewrite IH. f_equal. lia.
  - destruct j; reflexivity.
Qed.

(** Reading the kept segments again keeps them all. *)
Lemma replay (a : bool) (kept : list string) :
  settled a kept → fold_left (Path.step a) (rev kept) [] = kept.
Proof.
  intros (plain & k & -> & Hplain & Hk).
  rewrite rev_app_distr, fold_left_app.
  assert (Hrev : rev (replicate k "..") = replicate k "..").
  { clear. induction k as [|k IH]; [reflexivity |].
    cbn [replicate rev]. rewrite IH. clear.
    induction k as [|k IH]; [reflexivity |]. cbn [replicate app]. rewrite IH.
    reflexivity. }
  rewrite Hrev.
  assert (Hlow : fold_left (Path.step a) (replicate k "..") [] = replicate k "..").
  { destruct k as [|k]; [reflexivity |]. rewrite Hk by discriminate.
    etransitivity; [exact (fold_climbs (S k) 0) | f_equal; lia]. }
  rewrite Hlow, fold_plain, rev_involutive by (apply Forall_rev; exact Hplain).
  reflexivity.
Qed.

Lemma settled_segments (a : bool) (kept : list string) :
  settled a kept →
  Forall (λ t, truthy t = true ∧ slash_free t = true) kept.
Proof.
  intros (plain & k & -> & Hplain & _). apply Forall_app. split.
  - eapply Forall_impl; [exact Hplain |]. intros s Hs. simpl.
    apply plain_segment_tests in Hs as (H0 & _ & _ & Hf).
    split; [destruct s; [discriminate | reflexivity] | exact Hf].
  - apply Forall_forall. intros x Hx. apply elem_of_replicate in Hx as [-> _].
    split; reflexivity.
Qed.

Lemma ends_with_separator_app (a b : string) :
  truthy b = true →
  Path.ends_with_separator (a +:+ b) = Path.ends_with_separator b.
Proof.
  intros Hb. induction a as [|c a IH]; [reflexivity |].
  change (String c a +:+ b) with (String c (a +:+ b)).
  cbn [Path.ends_with_separator].
  destruct (a +:+ b) as [|c' r] eqn:E; [| exact IH].
  destruct a; [| discriminate E]. change (b = EmptyString) in E. subst b. discriminate.
Qed.

Lemma is_absolute_app (a b : string) :
  truthy a = true → is_absolute (a +:+ b) = is_absolute a.
Proof. destruct a; [discriminate | reflexivity]. Qed.

Lemma normalize_eq (path : string) :
  truthy path = true →
  Path.normalize path
  = let res := JS.join "/" (Path.resolve (negb (is_absolute path))
                                         (split Path.SEP path)) in
    if negb (truthy res) then
      if is_absolute path then "/"
      else if Path.ends_with_separator path then "./" else "."
    else
      (if is_absolute path then "/" else EmptyString)
      +:+ res +:+ (if Path.ends_with_separator path then "/" else EmptyString).
Proof. destruct path; [discriminate | reflexivity]. Qed.

Lemma join_truthy (segments : list string) :
  segments ≠ [] → Forall (λ t, truthy t = true ∧ slash_free t = true) segments →
  truthy (JS.join "/" segments) = true
  ∧ is_absolute (JS.join "/" segments) = false.
Proof.
  intros Hne Hall. destruct segments as [|x xs]; [contradiction |].
  inversion Hall as [|? ? [Hx Hf] _]; subst.
  destruct x as [|c x]; [discriminate |].
  cbn [slash_free all_chars] in Hf. apply andb_true_iff in Hf as [Hc _].
  apply negb_true_iff in Hc.
  unfold JS.join. destruct xs; simpl; rewrite ?Hc; split; reflexivity.
Qed.

(** An entry of a normalized directory: joining a plain name to a
    directory path that [normalize] returned appends a separator and the
    name. *)
Lemma join_entry (path name : string) :
  truthy path = true →
  Path.ends_with_separator path = false →
  Path.resolve (negb (is_absolute path)) (split Path.SEP path) ≠ [] →
  plain_segment name = true →
  Path.join [Path.normalize path; name] = Path.normalize path +:+ "/" +:+ name.
Proof.
  intros Hpath Htrail Hkept Hname.
  set (a := negb (is_absolute path)) in *.
  set (kept := fold_left (Path.step a) (split Path.SEP path) []).
  assert (Hset : settled a kept).
  { apply fold_settled; [apply settled_nil | apply split_segments]. }
  assert (Hseg : Forall (λ t, truthy t = true ∧ slash_free t = true) (rev kept)).
  { apply Forall_rev, settled_segments with a, Hset. }
  assert (Hres : Path.resolve a (split Path.SEP path) = rev kept) by reflexivity.
  rewrite Hres in Hkept.
  destruct (join_truthy (rev kept) Hkept Hseg) as [Hjt Hja].
  assert (Hnorm : Path.normalize path
                  = (if is_absolute path then "/" else EmptyString)
                    +:+ JS.join "/" (rev kept)).
  { rewrite normalize_eq by exact Hpath. cbv zeta. fold a. rewrite Hres, Hjt, Htrail.
    cbn [negb]. rewrite append_nil_r. reflexivity. }
  assert (Hnt : truthy (Path.normalize path) = true).
  { rewrite Hnorm. destruct (is_absolute path); [reflexivity | exact Hjt]. }
  assert (Hna : is_absolute (Path.normalize path) = is_absolute path).
  { rewrite Hnorm. destruct (is_absolute path); [reflexivity | exact Hja]. }
  destruct (plain_segment_tests name Hname) as (Hn0 & _ & _ & Hnf).
  assert (Hnt' : truthy name = true) by (destruct name; [discriminate | reflexivity]).
  unfold Path.join. cbn [List.filter]. rewrite Hnt, Hnt'.
  change (JS.join "/" [Path.normalize path; name])
    with (Path.normalize path +:+ String Path.SEP name).
  rewrite normalize_eq by (destruct (Path.normalize path); [discriminate | reflexivity]).
  cbv zeta. rewrite is_absolute_app, Hna by exact Hnt. fold a.
  rewrite split_app, (split_slash_free name Hnf).
  assert (Hsplit : fold_left (Path.step a) (split Path.SEP (Path.normalize path)) []
                   = kept).
  { rewrite Hnorm. destruct (is_absolute path) eqn:Habs.
    - change ("/" +:+ JS.join "/" (rev kept))
        with (EmptyString +:+ String Path.SEP (JS.join "/" (rev kept))).
      rewrite split_app, split_join
        by (assumption || (eapply Forall_impl; [exact Hseg | intros ? [_ ?]; assumption])).
      cbn [split app fold_left]. change (Path.step a [] EmptyString) with (@nil string).
      apply replay, Hset.
    - change (EmptyString +:+ JS.join "/" (rev kept)) with (JS.join "/" (rev kept)).
      rewrite split_join
        by (assumption || (eapply Forall_impl; [exact Hseg | intros ? [_ ?]; assumption])).
      apply replay, Hset. }
  unfold Path.resolve. rewrite fold_left_app, Hsplit. cbn [fold_left].
  rewrite step_plain by exact Hname. cbn [rev].
  rewrite join_snoc by exact Hkept.
  assert (Htail : Path.ends_with_separator (Path.normalize path +:+ String Path.SEP name)
                  = false).
  { rewrite ends_with_separator_app by reflexivity.
    clear -Hnf Hnt'. destruct name as [|c name]; [discriminate |]. clear Hnt'.
    change (Path.ends_with_separator (String Path.SEP (String c name)))
      with (Path.ends_with_separator (String c name)).
    revert c Hnf. induction name as [|c' name IH]; intros c Hnf.
    - cbn [slash_free all_chars] in Hnf. apply andb_true_iff in Hnf as [Hc _].
      apply negb_true_iff in Hc. exact Hc.
    - change (Path.ends_with_separator (String c (String c' name)))
        with (Path.ends_with_separator (String c' name)).
      apply IH. cbn [slash_free all_chars] in Hnf |- *.
      apply andb_true_iff in Hnf as [_ Hnf]. exact Hnf. }
  rewrite Htail.
  assert (Hjt2 : truthy (JS.join "/" (rev kept) +:+ "/" +:+ name) = true).
  { destruct (JS.join "/" (rev kept)); [discriminate | reflexivity]. }
  rewrite Hjt2. cbn [negb]. rewrite Hnorm, append_nil_r, !append_assoc. reflexivity.
Qed.

End PathFacts.

(** [join] on the paths of records: a plain name is appended, a name with
    separators goes below or above the directory. *)
Example join_on_record_names :
  Path.join ["/home/agent/.code-editing-agent/sessions"; "conv-1.json"]
  = "/home/agent/.code-editing-agent/sessions/conv-1.json"
  ∧ Path.join ["/home/agent/.code-editing-agent/sessions"; "a/b.json"]
    = "/home/agent/.code-editing-agent/sessions/a/b.json"
  ∧ Path.join ["/home/agent/.code-editing-agent/sessions"; "../x.json"]
    = "/home/agent/.code-editing-agent/x.json"
  ∧ Path.join ["home//agent/"; "./sessions"] = "home/agent/sessions".
Proof. repeat split; reflexivity. Qed.

(** *** The storage directory and the records in it *)
Section StorageFacts.

Lemma load_spec (sid : string) (w : World) :
  loadShellInteractSessionState sid w
  = (match files w !! record_path w sid with
     | Some text => stored_state text
     | None => None
     end, w).
Proof.
  unfold loadShellInteractSessionState, getSessionFilePath, existsSync,
    readFileSync, bind, gets, ret, record_path, stored_state.
  destruct (files w !! _) as [text|] eqn:E; simpl; rewrite ?E.
  - rewrite orb_true_r. simpl. rewrite E.
    destruct (JSON.parse text) as [v|]; [| reflexivity].
    destruct (typed_serialized v); reflexivity.
  - rewrite orb_false_r. destruct (bool_decide _); simpl; rewrite ?E; reflexivity.
Qed.

Lemma stored_state_stringify (d : SerializedShellInteractSessionState) :
  stored_state (JSON.stringify (serialized_value d))
  = Some (mkState (ser_sessionID d) (JSSet.of_array (ser_tmuxSessions d))
                  (ser_updatedAt d)).
Proof.
  unfold stored_state. destruct (json_round_trip d) as [-> ->]. reflexivity.
Qed.

Lemma before_last_plain (name : string) :
  slash_free name = true → before_last_separator name = None.
Proof.
  induction name as [|c name IH]; [reflexivity |].
  cbn [slash_free all_chars]. intros H. apply andb_true_iff in H as [Hc Hn].
  apply negb_true_iff in Hc. cbn [before_last_separator].
  unfold slash_free in IH. rewrite (IH Hn), Hc. reflexivity.
Qed.

Lemma before_last_entry (dir name : string) :
  slash_free name = true →
  before_last_separator (dir +:+ String Path.SEP name) = Some dir.
Proof.
  intros Hn. induction dir as [|c dir IH].
  - change (EmptyString +:+ String Path.SEP name) with (String Path.SEP name).
    cbn [before_last_separator]. rewrite (before_last_plain name Hn). reflexivity.
  - rewrite append_cons. cbn [before_last_separator]. rewrite IH. reflexivity.
Qed.

(** A plain name in a directory has that directory as its parent. *)
Lemma parent_of_entry (dir name : string) :
  truthy dir = true → slash_free name = true →
  parent_directory (dir +:+ "/" +:+ name) = dir.
Proof.
  intros Hd Hn. unfold parent_directory.
  change (dir +:+ "/" +:+ name) with (dir +:+ String Path.SEP name).
  rewrite before_last_entry by exact Hn. destruct dir; [discriminate | reflexivity].
Qed.

Lemma directories_to_last (seen rest : string) :
  seen +:+ rest ∈ directories_to seen rest.
Proof.
  revert seen. induction rest as [|c rest IH]; intros seen.
  - rewrite append_nil_r. left.
  - cbn [directories_to].
    replace (seen +:+ String c rest) with ((seen +:+ String c EmptyString) +:+ rest)
      by (rewrite append_assoc; reflexivity).
    destruct (Ascii.eqb c Path.SEP); [apply elem_of_app; right |]; apply IH.
Qed.

Lemma directories_to_length (seen rest d : string) :
  d ∈ directories_to seen rest →
  (String.length d ≤ String.length seen + String.length rest)%nat.
Proof.
  revert seen. induction rest as [|c rest IH]; intros seen.
  - cbn [directories_to]. intros H. apply list_elem_of_singleton in H as ->. lia.
  - cbn [directories_to]. intros H.
    assert (Hrec : d ∈ directories_to (seen +:+ String c EmptyString) rest
                   → (String.length d ≤ String.length seen + String.length (String c rest))%nat).
    { intros Hd. apply IH in Hd. rewrite length_append in Hd. simpl in *. lia. }
    destruct (Ascii.eqb c Path.SEP); [| exact (Hrec H)].
    apply elem_of_app in H as [H | H]; [| exact (Hrec H)].
    destruct (truthy seen); [| inversion H].
    apply list_elem_of_singleton in H as ->. lia.
Qed.

(** The storage directory is a normalized path that ends in a segment. *)
Lemma storage_dir_normal (w : World) :
  ∃ path,
    STORAGE_DIR w = Path.normalize path
    ∧ truthy path = true
    ∧ Path.ends_with_separator path = false
    ∧ Path.resolve (negb (is_absolute path)) (split Path.SEP path) ≠ [].
Proof.
  unfold STORAGE_DIR, Path.join. cbn [List.filter].
  destruct (homedir w) as [|c h] eqn:Eh.
  - exists ".code-editing-agent/sessions". repeat split; discriminate || reflexivity.
  - cbn [truthy].
    exists (String c h +:+ String Path.SEP ".code-editing-agent/sessions").
    split; [reflexivity |]. split; [reflexivity |]. split.
    + rewrite ends_with_separator_app; reflexivity.
    + unfold Path.resolve. rewrite split_app, fold_left_app.
      change (split Path.SEP ".code-editing-agent/sessions")
        with [".code-editing-agent"; "sessions"].
      cbn [fold_left]. rewrite !step_plain by reflexivity.
      cbn [rev]. intros H. apply app_eq_nil in H as [_ H]. discriminate H.
Qed.

Lemma normalize_truthy (path : string) :
  truthy path = true → truthy (Path.normalize path) = true.
Proof.
  intros Hp. rewrite normalize_eq by exact Hp. cbv zeta.
  destruct (truthy (JS.join "/" _)) eqn:E; cbn [negb].
  - destruct (is_absolute path); [reflexivity |].
    change (EmptyString +:+ ?x) with x.
    destruct (JS.join "/" _); [discriminate | reflexivity].
  - destruct (is_absolute path); [reflexivity |].
    destruct (Path.ends_with_separator path); reflexivity.
Qed.

Lemma storage_dir_truthy (w : World) : truthy (STORAGE_DIR w) = true.
Proof.
  destruct (storage_dir_normal w) as (path & -> & Hp & _).
  apply normalize_truthy, Hp.
Qed.

Lemma record_name_plain (sid : string) :
  slash_free sid = true → plain_segment (sid +:+ ".json") = true.
Proof.
  intros Hs. unfold plain_segment.
  assert (Hlen : (5 ≤ String.length (sid +:+ ".json"))%nat).
  { rewrite length_append. simpl. lia. }
  assert (Hfree : slash_free (sid +:+ ".json") = true).
  { clear Hlen. induction sid as [|c sid IH]; [reflexivity |].
    rewrite append_cons. cbn [slash_free all_chars] in Hs |- *.
    apply andb_true_iff in Hs as [Hc Hs]. rewrite Hc. exact (IH Hs). }
  rewrite Hfree.
  destruct (String.eqb_spec (sid +:+ ".json") ".") as [E | _];
    [rewrite E in Hlen; simpl in Hlen; lia |].
  destruct (String.eqb_spec (sid +:+ ".json") "..") as [E | _];
    [rewrite E in Hlen; simpl in Hlen; lia |].
  destruct (sid +:+ ".json"); [simpl in Hlen; lia | reflexivity].
Qed.

(** The record of a plain id is an entry of the storage directory. *)
Lemma record_path_plain (w : World) (sid : string) :
  slash_free sid = true →
  record_path w sid = STORAGE_DIR w +:+ "/" +:+ (sid +:+ ".json").
Proof.
  intros Hs. unfold record_path.
  destruct (storage_dir_normal w) as (path & -> & Hp & Ht & Hk).
  apply join_entry; try assumption. apply record_name_plain, Hs.
Qed.

Lemma record_parent (w : World) (sid : string) :
  slash_free sid = true →
  parent_directory (record_path w sid) = STORAGE_DIR w.
Proof.
  intros Hs. rewrite record_path_plain by exact Hs.
  apply parent_of_entry; [apply storage_dir_truthy |].
  apply record_name_plain in Hs. apply plain_segment_tests in Hs. tauto.
Qed.

(** The record is not one of the directories on the way to its directory. *)
Lemma record_not_on_the_way (w : World) (sid : string) :
  slash_free sid = true →
  record_path w sid ∉ directories_to EmptyString (STORAGE_DIR w).
Proof.
  intros Hs Hin. apply directories_to_length in Hin.
  rewrite record_path_plain, !length_append in Hin by exact Hs.
  simpl in Hin. lia.
Qed.

End StorageFacts.

(** *** Creating directories and writing records *)
Section SaveFacts.

Lemma creatable_grows (w : World) (ds : gset string) (d : string) :
  dirs w ⊆ ds → creatable w d = true → creatable (set_dirs ds w) d = true.
Proof.
  unfold creatable. intros Hsub H. apply orb_true_iff in H as [H | H].
  - apply bool_decide_eq_true_1 in H. apply orb_true_iff. left.
    apply bool_decide_eq_true_2. simpl. set_solver.
  - apply orb_true_iff. right. exact H.
Qed.

(** Making directories changes the directories of the world only, and
    adds none but those it was asked for. *)
Lemma make_directories_world (todo : list string) (w : World) :
  ∃ ds,
    (make_directories todo w).2 = set_dirs ds w
    ∧ dirs w ⊆ ds
    ∧ ∀ d, d ∈ ds → d ∈ dirs w ∨ d ∈ todo.
Proof.
  revert w. induction todo as [|x todo IH]; intros w.
  - exists (dirs w). split; [destruct w; reflexivity |]. split; [set_solver | auto].
  - cbn [make_directories]. case_bool_decide as Hx.
    + destruct (IH w) as (ds & E & Hsub & Hin). exists ds.
      split; [exact E |]. split; [exact Hsub |].
      intros d Hd. destruct (Hin d Hd); [left | right; right]; assumption.
    + case_bool_decide as Hf.
      * exists (dirs w). split; [destruct w; reflexivity |]. split; [set_solver | auto].
      * destruct (refused w x) as [code|].
        -- exists (dirs w). split; [destruct w; reflexivity |].
           split; [set_solver | auto].
        -- destruct (IH (set_dirs ({[x]} ∪ dirs w) w)) as (ds & E & Hsub & Hin).
           exists ds. split; [exact E |]. simpl in Hsub. split; [set_solver |].
           intros d Hd. destruct (Hin d Hd) as [H | H].
           ++ simpl in H. apply elem_of_union in H as [H | H]; [| left; exact H].
              apply elem_of_singleton in H. subst. right. left.
           ++ right. right. exact H.
Qed.

(** Directories that are there or can be made are there afterwards. *)
Lemma make_directories_returns (todo : list string) (w : World) :
  forallb (creatable w) todo = true →
  (make_directories todo w).1 = Returned tt
  ∧ ∀ d, d ∈ todo → d ∈ dirs (make_directories todo w).2.
Proof.
  revert w. induction todo as [|x todo IH]; intros w Hall.
  - split; [reflexivity |]. intros d Hd. inversion Hd.
  - cbn [forallb] in Hall. apply andb_true_iff in Hall as [Hx Hall].
    cbn [make_directories]. case_bool_decide as Hin.
    + destruct (IH w Hall) as [Hret Hthere]. split; [exact Hret |].
      intros d Hd. apply elem_of_cons in Hd as [-> | Hd]; [| apply Hthere, Hd].
      destruct (make_directories_world todo w) as (ds & -> & Hsub & _).
      simpl. set_solver.
    + unfold creatable in Hx. rewrite bool_decide_eq_false_2 in Hx by exact Hin.
      cbn [orb] in Hx. apply andb_true_iff in Hx as [Hfile Hrefused].
      apply negb_true_iff in Hfile, Hrefused. rewrite Hfile.
      destruct (refused w x) as [code|] eqn:Er.
      { rewrite bool_decide_eq_true_2 in Hrefused by (eexists; reflexivity).
        discriminate. }
      assert (Hall' : forallb (creatable (set_dirs ({[x]} ∪ dirs w) w)) todo = true).
      { apply forallb_forall. intros d Hd.
        apply creatable_grows; [simpl; set_solver |].
        revert d Hd. apply forallb_forall, Hall. }
      destruct (IH _ Hall') as [Hret Hthere]. split; [exact Hret |].
      intros d Hd. apply elem_of_cons in Hd as [-> | Hd]; [| apply Hthere, Hd].
      destruct (make_directories_world todo (set_dirs ({[x]} ∪ dirs w) w))
        as (ds & -> & Hsub & _).
      simpl in *. set_solver.
Qed.

(** The world after [ensureStorageDir], whether it returned or threw. *)
Lemma ensure_world (w : World) :
  ∃ ds,
    (ensureStorageDir w).2 = set_dirs ds w
    ∧ dirs w ⊆ ds
    ∧ ∀ d, d ∈ ds → d ∈ dirs w ∨ d ∈ directories_to EmptyString (STORAGE_DIR w).
Proof.
  unfold ensureStorageDir, bind_throws, lift, existsSync, gets.
  destruct (_ || _).
  - exists (dirs w). split; [destruct w; reflexivity |]. split; [set_solver | auto].
  - apply make_directories_world.
Qed.

Lemma ensure_returns (w : World) :
  forallb (creatable w) (directories_to EmptyString (STORAGE_DIR w)) = true →
  (ensureStorageDir w).1 = Returned tt
  ∧ STORAGE_DIR w ∈ dirs (ensureStorageDir w).2.
Proof.
  intros Hall.
  assert (Hdir : creatable w (STORAGE_DIR w) = true).
  { revert Hall. rewrite forallb_forall. intros Hall. apply Hall.
    apply list_elem_of_In, (directories_to_last EmptyString). }
  unfold ensureStorageDir, bind_throws, lift, existsSync, gets.
  destruct (bool_decide (STORAGE_DIR w ∈ dirs w)) eqn:Ed.
  - cbn [orb]. split; [reflexivity |]. apply bool_decide_eq_true_1 in Ed. exact Ed.
  - cbn [orb]. unfold creatable in Hdir. rewrite Ed in Hdir. cbn [orb] in Hdir.
    apply andb_true_iff in Hdir as [Hfile _]. apply negb_true_iff in Hfile.
    rewrite Hfile. unfold mkdirSync.
    destruct (make_directories_returns _ w Hall) as [Hret Hthere].
    split; [exact Hret |]. apply Hthere, (directories_to_last EmptyString).
Qed.

(** The save in one piece. *)
Lemma save_eq (state : ShellInteractSessionState) (w : World) :
  saveShellInteractSessionState state w
  = match ensureStorageDir w with
    | (Returned _, w1) =>
        writeFileSync (record_path w1 (sessionID state))
          (JSON.stringify
             (serialized_value
                (mkSerialized (sessionID state)
                              (JSSet.to_array (tmuxSessions state))
                              (updatedAt state)))) w1
    | (Threw code, w1) => (Threw code, w1)
    end.
Proof.
  unfold saveShellInteractSessionState, bind_throws.
  destruct (ensureStorageDir w) as [[done|code] w1]; reflexivity.
Qed.

(** The world after a save: the directories may have grown, and the record
    is written when the save returned. *)
Lemma save_world (state : ShellInteractSessionState) (w : World) :
  ∃ ds,
    dirs w ⊆ ds
    ∧ match (saveShellInteractSessionState state w).1 with
      | Returned _ =>
          (saveShellInteractSessionState state w).2
          = set_files
              (<[record_path w (sessionID state)
                 := JSON.stringify
                      (serialized_value
                         (mkSerialized (sessionID state)
                                       (JSSet.to_array (tmuxSessions state))
                                       (updatedAt state)))]> (files w))
              (set_dirs ds w)
      | Threw _ => (saveShellInteractSessionState state w).2 = set_dirs ds w
      end.
Proof.
  rewrite save_eq.
  destruct (ensure_world w) as (ds & Ew & Hsub & _).
  destruct (ensureStorageDir w) as [[[]|code] w1]; simpl in Ew; subst w1;
    exists ds; (split; [exact Hsub |]); [| reflexivity].
  unfold writeFileSync.
  change (record_path (set_dirs ds w) (sessionID state))
    with (record_path w (sessionID state)).
  destruct (bool_decide (record_path w (sessionID state) ∈ dirs (set_dirs ds w)));
    [reflexivity |].
  destruct (negb (is_directory _ _)); [reflexivity |].
  destruct (refused (set_dirs ds w) (record_path w (sessionID state)));
    reflexivity.
Qed.

(** A store that can take the record makes the save return. *)
Lemma save_returns (state : ShellInteractSessionState) (w : World) :
  storable w (sessionID state) = true →
  (saveShellInteractSessionState state w).1 = Returned tt.
Proof.
  unfold storable. intros H.
  apply andb_true_iff in H as [H Hrefused]. apply andb_true_iff in H as [H Hnodir].
  apply andb_true_iff in H as [Hplain Hway].
  apply negb_true_iff in Hrefused, Hnodir.
  apply bool_decide_eq_false_1 in Hnodir.
  destruct (refused w (record_path w (sessionID state))) as [code|] eqn:Er.
  { rewrite bool_decide_eq_true_2 in Hrefused by (eexists; reflexivity).
    discriminate. }
  rewrite save_eq.
  destruct (ensure_returns w Hway) as [Hret Hdir].
  destruct (ensure_world w) as (ds & Ew & Hsub & Hnew).
  destruct (ensureStorageDir w) as [done w1]. simpl in Hret, Hdir, Ew. subst done w1.
  unfold writeFileSync.
  change (record_path (set_dirs ds w) (sessionID state))
    with (record_path w (sessionID state)).
  rewrite bool_decide_eq_false_2.
  2:{ simpl. intros Hin. destruct (Hnew _ Hin) as [H | H]; [exact (Hnodir H) |].
      exact (record_not_on_the_way w _ Hplain H). }
  rewrite (record_parent w _ Hplain). unfold is_directory.
  rewrite bool_decide_eq_true_2 by exact Hdir. cbn [orb negb].
  change (refused (set_dirs ds w)) with (refused w). rewrite Er. reflexivity.
Qed.

(** A save that returned is read back. *)
Lemma save_then_load (state : ShellInteractSessionState) (w : World) :
  (saveShellInteractSessionState state w).1 = Returned tt →
  (loadShellInteractSessionState (sessionID state)
     (saveShellInteractSessionState state w).2).1
  = Some (mkState (sessionID state)
                  (JSSet.of_array (JSSet.to_array (tmuxSessions state)))
                  (updatedAt state)).
Proof.
  intros Hret. destruct (save_world state w) as (ds & _ & Hw).
  rewrite Hret in Hw. rewrite Hw, load_spec. simpl fst.
  change (record_path (set_files _ (set_dirs ds w)) (sessionID state))
    with (record_path w (sessionID state)).
  simpl files. rewrite lookup_insert_eq, stored_state_stringify. reflexivity.
Qed.

End SaveFacts.

(** C8, as stated, fails for an id that is not a plain file name.  On a
    store that holds nothing, the save of a state with the sessionID [a/b]
    makes the storage directory and then throws: its record would lie in a
    directory [a] below the storage directory, and nothing makes that one.
    No record is written, and loading [a/b] afterwards finds nothing. *)
Lemma storage_round_trip_needs_plain_id :
  let state := mkState "a/b" ["cea-a"] 1700000000000 in
  let saved := saveShellInteractSessionState state fresh_world in
  saved.1 = Threw "ENOENT"
  ∧ files saved.2 = ∅
  ∧ (loadShellInteractSessionState "a/b" saved.2).1 = None
  ∧ ¬ round_trip_as_stated state fresh_world.
Proof.
  cbv zeta. split; [vm_compute; reflexivity |].
  split; [vm_compute; reflexivity |]. split; [vm_compute; reflexivity |].
  intros [H _]. vm_compute in H. discriminate H.
Qed.

(** C8 (amended: for a save that returns).  On a store that can take the
    record (the sessionID holds no '/', every directory on the way to the
    storage directory is there or can be made, no directory stands at the
    path of the record and the store does not refuse it) the save returns;
    and whenever the save returns, loading the same sessionID afterwards
    returns a state with the same sessionID and the same tracked-session
    set: the same names in the same order. *)
Theorem storage_round_trip (state : ShellInteractSessionState) (w : World) :
  NoDup (tmuxSessions state) →
  round_trip_rule state w.
Proof.
  intros Hnd. unfold round_trip_rule. cbv zeta. split.
  - apply save_returns.
  - intros Hret. rewrite (save_then_load state w Hret).
    eexists. split; [reflexivity |]. simpl. split; [reflexivity |].
    apply of_array_to_array, Hnd.
Qed.

(** The round trip of a state with two tracked sessions on an empty disk:
    the save makes the storage directory, returns, and is read back. *)
Lemma storage_round_trip_witness :
  let state := mkState "conv-1" ["cea-a"; "cea-b"] 1700000000000 in
  let saved := saveShellInteractSessionState state fresh_world in
  saved.1 = Returned tt
  ∧ ∃ loaded,
      (loadShellInteractSessionState "conv-1" saved.2).1 = Some loaded
      ∧ sessionID loaded = "conv-1"
      ∧ tmuxSessions loaded = ["cea-a"; "cea-b"].
Proof.
  cbv zeta.
  assert (Hnd : NoDup ["cea-a"; "cea-b"]).
  { apply (bool_decide_unpack _). vm_compute. exact I. }
  destruct (storage_round_trip (mkState "conv-1" ["cea-a"; "cea-b"] 1700000000000)
                               fresh_world Hnd) as [Hret Hload].
  split; [apply Hret; vm_compute; reflexivity |].
  apply Hload, Hret. vm_compute. reflexivity.
Defined.

(** C10.  When the tool output starts with [Error:], the hook returns that
    output unchanged with no reminder and leaves the world as it was: no
    state is created or changed in memory and nothing is written to disk. *)
Theorem hook_ignores_failed_commands (sid tmuxCommand toolOutput : string) (w : World) :
  startsWith toolOutput "Error:" = true →
  shellInteractHook sid tmuxCommand toolOutput w
  = (Returned (mkResult toolOutput None), w).
Proof.
  intros Herr. unfold shellInteractHook. rewrite Herr. reflexivity.
Qed.

(** A failed creation on a world without any state. *)
Lemma hook_ignores_failed_commands_witness :
  shellInteractHook "conv-1" "new-session -d -s cea-build"
                    "Error: duplicate session: cea-build" fresh_world
  = (Returned (mkResult "Error: duplicate session: cea-build" None), fresh_world).
Proof.
  apply hook_ignores_failed_commands. reflexivity.
Defined.




(** ** The session registry *)
Section Registry.

Lemma getOrCreateState_cached (sid : string) (w : World)
    (st : ShellInteractSessionState) :
  sessionStates w !! sid = Some st → getOrCreateState sid w = (st, w).
Proof.
  intros H. unfold getOrCreateState, bind, gets. rewrite H. reflexivity.
Qed.

Lemma tracked_cached (sid : string) (w : World) (st : ShellInteractSessionState) :
  sessionStates w !! sid = Some st → tracked sid w = tmuxSessions st.
Proof.
  intros H. unfold tracked. rewrite (getOrCreateState_cached _ _ _ H). reflexivity.
Qed.

(** After [getOrCreateState] the state is cached; the disk is as before. *)
Lemma getOrCreateState_caches (sid : string) (w : World) :
  let '(st, w1) := getOrCreateState sid w in
  sessionStates w1 !! sid = Some st
  ∧ homedir w1 = homedir w ∧ files w1 = files w.
Proof.
  unfold getOrCreateState, bind, gets.
  destruct (sessionStates w !! sid) as [st|] eqn:E.
  - simpl. auto.
  - rewrite load_spec.
    destruct (match files w !! record_path w sid with
              | Some text => _ | None => None end) as [p|];
      simpl; rewrite lookup_insert_eq; auto.
Qed.

Lemma split_hd (sep c : ascii) (s : string) :
  hd EmptyString (split sep (String c s))
  = if Ascii.eqb c sep then EmptyString
    else String c (hd EmptyString (split sep s)).
Proof.
  simpl. destruct (Ascii.eqb c sep); [reflexivity |].
  destruct (split sep s); reflexivity.
Qed.

(** Splitting at ':' and then at '.' cuts at the first of the two. *)
Lemma normalize_truncate (name : string) :
  normalizeSessionName name = truncate_at_separator name.
Proof.
  unfold normalizeSessionName. induction name as [|c name IH]; [reflexivity |].
  rewrite split_hd. cbn [truncate_at_separator].
  destruct (Ascii.eqb c ":") eqn:Ec; [reflexivity |].
  rewrite split_hd. destruct (Ascii.eqb c ".") eqn:Ed; [reflexivity |].
  simpl. rewrite IH. reflexivity.
Qed.

Lemma findFlagValue_truthy (tokens : list string) (flag v : string) :
  Forall (λ t, truthy t = true) tokens →
  findFlagValue tokens flag = Some v → truthy v = true.
Proof.
  induction tokens as [|t tokens IH]; intros Hall Hf; [discriminate |].
  destruct tokens as [|u tokens]; [discriminate |].
  change (findFlagValue (t :: u :: tokens) flag)
    with (if String.eqb t flag then Some u else findFlagValue (u :: tokens) flag) in Hf.
  inversion Hall as [|? ? Ht Hrest]; subst.
  destruct (String.eqb t flag).
  - injection Hf as <-. inversion Hrest; assumption.
  - apply IH; assumption.
Qed.

Lemma found_flag (tokens : list string) (flag : string) :
  Forall (λ t, truthy t = true) tokens →
  found (findFlagValue tokens flag) = findFlagValue tokens flag.
Proof.
  intros Hall. destruct (findFlagValue tokens flag) as [v|] eqn:E; [| reflexivity].
  simpl. rewrite (findFlagValue_truthy _ _ _ Hall E). reflexivity.
Qed.

Lemma extract_new (tokens : list string) :
  Forall (λ t, truthy t = true) tokens →
  extractSessionNameFromTokens tokens "new-session" = resolved_new tokens.
Proof.
  intros Hall. unfold extractSessionNameFromTokens, resolved_new.
  rewrite String.eqb_refl, !found_flag by assumption.
  destruct (findFlagValue tokens "-s") as [v|]; simpl.
  - rewrite normalize_truncate. reflexivity.
  - destruct (findFlagValue tokens "-t") as [v|]; simpl;
      [rewrite normalize_truncate |]; reflexivity.
Qed.

Lemma extract_other (tokens : list string) (sub : string) :
  Forall (λ t, truthy t = true) tokens →
  String.eqb sub "new-session" = false →
  extractSessionNameFromTokens tokens sub = resolved_target tokens.
Proof.
  intros Hall Hsub. unfold extractSessionNameFromTokens, resolved_target.
  rewrite Hsub, found_flag by assumption.
  destruct (findFlagValue tokens "-t") as [v|]; simpl;
    [rewrite normalize_truncate |]; reflexivity.
Qed.

(** The three-way mutation, in the words of the specification. *)
Lemma mutate_rule (tokens : list string) (sub : string) (before : list string) :
  Forall (λ t, truthy t = true) tokens →
  mutate (String.eqb sub "new-session") (String.eqb sub "kill-session")
         (String.eqb sub "kill-server")
         (extractSessionNameFromTokens tokens sub) before
  = match created_name tokens sub, killed_name tokens sub with
    | Some n, _ => (JSSet.add n before, true)
    | None, Some n => (JSSet.delete n before, true)
    | None, None =>
        if String.eqb sub "kill-server" then ([], true) else (before, false)
    end.
Proof.
  intros Hall. unfold mutate, created_name, killed_name, killed_name_by.
  destruct (String.eqb_spec sub "new-session") as [-> | Hnew].
  - rewrite extract_new by assumption. simpl.
    destruct (resolved_new tokens) as [n|]; simpl; [| reflexivity].
    destruct (startsWith n CEA_SESSION_PREFIX); reflexivity.
  - rewrite extract_other by (assumption || (apply String.eqb_neq; assumption)).
    simpl. destruct (String.eqb sub "kill-session"); simpl.
    + destruct (resolved_target tokens) as [n|]; simpl; [| reflexivity].
      destruct (startsWith n CEA_SESSION_PREFIX); reflexivity.
    + destruct (String.eqb sub "kill-server"); reflexivity.
Qed.

(** The world after [getOrCreateState]: the state is in the cache, the
    clock may have been read, nothing else has changed. *)
Lemma getOrCreateState_world (sid : string) (w : World) :
  ∃ n, (getOrCreateState sid w).2
       = set_sessionStates
           (<[sid := (getOrCreateState sid w).1]> (sessionStates w))
           (set_ticks n w).
Proof.
  unfold getOrCreateState, bind, gets.
  destruct (sessionStates w !! sid) as [st|] eqn:E.
  - exists (ticks w). simpl. rewrite insert_id by exact E. destruct w; reflexivity.
  - rewrite load_spec.
    destruct (match files w !! record_path w sid with
              | Some text => _ | None => None end) as [p|].
    + exists (ticks w). simpl. unfold modify, set_sessionStates, set_ticks. simpl.
      reflexivity.
    + exists (S (ticks w)). reflexivity.
Qed.

Lemma mutate_unchanged (a b c : bool) (name : option string)
    (before sessions : list string) :
  mutate a b c name before = (sessions, false) → sessions = before.
Proof.
  unfold mutate. intros Hm.
  repeat match type of Hm with
         | (if ?b then _ else _) = _ => destruct b
         end; inversion Hm; reflexivity.
Qed.

(** The hook on a command that did not fail, in one piece: what the save
    throws, the hook throws. *)
Lemma hook_eq (sid tmuxCommand toolOutput : string) (w : World) :
  startsWith toolOutput "Error:" = false →
  shellInteractHook sid tmuxCommand toolOutput w
  = let tokens := tokenizeCommand tmuxCommand in
    let sub := findSubcommand tokens in
    let name := extractSessionNameFromTokens tokens sub in
    let isNew := String.eqb sub "new-session" in
    let isKill := String.eqb sub "kill-session" in
    let isServer := String.eqb sub "kill-server" in
    let '(st, w1) := getOrCreateState sid w in
    let m := mutate isNew isKill isServer name (tmuxSessions st) in
    let reminder :=
      if isNew || isKill || isServer then
        Some (buildSessionReminderMessage m.1
                (if isNew && isCeaSession name then Some (narrowed name) else None))
      else None in
    let result :=
      mkResult
        (match reminder with
         | Some r => if truthy r then toolOutput +:+ r else toolOutput
         | None => toolOutput
         end) reminder in
    if m.2 then
      let now := clock w1 (ticks w1) in
      let st' := touched st m.1 now in
      let saved :=
        saveShellInteractSessionState st'
          (set_sessionStates (<[sid := st']> (sessionStates w1))
                             (set_ticks (S (ticks w1)) w1)) in
      (match saved.1 with
       | Returned _ => Returned result
       | Threw code => Threw code
       end, saved.2)
    else (Returned result, w1).
Proof.
  intros Herr. cbv zeta. unfold shellInteractHook. rewrite Herr.
  unfold bind_throws at 1. unfold lift at 1.
  destruct (getOrCreateState sid w) as [st w1].
  destruct (mutate _ _ _ _ (tmuxSessions st)) as [sessions changed] eqn:Hm.
  destruct changed.
  - unfold bind_throws, lift, Date_now, modify, returns. simpl.
    destruct (saveShellInteractSessionState _ _) as [[[]|code] w2]; reflexivity.
  - unfold bind_throws, returns. simpl.
    apply mutate_unchanged in Hm. subst sessions. reflexivity.
Qed.

(** One run of the hook on a command that did not fail: what is tracked
    afterwards, when the hook returns, and what it returns then. *)
Lemma hook_run (sid tmuxCommand toolOutput : string) (w : World) :
  startsWith toolOutput "Error:" = false →
  let tokens := tokenizeCommand tmuxCommand in
  let sub := findSubcommand tokens in
  let name := extractSessionNameFromTokens tokens sub in
  let isNew := String.eqb sub "new-session" in
  let isKill := String.eqb sub "kill-session" in
  let isServer := String.eqb sub "kill-server" in
  let st := (getOrCreateState sid w).1 in
  let m := mutate isNew isKill isServer name (tmuxSessions st) in
  let run := shellInteractHook sid tmuxCommand toolOutput w in
  let reminder :=
    if isNew || isKill || isServer then
      Some (buildSessionReminderMessage m.1
              (if isNew && isCeaSession name then Some (narrowed name) else None))
    else None in
  tracked sid run.2 = m.1
  ∧ (m.2 = false → ∃ r, run.1 = Returned r)
  ∧ (storable w (sessionID st) = true → ∃ r, run.1 = Returned r)
  ∧ ∀ r, run.1 = Returned r →
      sessionReminder r = reminder
      ∧ output r = match reminder with
                   | Some r => if truthy r then toolOutput +:+ r else toolOutput
                   | None => toolOutput
                   end
      ∧ (m.2 = true → persisted_names run.2 (sessionID st) = Some m.1).
Proof.
  intros Herr. cbv zeta. rewrite (hook_eq _ _ _ _ Herr). cbv zeta.
  pose proof (getOrCreateState_caches sid w) as Hc.
  destruct (getOrCreateState_world sid w) as [n Hw1].
  destruct (getOrCreateState sid w) as [st w1]. destruct Hc as (Hst & Hhome & Hfiles).
  simpl in Hw1. simpl fst.
  destruct (mutate _ _ _ _ (tmuxSessions st)) as [sessions changed] eqn:Hm.
  simpl fst. simpl snd.
  destruct changed.
  - cbv zeta.
    set (st' := touched st sessions (clock w1 (ticks w1))).
    set (w2 := set_sessionStates (<[sid := st']> (sessionStates w1))
                                 (set_ticks (S (ticks w1)) w1)).
    destruct (save_world st' w2) as (ds & _ & Hsaved).
    pose proof (save_returns st' w2) as Hreturns.
    destruct (saveShellInteractSessionState st' w2) as [[[]|code] w3];
      simpl in Hsaved, Hreturns; subst w3; simpl fst; simpl snd.
    + split; [erewrite tracked_cached; [| simpl; apply lookup_insert_eq]; reflexivity |].
      split; [intros H; discriminate H |]. split; [eexists; reflexivity |].
      intros r [= <-]. split; [reflexivity |]. split; [reflexivity |]. intros _.
      unfold persisted_names. simpl files.
      change (record_path (set_files _ (set_dirs ds w2)) (sessionID st))
        with (record_path w2 (sessionID st')).
      rewrite lookup_insert_eq.
      destruct (json_round_trip
                  (mkSerialized (sessionID st) (JSSet.to_array sessions)
                                (clock w1 (ticks w1)))) as [-> ->].
      reflexivity.
    + split; [erewrite tracked_cached; [| simpl; apply lookup_insert_eq]; reflexivity |].
      split; [intros H; discriminate H |]. split.
      * intros Hstorable. exfalso.
        assert (Hs : storable w2 (sessionID st') = true).
        { subst w1. exact Hstorable. }
        specialize (Hreturns Hs). discriminate Hreturns.
      * intros r H. discriminate H.
  - apply mutate_unchanged in Hm. subst sessions.
    split; [apply tracked_cached, Hst |].
    split; [intros _; eexists; reflexivity |]. split; [intros _; eexists; reflexivity |].
    intros r [= <-]. split; [reflexivity |]. split; [reflexivity |].
    intros H; discriminate H.
Qed.

End Registry.

Section RegistryRules.



Lemma created_name_prefixed (tokens : list string) (sub n : string) :
  created_name tokens sub = Some n → startsWith n CEA_SESSION_PREFIX = true.
Proof.
  unfold created_name. destruct (String.eqb sub "new-session"); [| discriminate].
  destruct (resolved_new tokens) as [m|]; [| discriminate].
  destruct (startsWith m CEA_SESSION_PREFIX) eqn:E; [| discriminate].
  intros [= <-]. exact E.
Qed.

Lemma created_not_killed (tokens : list string) (sub n : string) :
  created_name tokens sub = Some n → killed_name tokens sub = None.
Proof.
  unfold created_name, killed_name, killed_name_by.
  destruct (String.eqb_spec sub "new-session") as [-> | H]; [| discriminate].
  reflexivity.
Qed.



(** The tracked set after a run, in the words of the specification. *)
Lemma tracked_after (sid tmuxCommand toolOutput : string) (w : World) :
  startsWith toolOutput "Error:" = false →
  let tokens := tokenizeCommand tmuxCommand in
  let sub := findSubcommand tokens in
  tracked sid (shellInteractHook sid tmuxCommand toolOutput w).2
  = match created_name tokens sub, killed_name tokens sub with
    | Some n, _ => JSSet.add n (tracked sid w)
    | None, Some n => JSSet.delete n (tracked sid w)
    | None, None =>
        if String.eqb sub "kill-server" then [] else tracked sid w
    end.
Proof.
  intros Herr. cbv zeta.
  destruct (hook_run sid tmuxCommand toolOutput w Herr) as (Ht & _).
  rewrite Ht, mutate_rule by apply tokenize_nonempty.
  fold (tracked sid w).
  destruct (created_name _ _); [reflexivity |].
  destruct (killed_name _ _); [reflexivity |].
  destruct (String.eqb _ "kill-server"); reflexivity.
Qed.

Lemma update_rule_holds (sid tmuxCommand toolOutput : string) (w : World) :
  startsWith toolOutput "Error:" = false →
  update_rule sid tmuxCommand toolOutput w.
Proof.
  intros Herr. unfold update_rule, update_rule_by. fold killed_name. cbv zeta.
  rewrite (tracked_after _ _ _ _ Herr). cbv zeta.
  split; [| split; [| split]].
  - intros n ->. reflexivity.
  - intros n Hk. rewrite Hk.
    destruct (created_name _ _) as [m|] eqn:Ec; [| reflexivity].
    rewrite (created_not_killed _ _ _ Ec) in Hk. discriminate.
  - intros Hsub. unfold created_name, killed_name, killed_name_by.
    rewrite Hsub. reflexivity.
  - intros -> -> Hsub. apply String.eqb_neq in Hsub. rewrite Hsub. reflexivity.
Qed.

End RegistryRules.

(** C1, as stated, fails in two ways.  For conversation conv-1 with nothing
    tracked, the creation [new-session -d -s cea-build] with the tool output
    [Error: duplicate session: cea-build] is classified as new-session with
    the prefixed name cea-build, and the tracked set stays empty: the hook
    returns before it looks at the command.  And with cea-old tracked, the
    chain [kill-session -t cea-old \; new-session -d -s cea-new] is
    classified as kill-session; its -s value is cea-new, and the hook removes
    cea-old, the -t value. *)
Lemma registry_update_not_as_stated :
  ¬ update_as_stated "conv-1" "new-session -d -s cea-build"
                     "Error: duplicate session: cea-build" fresh_world
  ∧ ¬ update_as_stated "conv-1"
        "kill-session -t cea-old \; new-session -d -s cea-new" "(no output)"
        (world_tracking "conv-1" ["cea-old"]).
Proof.
  split.
  - intros (H & _). specialize (H "cea-build" eq_refl).
    vm_compute in H. discriminate H.
  - intros (_ & H & _). specialize (H "cea-new" eq_refl).
    vm_compute in H. discriminate H.
Qed.

(** C1 (amended: for a tool output that does not start with [Error:]).
    With the subcommand classified by [findSubcommand] on the tokens of the
    command: a new-session whose resolved name (the -s value, else the -t
    value, cut at the first ':' or '.') starts with cea- adds that name to
    the tracked set; a kill-session whose resolved name (the -t value, cut
    the same way) starts with cea- removes it; kill-server clears the set;
    any other command leaves the set as it was.  So creating cea-build on an
    empty set gives the set of cea-build alone, killing it gives the empty
    set, kill-server on cea-a, cea-b gives the empty set, and a target
    cea-x:0.1 is tracked as cea-x. *)
Theorem registry_update (sid tmuxCommand toolOutput : string) (w : World) :
  startsWith toolOutput "Error:" = false →
  update_rule sid tmuxCommand toolOutput w
  ∧ (tracked sid w = [] →
     tracked sid (shellInteractHook sid "new-session -d -s cea-build" toolOutput w).2
     = ["cea-build"])
  ∧ (tracked sid w = ["cea-build"] →
     tracked sid (shellInteractHook sid "kill-session -t cea-build" toolOutput w).2 = [])
  ∧ (tracked sid w = ["cea-a"; "cea-b"] →
     tracked sid (shellInteractHook sid "kill-server" toolOutput w).2 = [])
  ∧ (tracked sid w = [] →
     tracked sid (shellInteractHook sid "new-session -d -t cea-x:0.1" toolOutput w).2
     = ["cea-x"]).
Proof.
  intros Herr. split; [apply update_rule_holds, Herr |].
  repeat split; intros Hw; rewrite (tracked_after _ _ _ _ Herr), Hw; reflexivity.
Qed.

(** The creation of cea-build in a conversation with nothing tracked. *)
Lemma registry_update_witness :
  tracked "conv-1"
    (shellInteractHook "conv-1" "new-session -d -s cea-build" "(no output)"
                       fresh_world).2
  = ["cea-build"].
Proof.
  refine (proj1 (proj2 (registry_update "conv-1" "new-session -d -s cea-build"
                          "(no output)" fresh_world eq_refl)) _).
  vm_compute. reflexivity.
Defined.




(** ** Classifier and entry point on the commands of the specification *)

Example classifier_skips_value_option :
  findSubcommand ["-L"; "sock"; "new-session"; "-d"] = "new-session".
Proof. reflexivity. Qed.

Example classifier_double_dash :
  findSubcommand ["--"; "kill-session"] = "kill-session".
Proof. reflexivity. Qed.

(** A command that is not blocked reaches the multiplexer. *)
Example unblocked_command_is_spawned :
  spawned (ShellInteract.executeTmuxCommand "kill-session -t cea-x" fresh_world).2
  = [("/bin/bash", ["-c"; "tmux kill-session -t cea-x"])].
Proof. vm_compute. reflexivity. Qed.

(** * Further properties of the code *)

(** ** Tokenizer and classifier *)
Section TokenizerFacts.

Lemma tok_escaped_text (t : string) (toks : list string) (cur rest : string) :
  tok_loop (mkTok toks cur false EmptyString false) (escaped_text t +:+ rest)
  = tok_loop (mkTok toks (cur +:+ t) false EmptyString false) rest.
Proof.
  revert cur. induction t as [|c t IH]; intros cur.
  - rewrite append_nil_r. reflexivity.
  - cbn [escaped_text]. rewrite !append_cons, tok_escape, IH, append_chr.
    reflexivity.
Qed.

Lemma tok_plain_text (t : string) (toks : list string) (cur rest : string) :
  all_chars (λ c, bare_ok (Plain c)) t = true →
  tok_loop (mkTok toks cur false EmptyString false) (t +:+ rest)
  = tok_loop (mkTok toks (cur +:+ t) false EmptyString false) rest.
Proof.
  revert cur. induction t as [|c t IH]; intros cur Hok.
  - rewrite append_nil_r. reflexivity.
  - cbn [all_chars] in Hok. apply andb_true_iff in Hok as [Hc Ht].
    rewrite append_cons, tok_plain_bare by exact Hc.
    rewrite IH by exact Ht. rewrite append_chr. reflexivity.
Qed.

Lemma tok_space (toks : list string) (c : ascii) (cur rest : string) :
  tok_loop (mkTok toks (String c cur) false EmptyString false) (String SPACE rest)
  = tok_loop (mkTok (toks ++ [String c cur]) EmptyString false EmptyString false) rest.
Proof. reflexivity. Qed.

(** Words, each read by the loop as its own value, joined by one space. *)
Lemma tok_joined (text : string → string) :
  (∀ t toks cur rest,
      tok_loop (mkTok toks cur false EmptyString false) (text t +:+ rest)
      = tok_loop (mkTok toks (cur +:+ t) false EmptyString false) rest) →
  ∀ ts toks,
    Forall (λ t, truthy t = true) ts →
    tok_finish (tok_loop (mkTok toks EmptyString false EmptyString false)
                         (join " " (map text ts)))
    = toks ++ ts.
Proof.
  intros Htext ts. induction ts as [|t ts IH]; intros toks Hall.
  - simpl. rewrite app_nil_r. reflexivity.
  - apply Forall_cons in Hall as [Ht Hts].
    destruct t as [|c t]; [discriminate |].
    destruct ts as [|t' ts].
    + pose proof (Htext (String c t) toks EmptyString EmptyString) as H.
      rewrite append_nil_r in H. simpl. rewrite H. reflexivity.
    + change (join " " (map text (String c t :: t' :: ts)))
        with (text (String c t) +:+ (" " +:+ join " " (map text (t' :: ts)))).
      rewrite Htext, append_nil_l.
      change (" " +:+ join " " (map text (t' :: ts)))
        with (String SPACE (join " " (map text (t' :: ts)))).
      rewrite tok_space, IH by exact Hts.
      rewrite <- app_assoc. reflexivity.
Qed.

Lemma truthy_nonempty (t : string) : truthy t = true ↔ t ≠ EmptyString.
Proof. destruct t; simpl; split; congruence. Qed.

(** The loop does not look at the tokens it has finished, and outside
    quotes it does not look at the remembered quote character. *)
Lemma tok_step_frame (pre : list string) (s1 s2 : TokState) (c : ascii) :
  tokens s1 = pre ++ tokens s2 → current s1 = current s2 →
  inQuote s1 = inQuote s2 → escaped s1 = escaped s2 →
  (inQuote s2 = true → quoteChar s1 = quoteChar s2) →
  tokens (tok_step s1 c) = pre ++ tokens (tok_step s2 c)
  ∧ current (tok_step s1 c) = current (tok_step s2 c)
  ∧ inQuote (tok_step s1 c) = inQuote (tok_step s2 c)
  ∧ escaped (tok_step s1 c) = escaped (tok_step s2 c)
  ∧ (inQuote (tok_step s2 c) = true
     → quoteChar (tok_step s1 c) = quoteChar (tok_step s2 c)).
Proof.
  destruct s1 as [t1 c1 q1 qc1 e1], s2 as [t2 c2 q2 qc2 e2].
  cbn [tokens current inQuote quoteChar escaped].
  intros -> -> -> -> Hqc. unfold tok_step.
  cbn [tokens current inQuote quoteChar escaped].
  destruct e2; [cbn [tokens current inQuote quoteChar escaped]; auto |].
  destruct (Ascii.eqb c BACKSLASH);
    [cbn [tokens current inQuote quoteChar escaped]; auto |].
  destruct q2.
  - rewrite Hqc by reflexivity. rewrite !andb_false_r, !andb_true_r.
    destruct (String.eqb (chr c) qc2);
      cbn [tokens current inQuote quoteChar escaped]; auto.
  - rewrite !andb_false_r, !andb_true_r.
    destruct (Ascii.eqb c SQUOTE || Ascii.eqb c DQUOTE);
      [cbn [tokens current inQuote quoteChar escaped]; auto |].
    destruct (Ascii.eqb c SPACE).
    + destruct (truthy c2); cbn [tokens current inQuote quoteChar escaped].
      * rewrite app_assoc. repeat split; auto; try (intros H; discriminate H).
      * repeat split; auto; try (intros H; discriminate H).
    + cbn [tokens current inQuote quoteChar escaped].
      repeat split; auto; try (intros H; discriminate H).
Qed.

Lemma tok_loop_frame (pre : list string) (text : string) (s1 s2 : TokState) :
  tokens s1 = pre ++ tokens s2 → current s1 = current s2 →
  inQuote s1 = inQuote s2 → escaped s1 = escaped s2 →
  (inQuote s2 = true → quoteChar s1 = quoteChar s2) →
  tok_finish (tok_loop s1 text) = pre ++ tok_finish (tok_loop s2 text).
Proof.
  revert s1 s2. induction text as [|c text IH]; intros s1 s2 Ht Hc Hq He Hqc.
  - simpl. unfold tok_finish. rewrite Hc, Ht.
    destruct (truthy (current s2)); [rewrite app_assoc |]; reflexivity.
  - simpl. destruct (tok_step_frame pre s1 s2 c Ht Hc Hq He Hqc)
      as (H1 & H2 & H3 & H4 & H5).
    apply IH; assumption.
Qed.

End TokenizerFacts.

(** X1.  The token lists the tokenizer can produce are exactly the lists
    without an empty string: no token is ever empty (an empty quoted
    argument is dropped), and every list of non-empty strings is the
    tokenization of some command. *)
Theorem tokenize_image (ts : list string) :
  (∃ cmd, tokenizeCommand cmd = ts) ↔ Forall (λ t, t ≠ EmptyString) ts.
Proof.
  split.
  - intros [cmd <-]. eapply Forall_impl; [apply tokenize_nonempty |].
    intros t. apply truthy_nonempty.
  - intros Hall. exists (join " " (map escaped_text ts)).
    unfold tokenizeCommand, tok_init.
    rewrite (tok_joined escaped_text tok_escaped_text); [reflexivity |].
    eapply Forall_impl; [exact Hall |]. intros t. apply truthy_nonempty.
Qed.

(** X2.  Words made of characters other than space, quotes and backslash,
    none of them empty, joined by single spaces, are tokenized into exactly
    those words. *)
Theorem tokenize_plain_words (words : list string) :
  Forall (λ w, plain_word w = true) words →
  tokenizeCommand (join " " words) = words.
Proof.
  intros Hall. unfold tokenizeCommand, tok_init.
  assert (Hplain : ∀ ws toks,
             Forall (λ w, plain_word w = true) ws →
             tok_finish (tok_loop (mkTok toks EmptyString false EmptyString false)
                                  (join " " ws)) = toks ++ ws).
  { clear. induction ws as [|w ws IH]; intros toks Hall.
    - simpl. rewrite app_nil_r. reflexivity.
    - apply Forall_cons in Hall as [Hw Hws].
      unfold plain_word in Hw. apply andb_true_iff in Hw as [Hne Hok].
      destruct w as [|c w]; [discriminate |].
      destruct ws as [|w' ws].
      + pose proof (tok_plain_text (String c w) toks EmptyString EmptyString Hok) as H.
        rewrite append_nil_r in H. simpl join. rewrite H. reflexivity.
      + change (join " " (String c w :: w' :: ws))
          with (String c w +:+ String SPACE (join " " (w' :: ws))).
        rewrite tok_plain_text by exact Hok. rewrite append_nil_l.
        rewrite tok_space, IH by exact Hws.
        rewrite <- app_assoc. reflexivity. }
  apply (Hplain words [] Hall).
Qed.

(** The words of a session creation. *)
Lemma tokenize_plain_words_witness :
  tokenizeCommand (join " " ["new-session"; "-d"; "-s"; "cea-build"])
  = ["new-session"; "-d"; "-s"; "cea-build"].
Proof.
  apply tokenize_plain_words.
  repeat constructor.
Defined.

(** X3.  When the tokenizer ends a text outside quotes and not after a
    backslash, a space after it separates: the tokens of the text, a space
    and a second text are the tokens of the first followed by the tokens of
    the second. *)
Theorem tokenize_after_space (a b : string) :
  inQuote (tok_loop tok_init a) = false →
  escaped (tok_loop tok_init a) = false →
  tokenizeCommand (a +:+ " " +:+ b) = tokenizeCommand a ++ tokenizeCommand b.
Proof.
  intros Hq He. unfold tokenizeCommand.
  rewrite tok_loop_app.
  change (" " +:+ b) with (String SPACE b).
  cbn [tok_loop].
  destruct (tok_loop tok_init a) as [ts cur iq qc e].
  cbn [inQuote escaped] in Hq, He. subst iq e.
  assert (Hstep : tok_step (mkTok ts cur false qc false) SPACE
                  = mkTok (tok_finish (mkTok ts cur false qc false))
                          EmptyString false qc false).
  { unfold tok_step, tok_finish. cbn [tokens current inQuote quoteChar escaped].
    rewrite andb_false_r.
    destruct cur; reflexivity. }
  rewrite Hstep.
  apply tok_loop_frame; cbn [tokens current inQuote quoteChar escaped tok_init];
    try reflexivity.
  - rewrite app_nil_r. reflexivity.
  - intros H. discriminate H.
Qed.

(** A quoted argument before the space, a chained command after it. *)
Lemma tokenize_after_space_witness :
  tokenizeCommand ("send-keys -t cea-a 'echo hi'" +:+ " " +:+ "Enter")
  = tokenizeCommand "send-keys -t cea-a 'echo hi'" ++ tokenizeCommand "Enter".
Proof.
  apply tokenize_after_space; reflexivity.
Defined.

(** X4.  A command of spaces only, the empty command included, has no
    tokens: the entry point answers it with the empty-command error,
    spawns nothing and leaves the world as it was. *)
Theorem blank_command_rejected (n : nat) (w : World) :
  tokenizeCommand (spaces n) = []
  ∧ ShellInteract.executeTmuxCommand (spaces n) w
    = (Returned (ShellInteract.mkInteract false "Error: Empty tmux command"), w).
Proof.
  assert (H : tokenizeCommand (spaces n) = []).
  { unfold tokenizeCommand.
    assert (E : tok_loop tok_init (spaces n) = tok_init).
    { induction n as [|n IH]; [reflexivity |]. simpl. exact IH. }
    rewrite E. reflexivity. }
  split; [exact H |].
  unfold ShellInteract.executeTmuxCommand, bind_throws, lift, gets. rewrite H.
  reflexivity.
Qed.

(** X5.  The subcommand the classifier returns is one of the tokens, or the
    empty string: it never invents a word.  And when no token is the bare
    [--], it is never an option: the result does not start with a dash. *)
Theorem subcommand_is_a_plain_token (tokens : list string) :
  (findSubcommand tokens = EmptyString ∨ findSubcommand tokens ∈ tokens)
  ∧ ("--" ∉ tokens → startsWith (findSubcommand tokens) "-" = false).
Proof.
  assert (H : ∀ l,
             ((findSubcommand l = EmptyString ∨ findSubcommand l ∈ l)
              ∧ ("--" ∉ l → startsWith (findSubcommand l) "-" = false))
             ∧ ∀ x, (findSubcommand (x :: l) = EmptyString
                     ∨ findSubcommand (x :: l) ∈ x :: l)
                    ∧ ("--" ∉ x :: l
                       → startsWith (findSubcommand (x :: l)) "-" = false)).
  { induction l as [|y l [[IH1 IH1'] IH2]].
    - split; [split; [left; reflexivity | reflexivity] |]. intros x. simpl.
      destruct (String.eqb x "--"); [split; [left |]; reflexivity |].
      destruct (bool_decide _); [split; [left |]; reflexivity |].
      destruct (startsWith x "-") eqn:E; [split; [left |]; reflexivity |].
      split; [right; apply list_elem_of_here | intros _; exact E].
    - split; [apply IH2 |]. intros x.
      change (findSubcommand (x :: y :: l))
        with (if String.eqb x "--" then y
              else if bool_decide (x ∈ globalOptionsWithArgs) then findSubcommand l
              else if startsWith x "-" then findSubcommand (y :: l)
              else x).
      destruct (String.eqb_spec x "--") as [-> | Hx].
      { split; [right; apply list_elem_of_further, list_elem_of_here |].
        intros Hno. exfalso. apply Hno, list_elem_of_here. }
      destruct (bool_decide _).
      { split.
        - destruct IH1 as [E | E]; [left; exact E |].
          right. apply list_elem_of_further, list_elem_of_further, E.
        - intros Hno. apply IH1'. intros Hin.
          apply Hno, list_elem_of_further, list_elem_of_further, Hin. }
      destruct (startsWith x "-") eqn:E.
      { destruct (IH2 y) as [IHa IHb]. split.
        - destruct IHa as [E' | E']; [left; exact E' |].
          right. apply list_elem_of_further, E'.
        - intros Hno. apply IHb. intros Hin.
          apply Hno, list_elem_of_further, Hin. }
      split; [right; apply list_elem_of_here | intros _; exact E]. }
  apply H.
Qed.

(** ** The session registry across calls *)

(** X6.  [findFlagValue] returns the token that follows the first
    occurrence of the flag, and nothing when the flag is missing or is the
    last token. *)
Theorem flag_value_follows_first_flag (tokens : list string) (flag v : string) :
  findFlagValue tokens flag = Some v
  ↔ ∃ pre post, tokens = pre ++ flag :: v :: post ∧ flag ∉ pre.
Proof.
  split.
  - revert v. induction tokens as [|t tokens IH]; intros v Hf; [discriminate |].
    destruct tokens as [|u tokens]; [discriminate |].
    change (findFlagValue (t :: u :: tokens) flag)
      with (if String.eqb t flag then Some u else findFlagValue (u :: tokens) flag) in Hf.
    destruct (String.eqb_spec t flag) as [-> | Hne].
    + injection Hf as <-. exists [], tokens. split; [reflexivity |].
      apply not_elem_of_nil.
    + destruct (IH v Hf) as (pre & post & E & Hpre).
      exists (t :: pre), post. split; [rewrite E; reflexivity |].
      apply not_elem_of_cons. split; [congruence | exact Hpre].
  - intros (pre & post & -> & Hpre).
    induction pre as [|t pre IH].
    + simpl. rewrite String.eqb_refl. reflexivity.
    + apply not_elem_of_cons in Hpre as [Hne Hpre].
      destruct pre as [|t' pre].
      * simpl. apply String.eqb_neq in Hne. rewrite String.eqb_sym, Hne.
        rewrite String.eqb_refl. reflexivity.
      * change (findFlagValue ((t :: t' :: pre) ++ flag :: v :: post) flag)
          with (if String.eqb t flag then Some t'
                else findFlagValue ((t' :: pre) ++ flag :: v :: post) flag).
        apply not_eq_sym, String.eqb_neq in Hne. rewrite Hne.
        apply IH, Hpre.
Qed.

(** X7.  The session name the registry keeps is the target up to its first
    ':' or '.': it is a prefix of the target, holds neither separator, and
    normalizing it again changes nothing. *)
Theorem normalized_name_is_separator_free (name : string) :
  startsWith name (normalizeSessionName name) = true
  ∧ all_chars (λ c, negb (Ascii.eqb c ":" || Ascii.eqb c "."))
              (normalizeSessionName name) = true
  ∧ normalizeSessionName (normalizeSessionName name) = normalizeSessionName name.
Proof.
  rewrite !normalize_truncate.
  assert (Hfree : ∀ s, all_chars (λ c, negb (Ascii.eqb c ":" || Ascii.eqb c "."))
                                 (truncate_at_separator s) = true).
  { induction s as [|c s IH]; [reflexivity |]. cbn [truncate_at_separator].
    destruct (Ascii.eqb c ":" || Ascii.eqb c ".") eqn:E; [reflexivity |].
    cbn [all_chars]. rewrite E, IH. reflexivity. }
  assert (Hid : ∀ s, all_chars (λ c, negb (Ascii.eqb c ":" || Ascii.eqb c ".")) s = true
                     → truncate_at_separator s = s).
  { induction s as [|c s IH]; [reflexivity |]. cbn [all_chars truncate_at_separator].
    intros H. apply andb_true_iff in H as [Hc Hs]. apply negb_true_iff in Hc.
    rewrite Hc, IH by exact Hs. reflexivity. }
  split; [| split].
  - unfold startsWith. induction name as [|c name IH]; [reflexivity |].
    cbn [truncate_at_separator].
    destruct (Ascii.eqb c ":" || Ascii.eqb c "."); [reflexivity |].
    cbn [String.prefix]. destruct (ascii_dec c c); [exact IH | contradiction].
  - apply Hfree.
  - apply Hid, Hfree.
Qed.

Section RegistryFacts.

(** What an uncached conversation tracks is what its record holds. *)
Lemma tracked_uncached (sid : string) (w : World) :
  sessionStates w !! sid = None →
  getOrCreateState sid w
  = let st := match files w !! record_path w sid with
              | Some text => stored_state text
              | None => None
              end in
    match st with
    | Some p => (p, set_sessionStates (<[sid := p]> (sessionStates w)) w)
    | None =>
        (mkState sid [] (clock w (ticks w)),
         set_sessionStates (<[sid := mkState sid [] (clock w (ticks w))]> (sessionStates w))
                           (set_ticks (S (ticks w)) w))
    end.
Proof.
  intros E. unfold getOrCreateState, bind, gets. rewrite E, load_spec. cbv zeta.
  destruct (match files w !! record_path w sid with
            | Some text => _ | None => None end) as [p|]; reflexivity.
Qed.

Lemma NoDup_of_array (a : list string) : NoDup (JSSet.of_array a).
Proof.
  unfold JSSet.of_array.
  assert (H : ∀ acc, NoDup acc → NoDup (foldl (λ acc x, JSSet.add x acc) acc a)).
  { induction a as [|x a IH]; intros acc Hacc; [exact Hacc |].
    simpl. apply IH, NoDup_add, Hacc. }
  apply H, NoDup_nil_2.
Qed.

Lemma stored_state_NoDup (text : string) (st : ShellInteractSessionState) :
  stored_state text = Some st → NoDup (tmuxSessions st).
Proof.
  unfold stored_state. destruct (JSON.parse text) as [v|]; [| discriminate].
  destruct (typed_serialized v) as [d|]; [| discriminate].
  intros [= <-]. apply NoDup_of_array.
Qed.

(** The world after the hook, field by field, whether it returned or
    threw. *)
Lemma hook_world (sid tmuxCommand toolOutput : string) (w : World) :
  let st := (getOrCreateState sid w).1 in
  let w' := (shellInteractHook sid tmuxCommand toolOutput w).2 in
  homedir w' = homedir w ∧ clock w' = clock w ∧ child w' = child w
  ∧ spawned w' = spawned w
  ∧ currentSessionId w' = currentSessionId w ∧ tmuxPath w' = tmuxPath w
  ∧ (∀ sid', sid' ≠ sid → sessionStates w' !! sid' = sessionStates w !! sid')
  ∧ (∀ p, p ≠ record_path w (sessionID st) → files w' !! p = files w !! p).
Proof.
  cbv zeta.
  destruct (startsWith toolOutput "Error:") eqn:Herr.
  { unfold shellInteractHook. rewrite Herr. simpl. repeat split; reflexivity. }
  rewrite (hook_eq _ _ _ _ Herr). cbv zeta.
  destruct (getOrCreateState_world sid w) as [n Hw1].
  destruct (getOrCreateState sid w) as [st w1]. simpl in Hw1. subst w1.
  simpl fst.
  destruct (mutate _ _ _ _ (tmuxSessions st)) as [sessions changed].
  destruct changed; cbn [fst snd].
  - match goal with
    | |- context [saveShellInteractSessionState ?s ?x] =>
        destruct (save_world s x) as (ds & _ & Hsaved);
        destruct (saveShellInteractSessionState s x).1; rewrite Hsaved
    end.
    + simpl. repeat split; try reflexivity.
      * intros sid' Hne. rewrite !lookup_insert_ne by congruence. reflexivity.
      * intros p Hp. rewrite lookup_insert_ne; [reflexivity |].
        intros E. apply Hp. rewrite <- E. reflexivity.
    + simpl. repeat split; try reflexivity.
      intros sid' Hne. rewrite !lookup_insert_ne by congruence. reflexivity.
  - simpl. repeat split; try reflexivity.
    intros sid' Hne. rewrite lookup_insert_ne by congruence. reflexivity.
Qed.



End RegistryFacts.

Section RegistryRuns.

Lemma record_path_homedir (w w' : World) (sid : string) :
  homedir w' = homedir w → record_path w' sid = record_path w sid.
Proof. intros H. unfold record_path, STORAGE_DIR. rewrite H. reflexivity. Qed.

(** The hook on a command that did not fail: what it leaves in memory,
    and on disk when it returned. *)
Lemma hook_after (sid tmuxCommand toolOutput : string) (w : World) :
  startsWith toolOutput "Error:" = false →
  let tokens := tokenizeCommand tmuxCommand in
  let sub := findSubcommand tokens in
  let st := (getOrCreateState sid w).1 in
  let m := mutate (String.eqb sub "new-session") (String.eqb sub "kill-session")
                  (String.eqb sub "kill-server")
                  (extractSessionNameFromTokens tokens sub) (tmuxSessions st) in
  let run := shellInteractHook sid tmuxCommand toolOutput w in
  ∃ st',
    sessionStates run.2 !! sid = Some st'
    ∧ sessionID st' = sessionID st
    ∧ tmuxSessions st' = m.1
    ∧ homedir run.2 = homedir w
    ∧ (if m.2
       then ∀ r, run.1 = Returned r →
                 files run.2 !! record_path w (sessionID st)
                 = Some (JSON.stringify
                           (serialized_value
                              (mkSerialized (sessionID st) m.1 (updatedAt st'))))
       else files run.2 = files w ∧ m.1 = tmuxSessions st).
Proof.
  intros Herr. cbv zeta. rewrite (hook_eq _ _ _ _ Herr). cbv zeta.
  pose proof (getOrCreateState_caches sid w) as Hc.
  destruct (getOrCreateState sid w) as [st w1]. destruct Hc as (Hst & Hhome & Hfiles).
  simpl fst.
  destruct (mutate _ _ _ _ (tmuxSessions st)) as [sessions changed] eqn:Hm.
  simpl fst. simpl snd.
  destruct changed.
  - cbv zeta.
    set (st' := touched st sessions (clock w1 (ticks w1))).
    set (w2 := set_sessionStates (<[sid := st']> (sessionStates w1))
                                 (set_ticks (S (ticks w1)) w1)).
    destruct (save_world st' w2) as (ds & _ & Hsaved).
    exists st'.
    destruct (saveShellInteractSessionState st' w2) as [[[]|code] w3];
      simpl in Hsaved; subst w3; simpl fst; simpl snd.
    + split; [simpl; apply lookup_insert_eq |].
      repeat split; try reflexivity; try exact Hhome.
      intros r _. simpl files.
      change (record_path w2 (sessionID st)) with (record_path w1 (sessionID st)).
      rewrite (record_path_homedir w w1 _ Hhome). apply lookup_insert_eq.
    + split; [simpl; apply lookup_insert_eq |].
      repeat split; try reflexivity; try exact Hhome.
      intros r H. discriminate H.
  - apply mutate_unchanged in Hm. subst sessions. exists st.
    repeat split; try reflexivity; assumption.
Qed.

Lemma mutate_NoDup (a b c : bool) (name : option string) (s : list string) :
  NoDup s → NoDup (mutate a b c name s).1.
Proof.
  intros Hs. unfold mutate.
  repeat match goal with
         | |- context [if ?b then _ else _] => destruct b
         end; simpl; auto using NoDup_add, NoDup_delete, NoDup_nil_2.
Qed.

(** What a restarted process tracks depends on the disk only. *)
Lemma tracked_restarted (sid : string) (w : World) :
  tracked sid (restarted w)
  = match files w !! record_path w sid with
    | Some text =>
        match stored_state text with
        | Some p => tmuxSessions p
        | None => []
        end
    | None => []
    end.
Proof.
  unfold tracked. rewrite tracked_uncached by apply lookup_empty.
  change (files (restarted w)) with (files w).
  change (record_path (restarted w) sid) with (record_path w sid).
  cbv zeta.
  destruct (files w !! record_path w sid) as [text|]; [| reflexivity].
  destruct (stored_state text); reflexivity.
Qed.

End RegistryRuns.

(** X8.  The tracked names keep the reserved prefix: when every name a
    conversation tracks starts with [cea-], so does every name it tracks
    after the hook has run, whatever the command and its output. *)
Theorem tracked_names_keep_prefix (sid tmuxCommand toolOutput : string) (w : World) :
  Forall (λ n, startsWith n CEA_SESSION_PREFIX = true) (tracked sid w) →
  Forall (λ n, startsWith n CEA_SESSION_PREFIX = true)
         (tracked sid (shellInteractHook sid tmuxCommand toolOutput w).2).
Proof.
  intros Hall.
  destruct (startsWith toolOutput "Error:") eqn:Herr.
  { unfold shellInteractHook. rewrite Herr. exact Hall. }
  rewrite (tracked_after _ _ _ _ Herr). cbv zeta.
  destruct (created_name _ _) as [n|] eqn:Ec.
  - apply Forall_forall. intros x Hx. apply elem_of_add in Hx as [-> | Hx].
    + apply (created_name_prefixed _ _ _ Ec).
    + revert x Hx. apply Forall_forall, Hall.
  - destruct (killed_name _ _) as [n|].
    + apply Forall_forall. intros x Hx. apply elem_of_delete in Hx as [_ Hx].
      revert x Hx. apply Forall_forall, Hall.
    + destruct (String.eqb _ "kill-server"); [constructor | exact Hall].
Qed.

(** A second session is created beside a tracked one. *)
Lemma tracked_names_keep_prefix_witness :
  Forall (λ n, startsWith n CEA_SESSION_PREFIX = true)
         (tracked "conv-1"
            (shellInteractHook "conv-1" "new-session -d -s cea-b" "ok"
                               (world_tracking "conv-1" ["cea-a"])).2).
Proof.
  apply tracked_names_keep_prefix.
  repeat constructor.
Defined.

(** X9.  The hook spawns no process, leaves the states of the other
    conversations in memory as they are, and changes no file but the record
    at the path of its state's own sessionID. *)
Theorem hook_touches_own_record_only
    (sid tmuxCommand toolOutput : string) (w : World) :
  let st := (getOrCreateState sid w).1 in
  let w' := (shellInteractHook sid tmuxCommand toolOutput w).2 in
  spawned w' = spawned w
  ∧ (∀ sid', sid' ≠ sid → sessionStates w' !! sid' = sessionStates w !! sid')
  ∧ (∀ p, p ≠ record_path w (sessionID st) → files w' !! p = files w !! p).
Proof.
  cbv zeta.
  destruct (hook_world sid tmuxCommand toolOutput w)
    as (_ & _ & _ & Hs & _ & _ & Hm & Hf).
  split; [exact Hs |]. split; [exact Hm | exact Hf].
Qed.

(** X10.  Memory and disk stay consistent across a hook that returns:
    when a conversation's state carries its own id, its set has no
    duplicates and a restarted process would track the same sessions, the
    hook returns on a store that can take the record of the conversation,
    and whenever it returns the same three hold afterwards.  So what the
    registry tracks survives the loss of the in-memory cache, as long as
    the save did not throw. *)
Theorem registry_stays_consistent
    (sid tmuxCommand toolOutput : string) (w : World) :
  consistent sid w →
  let run := shellInteractHook sid tmuxCommand toolOutput w in
  (storable w sid = true → ∃ r, run.1 = Returned r)
  ∧ (∀ r, run.1 = Returned r → consistent sid run.2).
Proof.
  intros (Hid & Hnd & Hre). cbv zeta.
  destruct (startsWith toolOutput "Error:") eqn:Herr.
  { unfold shellInteractHook. rewrite Herr. simpl.
    split; [intros _; eexists; reflexivity |].
    intros r _. split; [| split]; assumption. }
  split.
  { destruct (hook_run sid tmuxCommand toolOutput w Herr) as (_ & _ & Hstore & _).
    rewrite Hid in Hstore. exact Hstore. }
  intros r Hret.
  destruct (hook_after sid tmuxCommand toolOutput w Herr)
    as (st' & Hc & Hsid & Hset & Hhome & Hdisk).
  set (run := shellInteractHook sid tmuxCommand toolOutput w) in *.
  set (m := mutate _ _ _ _ _) in *.
  assert (Hm : NoDup m.1) by apply mutate_NoDup, Hnd.
  unfold consistent.
  rewrite (tracked_cached _ _ _ Hc), (getOrCreateState_cached _ _ _ Hc).
  simpl fst. rewrite Hsid, Hset.
  split; [exact Hid |]. split; [exact Hm |].
  rewrite tracked_restarted, (record_path_homedir _ _ _ Hhome).
  destruct m.2.
  - specialize (Hdisk r Hret). rewrite Hid in Hdisk.
    rewrite Hdisk, stored_state_stringify. simpl.
    apply of_array_to_array, Hm.
  - destruct Hdisk as [Hfiles Hsame]. rewrite Hfiles, Hsame.
    rewrite <- tracked_restarted. exact Hre.
Qed.

(** A creation recorded by a process that had nothing in memory and
    nothing on disk. *)
Lemma registry_stays_consistent_witness :
  consistent "conv-1"
    (shellInteractHook "conv-1" "new-session -d -s cea-build" "ok" fresh_world).2.
Proof.
  assert (Hc : consistent "conv-1" fresh_world).
  { split; [reflexivity |]. split; [constructor | reflexivity]. }
  destruct (registry_stays_consistent "conv-1" "new-session -d -s cea-build" "ok"
              fresh_world Hc) as [Hret Hafter].
  destruct (Hret eq_refl) as [r Hr]. exact (Hafter r Hr).
Defined.


(** X12.  Loading never changes the world and finds nothing where there
    is no file.  A file that holds the JSON text of a record of the
    declared shape (a string id, an array of strings, an integer time) loads
    as that record's id and time, with its names in the order of their
    first occurrence and without duplicates: repeated names in a record
    collapse. *)
Theorem load_is_read_only (sid : string) (w : World) :
  (loadShellInteractSessionState sid w).2 = w
  ∧ (files w !! record_path w sid = None
     → (loadShellInteractSessionState sid w).1 = None)
  ∧ ∀ d, files w !! record_path w sid = Some (JSON.stringify (serialized_value d))
         → (loadShellInteractSessionState sid w).1
           = Some (mkState (ser_sessionID d) (JSSet.of_array (ser_tmuxSessions d))
                           (ser_updatedAt d))
           ∧ NoDup (JSSet.of_array (ser_tmuxSessions d)).
Proof.
  rewrite load_spec. simpl. split; [reflexivity |]. split.
  - intros ->. reflexivity.
  - intros d ->. rewrite stored_state_stringify.
    split; [reflexivity | apply NoDup_of_array].
Qed.

(** ** The keystroke entry point *)
Section EntryPoint.

Lemma prefix_append (a b : string) : String.prefix a (a +:+ b) = true.
Proof.
  induction a as [|c a IH]; [destruct b; reflexivity |].
  rewrite append_cons. cbn [String.prefix].
  destruct (ascii_dec c c); [exact IH | contradiction].
Qed.

(** The hook only appends to the output it is given. *)
Lemma hook_output_appends (sid tmuxCommand toolOutput : string) (w : World)
    (r : ToolExecuteResult) :
  (shellInteractHook sid tmuxCommand toolOutput w).1 = Returned r →
  ∃ suffix, Hook.output r = toolOutput +:+ suffix.
Proof.
  destruct (startsWith toolOutput "Error:") eqn:Herr.
  { unfold shellInteractHook. rewrite Herr. intros [= <-].
    exists EmptyString. simpl. rewrite append_nil_r. reflexivity. }
  intros Hret.
  destruct (hook_run sid tmuxCommand toolOutput w Herr) as (_ & _ & _ & Hrun).
  destruct (Hrun r Hret) as (_ & Hout & _). rewrite Hout.
  match goal with
  | |- context [match ?o with Some _ => _ | None => _ end] => destruct o as [text|]
  end.
  - destruct (truthy text); [exists text; reflexivity |].
    exists EmptyString. rewrite append_nil_r. reflexivity.
  - exists EmptyString. rewrite append_nil_r. reflexivity.
Qed.

(** The entry point on a command that passes the checks: the child is
    spawned and its outcome decides; what the hook throws leaves the
    entry point unresolved. *)
Lemma execute_accepted (tmuxCommand : string) (w : World) :
  accepted tmuxCommand →
  ShellInteract.executeTmuxCommand tmuxCommand w
  = let w1 := set_spawned (spawned w ++ [bash_child w tmuxCommand]) w in
    match child w (bash_child w tmuxCommand).1 (bash_child w tmuxCommand).2 with
    | SpawnFailed message =>
        (Returned (ShellInteract.mkInteract false ("Error: " +:+ message)), w1)
    | Exited code stdout stderr timedOut =>
        if timedOut then
          (Returned
             (ShellInteract.mkInteract false
                ("Error: Timeout after " +:+ of_Z ShellInteract.DEFAULT_TIMEOUT_MS
                 +:+ "ms")),
           w1)
        else if negb (bool_decide (code = Some 0)) then
          (Returned
             (ShellInteract.mkInteract false
                ("Error: " +:+ or_else (trim stderr)
                                 ("Command failed with exit code "
                                  +:+ ShellInteract.code_text code))), w1)
        else
          match found (currentSessionId w) with
          | Some sid =>
              let run := shellInteractHook sid tmuxCommand
                           (or_else stdout "(no output)") w1 in
              (match run.1 with
               | Returned result =>
                   Returned (ShellInteract.mkInteract true (Hook.output result))
               | Threw code => Threw code
               end, run.2)
          | None =>
              (Returned (ShellInteract.mkInteract true (or_else stdout "(no output)")),
               w1)
          end
    end.
Proof.
  intros (part0 & rest & Htok & Hok). cbv zeta.
  unfold ShellInteract.executeTmuxCommand.
  unfold bind_throws at 1. unfold lift at 1. unfold gets at 1. rewrite Htok.
  rewrite bool_decide_eq_false_2 by exact Hok.
  unfold bind_throws at 1. unfold lift at 1.
  unfold spawn, bash_child. cbn [fst snd].
  destruct (child w "/bin/bash" _) as [code stdout stderr timedOut | message];
    [| reflexivity].
  destruct timedOut; [reflexivity |].
  destruct (negb (bool_decide (code = Some 0))); [reflexivity |].
  unfold bind_throws at 1. unfold lift at 1. unfold getCurrentSessionId, gets.
  cbn [currentSessionId set_spawned].
  destruct (found (currentSessionId w)) as [sid|]; [| reflexivity].
  unfold bind_throws.
  destruct (shellInteractHook sid tmuxCommand _ _) as [[r|code'] w2]; reflexivity.
Qed.

Lemma accepted_or_not (tmuxCommand : string) :
  accepted tmuxCommand
  ∨ tokenizeCommand tmuxCommand = []
  ∨ ∃ part0 rest, tokenizeCommand tmuxCommand = part0 :: rest
                  ∧ toLowerCase part0 ∈ ShellInteract.BLOCKED_TMUX_SUBCOMMANDS.
Proof.
  destruct (tokenizeCommand tmuxCommand) as [|part0 rest] eqn:E; [auto |].
  destruct (decide (toLowerCase part0 ∈ ShellInteract.BLOCKED_TMUX_SUBCOMMANDS)) as [H|H].
  - right. right. eauto.
  - left. exists part0, rest. auto.
Qed.

Lemma execute_not_accepted (tmuxCommand : string) (w : World) :
  ¬ accepted tmuxCommand →
  ∃ message,
    ShellInteract.executeTmuxCommand tmuxCommand w
    = (Returned (ShellInteract.mkInteract false ("Error:" +:+ message)), w).
Proof.
  intros Hno. destruct (accepted_or_not tmuxCommand) as [H | [H | H]];
    [contradiction | |].
  - eexists. unfold ShellInteract.executeTmuxCommand, bind_throws, lift, gets.
    rewrite H. reflexivity.
  - destruct H as (part0 & rest & Htok & Hb). eexists.
    unfold ShellInteract.executeTmuxCommand, bind_throws, lift, gets. rewrite Htok.
    rewrite bool_decide_eq_true_2 by exact Hb.
    unfold ShellInteract.blocked_message. reflexivity.
Qed.

Lemma not_accepted (tmuxCommand : string) :
  tokenizeCommand tmuxCommand = []
  ∨ (∃ part0 rest, tokenizeCommand tmuxCommand = part0 :: rest
                   ∧ toLowerCase part0 ∈ ShellInteract.BLOCKED_TMUX_SUBCOMMANDS) →
  ¬ accepted tmuxCommand.
Proof.
  intros Hno (p & r & Htok & Hok).
  destruct Hno as [E | (p' & r' & E & Hb)]; rewrite E in Htok.
  - discriminate.
  - injection Htok as <- <-. contradiction.
Qed.

End EntryPoint.

(** X13.  Every failure the entry point returns is reported with an output
    that starts with [Error:], and a failure leaves the registry alone: no
    state is cached or changed, no file written or removed, no directory
    made, the clock not read.  A command that failed is never recorded. *)
Theorem failure_is_reported_and_not_recorded
    (tmuxCommand : string) (w : World) (r : ShellInteract.ShellInteractResult) :
  let w' := (ShellInteract.executeTmuxCommand tmuxCommand w).2 in
  (ShellInteract.executeTmuxCommand tmuxCommand w).1 = Returned r →
  ShellInteract.success r = false →
  startsWith (ShellInteract.output r) "Error:" = true
  ∧ sessionStates w' = sessionStates w ∧ files w' = files w
  ∧ dirs w' = dirs w ∧ ticks w' = ticks w.
Proof.
  cbv zeta.
  destruct (accepted_or_not tmuxCommand) as [Hacc | Hno].
  - rewrite (execute_accepted _ _ Hacc). cbv zeta.
    destruct (child w _ _) as [code stdout stderr timedOut | message];
      [| intros [= <-] _; repeat split; reflexivity].
    destruct timedOut; [intros [= <-] _; repeat split; reflexivity |].
    destruct (negb (bool_decide (code = Some 0)));
      [intros [= <-] _; repeat split; reflexivity |].
    destruct (found (currentSessionId w)); cbn [fst snd].
    + destruct (shellInteractHook _ _ _ _).1; intros [= <-]; discriminate.
    + intros [= <-]; discriminate.
  - destruct (execute_not_accepted _ w (not_accepted _ Hno)) as [message ->].
    intros [= <-] _. split; [apply prefix_append | repeat split; reflexivity].
Qed.

(** A creation that the multiplexer refuses. *)
Lemma failure_is_reported_and_not_recorded_witness :
  let run := ShellInteract.executeTmuxCommand "new-session -d -s cea-build"
               (failing_world "duplicate session: cea-build") in
  run.1 = Returned (ShellInteract.mkInteract false "Error: duplicate session: cea-build")
  ∧ sessionStates run.2 = ∅ ∧ files run.2 = ∅ ∧ dirs run.2 = ∅ ∧ ticks run.2 = 0%nat.
Proof.
  cbv zeta. split; [vm_compute; reflexivity |].
  refine (proj2 (failure_is_reported_and_not_recorded "new-session -d -s cea-build"
                   (failing_world "duplicate session: cea-build")
                   (ShellInteract.mkInteract false "Error: duplicate session: cea-build")
                   _ eq_refl)).
  vm_compute. reflexivity.
Defined.

(** X14.  A command that passes the checks of the entry point spawns
    exactly one child: bash running the cached multiplexer path, or [tmux]
    when none is cached, a space and the command string as it was given;
    the hook that may run afterwards spawns nothing. *)
Theorem accepted_command_spawns_once (tmuxCommand : string) (w : World) :
  accepted tmuxCommand →
  spawned (ShellInteract.executeTmuxCommand tmuxCommand w).2
  = spawned w ++ [bash_child w tmuxCommand].
Proof.
  intros Hacc. rewrite (execute_accepted _ _ Hacc). cbv zeta.
  destruct (child w _ _) as [code stdout stderr timedOut | message];
    [| reflexivity].
  destruct timedOut; [reflexivity |].
  destruct (negb (bool_decide (code = Some 0))); [reflexivity |].
  destruct (found (currentSessionId w)) as [sid|]; [| reflexivity].
  cbn [snd].
  match goal with
  | |- context [shellInteractHook ?a ?b ?c ?x] =>
      destruct (hook_world a b c x) as (_ & _ & _ & Hs & _)
  end.
  rewrite Hs. reflexivity.
Qed.

(** A creation while no path to the multiplexer is cached. *)
Lemma accepted_command_spawns_once_witness :
  spawned (ShellInteract.executeTmuxCommand "new-session -d -s cea-build"
             (answering_world EmptyString)).2
  = [("/bin/bash", ["-c"; "tmux new-session -d -s cea-build"])].
Proof.
  apply (accepted_command_spawns_once "new-session -d -s cea-build"
           (answering_world EmptyString)).
  exists "new-session", ["-d"; "-s"; "cea-build"]. split; [reflexivity |].
  apply (bool_decide_unpack _). vm_compute. exact I.
Defined.

(** X15.  The entry point returns a success only when the command passed
    the checks and its child exited with code 0 before the timeout; its
    output then begins with what the child printed, or with [(no output)]
    when it printed nothing, and anything after that was appended by the
    hook. *)
Theorem success_returns_child_output
    (tmuxCommand : string) (w : World) (r : ShellInteract.ShellInteractResult) :
  (ShellInteract.executeTmuxCommand tmuxCommand w).1 = Returned r →
  ShellInteract.success r = true →
  accepted tmuxCommand
  ∧ ∃ stdout stderr suffix,
      child w (bash_child w tmuxCommand).1 (bash_child w tmuxCommand).2
      = Exited (Some 0) stdout stderr false
      ∧ ShellInteract.output r = or_else stdout "(no output)" +:+ suffix.
Proof.
  destruct (accepted_or_not tmuxCommand) as [Hacc | Hno].
  - rewrite (execute_accepted _ _ Hacc). cbv zeta. intros Hr Hs.
    split; [exact Hacc |].
    destruct (child w _ _) as [code stdout stderr timedOut | message];
      [| injection Hr as <-; discriminate].
    destruct timedOut; [injection Hr as <-; discriminate |].
    destruct (bool_decide (code = Some 0)) eqn:Ecode;
      [| injection Hr as <-; discriminate].
    apply bool_decide_eq_true_1 in Ecode. subst code. simpl negb in *. cbv iota in *.
    exists stdout, stderr.
    destruct (found (currentSessionId w)) as [sid|].
    + cbn [fst] in Hr.
      destruct (shellInteractHook sid tmuxCommand _ _).1 as [result|code] eqn:Eh;
        [| discriminate Hr].
      injection Hr as <-. cbn [ShellInteract.output].
      destruct (hook_output_appends _ _ _ _ _ Eh) as [suffix ->].
      exists suffix. split; reflexivity.
    + injection Hr as <-. exists EmptyString. rewrite append_nil_r.
      split; reflexivity.
  - destruct (execute_not_accepted _ w (not_accepted _ Hno)) as [message ->].
    intros [= <-]. discriminate.
Qed.

(** A creation that succeeds without printing anything. *)
Lemma success_returns_child_output_witness :
  accepted "new-session -d -s cea-build"
  ∧ ∃ stdout stderr suffix,
      Exited (Some 0) EmptyString EmptyString false
      = Exited (Some 0) stdout stderr false
      ∧ ShellInteract.output
          (ShellInteract.mkInteract true
             ("(no output)" +:+ reminder_text ["cea-build"]
              +:+ guidance_text "cea-build"))
        = or_else stdout "(no output)" +:+ suffix.
Proof.
  apply (success_returns_child_output "new-session -d -s cea-build"
           (answering_world EmptyString)).
  - vm_compute. reflexivity.
  - reflexivity.
Defined.

(** ** The output stall detector *)
Section StallFacts.
Import StallDetector.

Lemma sample_loop_log (pause : Z → T unit) (ev : Z → Event)
    (sessionId : string) (sampleCount sampleIntervalMs : Z) :
  (∀ ms t, (pause ms t).2 = mkTerminal (pane t) (shots t) (log t ++ [ev ms])) →
  ∀ (todo : nat) (i : Z) (samples : list string) (t : Terminal),
    todo = 0%nat ∨ Z.of_nat todo = sampleCount - i →
    log (sample_loop pause sessionId sampleCount sampleIntervalMs todo i samples t).2
    = log t ++ schedule sessionId (ev sampleIntervalMs) todo.
Proof.
  intros Hpause. induction todo as [|todo IH]; intros i samples t Hi.
  - simpl. rewrite app_nil_r. reflexivity.
  - destruct Hi as [Hi | Hi]; [discriminate |].
    cbn [sample_loop]. rewrite capturePane_spec.
    set (t1 := mkTerminal _ _ _).
    destruct (Z.ltb_spec i (sampleCount - 1)) as [Hlt | Hge].
    + destruct (pause sampleIntervalMs t1) as [u t2] eqn:E.
      pose proof (Hpause sampleIntervalMs t1) as Hp. rewrite E in Hp. simpl in Hp.
      rewrite IH by (right; lia). subst t2. subst t1. simpl log.
      destruct todo as [|todo]; [lia |].
      cbn [schedule]. rewrite <- !app_assoc. reflexivity.
    + rewrite IH by (right; lia). subst t1. simpl log.
      destruct todo as [|todo]; [| lia].
      cbn [schedule]. rewrite <- !app_assoc. reflexivity.
Qed.

Lemma to_nat_todo (n : Z) : Z.to_nat n = 0%nat ∨ Z.of_nat (Z.to_nat n) = n - 0.
Proof. destruct (Z.le_gt_cases n 0); [left | right]; lia. Qed.

Lemma detect_samples (options : StallDetectorOptions) (t : Terminal) :
  (detectOutputStall options t).1
  = classify (sampled t (opt_sessionId options)
                (Z.to_nat (default 3 (opt_sampleCount options))))
             (default 3 (opt_sampleCount options))
             (default 500 (opt_sampleIntervalMs options)).
Proof.
  unfold detectOutputStall.
  destruct (sample_loop _ _ _ _ _ _ _ _) as [samples t'] eqn:E.
  apply (f_equal fst) in E. rewrite sample_loop_samples in E by apply sleep_is_pause.
  simpl in E. subst samples. reflexivity.
Qed.

Lemma detect_sync_samples (sessionId : string) (n i : option Z) (t : Terminal) :
  (detectOutputStallSync sessionId n i t).1
  = classify (sampled t sessionId (Z.to_nat (default 2 n)))
             (default 2 n) (default 300 i).
Proof.
  unfold detectOutputStallSync.
  destruct (sample_loop _ _ _ _ _ _ _ _) as [samples t'] eqn:E.
  apply (f_equal fst) in E. rewrite sample_loop_samples in E by apply sleepSync_is_pause.
  simpl in E. subst samples. reflexivity.
Qed.

(** Each adjacent pair is identical or differs. *)
Lemma pairs_partition (samples : list string) :
  (adjacent_identical_pairs samples + adjacent_differing_pairs samples
   = length samples - 1)%nat.
Proof.
  unfold adjacent_identical_pairs, adjacent_differing_pairs.
  assert (H : ∀ l : list nat,
             (length (filter (λ i, samples !! i = samples !! S i) l)
              + length (filter (λ i, samples !! i ≠ samples !! S i) l)
              = length l)%nat).
  { induction l as [|x l IH]; [reflexivity |].
    rewrite !filter_cons.
    destruct (decide (samples !! x = samples !! S x)) as [E | E].
    - rewrite decide_False by (intros H; apply H, E). simpl. lia.
    - rewrite decide_True by exact E. simpl. lia. }
  rewrite H, length_seq. reflexivity.
Qed.

Lemma length_sampled (t : Terminal) (sessionId : string) (n : nat) :
  length (sampled t sessionId n) = n.
Proof. unfold sampled. rewrite length_map, length_seq. reflexivity. Qed.

Lemma sampled_fail (t : Terminal) (sessionId : string) (n : nat) :
  captures_fail t sessionId → sampled t sessionId n = replicate n EmptyString.
Proof.
  intros Hfail. unfold sampled.
  assert (H : ∀ l, map (λ k, shot_text (pane t (shots t + k)%nat sessionId)) l
                   = replicate (length l) EmptyString).
  { induction l as [|k l IH]; [reflexivity |]. simpl. rewrite IH. f_equal.
    unfold shot_text. specialize (Hfail k).
    destruct (pane t (shots t + k)%nat sessionId).1 as [[| |]|]; congruence. }
  rewrite H, length_seq. reflexivity.
Qed.

Lemma count_unchanged_replicate (x : string) (n : nat) :
  count_unchanged (replicate (S n) x) = Z.of_nat n.
Proof.
  induction n as [|n IH]; [reflexivity |].
  change (count_unchanged (replicate (S (S n)) x))
    with ((if String.eqb x x then 1 else 0) + count_unchanged (replicate (S n) x)).
  rewrite IH, String.eqb_refl. lia.
Qed.

Lemma suspending_log (sessionId : string) (n ms : option Z) (t : Terminal) :
  log (suspending sessionId n ms t).2
  = log t ++ schedule sessionId (Timer (default 500 ms)) (Z.to_nat (default 3 n)).
Proof.
  unfold suspending, detectOutputStall.
  cbn [opt_sessionId opt_sampleCount opt_sampleIntervalMs].
  pose proof (sample_loop_log sleep Timer sessionId
                (default 3 n) (default 500 ms) (λ _ _, eq_refl)
                (Z.to_nat (default 3 n)) 0 [] t (to_nat_todo _)) as H.
  destruct (sample_loop _ _ _ _ _ _ _ _) as [samples t'].
  exact H.
Qed.

Lemma blocking_log (sessionId : string) (n ms : option Z) (t : Terminal) :
  log (blocking sessionId n ms t).2
  = log t ++ schedule sessionId (SleepChild (default 300 ms)) (Z.to_nat (default 2 n)).
Proof.
  unfold blocking, detectOutputStallSync.
  pose proof (sample_loop_log sleepSync SleepChild
                sessionId (default 2 n) (default 300 ms) (λ _ _, eq_refl)
                (Z.to_nat (default 2 n)) 0 [] t (to_nat_todo _)) as H.
  destruct (sample_loop _ _ _ _ _ _ _ _) as [samples t'].
  exact H.
Qed.

End StallFacts.

(** X16.  A detection with [n] samples captures the pane [n] times and
    pauses for the interval between two captures, not after the last one:
    the suspending entry point waits on a timer, the blocking one on a
    sleeping child.  A sample count of zero or less captures nothing. *)
Theorem stall_sampling_schedule
    (sessionId : string) (n ms : option Z) (t : StallDetector.Terminal) :
  StallDetector.log (suspending sessionId n ms t).2
  = StallDetector.log t
    ++ schedule sessionId (StallDetector.Timer (default 500 ms))
                (Z.to_nat (default 3 n))
  ∧ StallDetector.log (blocking sessionId n ms t).2
    = StallDetector.log t
      ++ schedule sessionId (StallDetector.SleepChild (default 300 ms))
                  (Z.to_nat (default 2 n)).
Proof.
  split; [apply suspending_log | apply blocking_log].
Qed.

(** X17.  For a detection with N >= 1 samples the unchanged count lies
    between 0 and N - 1, and the number the detail text of an active result
    gives as changed samples, N minus the unchanged count, is one more than
    the number of adjacent pairs that differ: it is never below 2. *)
Theorem stall_detail_counts (options : StallDetector.StallDetectorOptions)
    (t : StallDetector.Terminal) :
  let N := default 3 (StallDetector.opt_sampleCount options) in
  let samples := sampled t (StallDetector.opt_sessionId options) (Z.to_nat N) in
  let r := (StallDetector.detectOutputStall options t).1 in
  1 <= N →
  0 <= StallDetector.unchangedCount r <= N - 1
  ∧ N - StallDetector.unchangedCount r
    = 1 + Z.of_nat (adjacent_differing_pairs samples)
  ∧ (StallDetector.isStalled r = false →
     2 <= N - StallDetector.unchangedCount r
     ∧ StallDetector.detail r
       = "Output active: " +:+ of_Z (N - StallDetector.unchangedCount r)
         +:+ " of " +:+ of_Z N +:+ " samples showed changes").
Proof.
  cbv zeta. intros HN. rewrite detect_samples.
  set (N := default 3 (StallDetector.opt_sampleCount options)) in *.
  set (samples := sampled t _ _).
  unfold StallDetector.classify.
  cbn [StallDetector.unchangedCount StallDetector.isStalled StallDetector.detail].
  rewrite count_unchanged_pairs.
  pose proof (pairs_partition samples) as Hp.
  assert (Hlen : length samples = Z.to_nat N) by apply length_sampled.
  split; [lia |]. split; [lia |].
  intros Hs. rewrite Hs. split; [| reflexivity].
  apply Z.eqb_neq in Hs. lia.
Qed.

(** Three captures of which the last differs. *)
Lemma stall_detail_counts_witness :
  let r := (StallDetector.detectOutputStall
              (StallDetector.mkOptions None None "cea-x")
              (terminal_showing ["A"; "A"; "B"])).1 in
  0 <= StallDetector.unchangedCount r <= 3 - 1
  ∧ 3 - StallDetector.unchangedCount r
    = 1 + Z.of_nat (adjacent_differing_pairs ["A"; "A"; "B"])
  ∧ (StallDetector.isStalled r = false →
     2 <= 3 - StallDetector.unchangedCount r
     ∧ StallDetector.detail r = "Output active: 2 of 3 samples showed changes").
Proof.
  apply (stall_detail_counts (StallDetector.mkOptions None None "cea-x")
           (terminal_showing ["A"; "A"; "B"])).
  simpl. lia.
Defined.

(** X18.  A session whose captures all fail looks stalled: each failed
    capture is an empty sample, so for N >= 1 samples the result is stalled
    with an empty last output, and with high confidence when N >= 3. *)
Theorem failed_captures_look_stalled
    (options : StallDetector.StallDetectorOptions) (t : StallDetector.Terminal) :
  let N := default 3 (StallDetector.opt_sampleCount options) in
  let r := (StallDetector.detectOutputStall options t).1 in
  captures_fail t (StallDetector.opt_sessionId options) →
  1 <= N →
  StallDetector.isStalled r = true
  ∧ StallDetector.unchangedCount r = N - 1
  ∧ StallDetector.lastOutput r = EmptyString
  ∧ (3 <= N → StallDetector.confidence r = StallDetector.high).
Proof.
  cbv zeta. intros Hfail HN. rewrite detect_samples.
  rewrite (sampled_fail _ _ _ Hfail).
  set (N := default 3 (StallDetector.opt_sampleCount options)) in *.
  destruct (Z.to_nat N) as [|n] eqn:En; [lia |].
  unfold StallDetector.classify.
  cbn [StallDetector.unchangedCount StallDetector.isStalled StallDetector.lastOutput
       StallDetector.confidence].
  rewrite count_unchanged_replicate.
  assert (E : Z.of_nat n = N - 1) by lia. rewrite E, Z.eqb_refl.
  split; [reflexivity |]. split; [reflexivity |]. split.
  - clear. induction n as [|n IH]; [reflexivity |].
    change (replicate (S (S n)) EmptyString)
      with (EmptyString :: replicate (S n) EmptyString).
    rewrite last_cons. destruct (last (replicate (S n) EmptyString)); exact IH.
  - intros H3. apply Z.leb_le in H3. rewrite H3. reflexivity.
Qed.

(** Three captures of a session that does not exist. *)
Lemma failed_captures_look_stalled_witness :
  let r := (StallDetector.detectOutputStall
              (StallDetector.mkOptions None None "cea-gone") dead_terminal).1 in
  StallDetector.isStalled r = true
  ∧ StallDetector.unchangedCount r = 3 - 1
  ∧ StallDetector.lastOutput r = EmptyString
  ∧ (3 <= 3 → StallDetector.confidence r = StallDetector.high).
Proof.
  apply (failed_captures_look_stalled
           (StallDetector.mkOptions None None "cea-gone") dead_terminal).
  - intros k. simpl. discriminate.
  - simpl. lia.
Defined.

(** X19.  The two entry points compute the same result from the same
    terminal when they are given the same sample count and interval; they
    differ in how they pause, and in their defaults. *)
Theorem stall_variants_agree
    (sessionId : string) (n ms : Z) (t : StallDetector.Terminal) :
  (blocking sessionId (Some n) (Some ms) t).1
  = (suspending sessionId (Some n) (Some ms) t).1.
Proof.
  unfold blocking, suspending.
  rewrite detect_sync_samples, detect_samples. reflexivity.
Qed.

(** X20.  Degenerate sample counts.  With a count of zero or less nothing
    is captured and the result is not stalled, with medium confidence and an
    empty last output.  With a count of one the single capture is reported
    as stalled, with low confidence.  With a count of two, the default of
    the blocking entry point, the confidence is never high: it is medium
    when the two captures are equal and low otherwise. *)
Theorem stall_degenerate_counts
    (sessionId : string) (n ms : Z) (t : StallDetector.Terminal) :
  let r := (suspending sessionId (Some n) (Some ms) t).1 in
  (n <= 0 →
   StallDetector.log (suspending sessionId (Some n) (Some ms) t).2
   = StallDetector.log t
   ∧ StallDetector.isStalled r = false
   ∧ StallDetector.confidence r = StallDetector.medium
   ∧ StallDetector.lastOutput r = EmptyString)
  ∧ (n = 1 →
     StallDetector.isStalled r = true
     ∧ StallDetector.confidence r = StallDetector.low)
  ∧ (n = 2 →
     StallDetector.confidence r
     = if StallDetector.isStalled r then StallDetector.medium else StallDetector.low).
Proof.
  cbv zeta. split; [| split].
  - intros Hn.
    rewrite (suspending_log sessionId (Some n) (Some ms) t).
    unfold suspending. rewrite detect_samples.
    cbn [StallDetector.opt_sessionId StallDetector.opt_sampleCount
         StallDetector.opt_sampleIntervalMs default]. unfold id.
    replace (Z.to_nat n) with 0%nat by lia.
    cbn [schedule]. rewrite app_nil_r.
    unfold StallDetector.classify, sampled.
    cbn [StallDetector.unchangedCount StallDetector.isStalled
         StallDetector.lastOutput StallDetector.confidence seq map
         StallDetector.count_unchanged last default].
    replace (0 =? n - 1) with false by (symmetry; apply Z.eqb_neq; lia).
    replace (n <=? 2 * 0) with true by (symmetry; apply Z.leb_le; lia).
    repeat split; reflexivity.
  - intros ->. unfold suspending. rewrite detect_samples. split; reflexivity.
  - intros ->. unfold suspending. rewrite detect_samples.
    cbn [StallDetector.opt_sessionId StallDetector.opt_sampleCount
         StallDetector.opt_sampleIntervalMs default]. unfold id.
    change (Z.to_nat 2) with 2%nat. unfold sampled. cbn [seq map].
    unfold StallDetector.classify.
    cbn [StallDetector.isStalled StallDetector.confidence
         StallDetector.count_unchanged].
    destruct (String.eqb _ _); reflexivity.
Qed.

(** ** The TTY input-wait detector *)
Section TtyFacts.
Import LinuxProc.

Lemma toLowerCase_app (a b : string) :
  toLowerCase (a +:+ b) = toLowerCase a +:+ toLowerCase b.
Proof.
  induction a as [|c a IH]; [reflexivity |].
  rewrite append_cons. cbn [toLowerCase]. rewrite IH, append_cons. reflexivity.
Qed.

Lemma includes_prefix (s p : string) : String.prefix p s = true → includes s p = true.
Proof. intros H. destruct s; cbn [includes]; rewrite H; reflexivity. Qed.

Lemma includes_middle (a p b : string) : includes (a +:+ p +:+ b) p = true.
Proof.
  induction a as [|c a IH].
  - rewrite append_nil_l. apply includes_prefix, prefix_append.
  - rewrite append_cons. cbn [includes]. rewrite IH. apply orb_true_r.
Qed.

Lemma prefix_split (p s : string) :
  String.prefix p s = true → ∃ rest, s = p +:+ rest.
Proof.
  revert s. induction p as [|c p IH]; intros s H.
  - exists s. reflexivity.
  - destruct s as [|d s]; [discriminate |]. cbn [String.prefix] in H.
    destruct (ascii_dec c d) as [-> |]; [| discriminate].
    destruct (IH s H) as [rest ->]. exists rest. reflexivity.
Qed.

(** A string is its fields joined by the separator. *)
Lemma join_split (sep : ascii) (s : string) : join (chr sep) (split sep s) = s.
Proof.
  unfold join. induction s as [|c s IH]; [reflexivity |].
  cbn [split]. destruct (Ascii.eqb_spec c sep) as [-> | Hne].
  - destruct (split sep s) as [|x l] eqn:E.
    + simpl in IH. subst s. discriminate E.
    + change (String.concat (chr sep) (EmptyString :: x :: l))
        with (EmptyString +:+ chr sep +:+ String.concat (chr sep) (x :: l)).
      rewrite IH. reflexivity.
  - destruct (split sep s) as [|x l] eqn:E.
    + simpl in IH. subst s. discriminate E.
    + destruct l as [|y l].
      * simpl in IH. subst x. reflexivity.
      * change (String.concat (chr sep) (String c x :: y :: l))
          with (String c x +:+ chr sep +:+ String.concat (chr sep) (y :: l)).
        change (String.concat (chr sep) (x :: y :: l))
          with (x +:+ chr sep +:+ String.concat (chr sep) (y :: l)) in IH.
        rewrite <- IH. reflexivity.
Qed.

End TtyFacts.

(** X21.  A result of the detector is for a Linux platform and a process
    id other than 0, carries exactly the four signals stdin_fd, wchan,
    stack and syscall in that order, and is detected exactly when at least
    one of them indicates an input wait. *)
Theorem detection_reports_four_signals
    (env : LinuxProc.ProcEnv) (sessionId : string)
    (r : LinuxProc.LinuxProcDetectionResult) :
  LinuxProc.detectLinuxProcTtyWait env sessionId = Some r →
  LinuxProc.isLinuxPlatform env = true
  ∧ map LinuxProc.name (LinuxProc.signals r) = ["stdin_fd"; "wchan"; "stack"; "syscall"]
  ∧ (∃ p, LinuxProc.pid r = Some p ∧ p ≠ 0)
  ∧ (LinuxProc.detected r = true ↔ positive_signals r ≠ []).
Proof.
  unfold LinuxProc.detectLinuxProcTtyWait.
  destruct (LinuxProc.isLinuxPlatform env); [| discriminate]. simpl negb. cbv iota.
  destruct (LinuxProc.sh env _) as [status stdout].
  destruct (_ || _); [discriminate |].
  destruct (LinuxProc.getForegroundPid env (trim stdout)) as [p|]; [| discriminate].
  destruct (Z.eqb_spec p 0) as [| Hp]; [discriminate |].
  intros [= <-]. split; [reflexivity |].
  unfold positive_signals, LinuxProc.analyse.
  generalize (bool_decide (LinuxProc.getProcessStdinFd env p = Some (trim stdout))) as a.
  generalize (LinuxProc.checkWchanForTtyRead (LinuxProc.getProcessWchan env p)) as b.
  generalize (LinuxProc.checkStackForTtyRead (LinuxProc.getProcessStack env p)) as c.
  generalize (LinuxProc.checkSyscallForStdinRead (LinuxProc.getProcessSyscall env p)) as d.
  intros d c b a.
  split; [destruct a, b, c, d; reflexivity |].
  split; [destruct a, b, c, d; exists p; split; (reflexivity || exact Hp) |].
  destruct a, b, c, d; vm_compute; split; intros H;
    (reflexivity || discriminate || discriminate H
     || (exfalso; apply H; reflexivity)).
Qed.

(** A process blocked in [n_tty_read] on the pane's terminal. *)
Lemma detection_reports_four_signals_witness :
  let r := LinuxProc.analyse (waiting_env "n_tty_read") "/dev/pts/7" 4242 in
  LinuxProc.isLinuxPlatform (waiting_env "n_tty_read") = true
  ∧ map LinuxProc.name (LinuxProc.signals r) = ["stdin_fd"; "wchan"; "stack"; "syscall"]
  ∧ (∃ p, LinuxProc.pid r = Some p ∧ p ≠ 0)
  ∧ (LinuxProc.detected r = true ↔ positive_signals r ≠ []).
Proof.
  apply (detection_reports_four_signals (waiting_env "n_tty_read") "cea-x").
  vm_compute. reflexivity.
Defined.

(** X22.  The detail text of a result names the process and, when input
    wait is detected, lists the names of the signals that indicate it,
    comma separated; the list is then never empty, so the text never says
    that the positive signals are none. *)
Theorem detail_lists_positive_signals
    (env : LinuxProc.ProcEnv) (sessionId : string)
    (r : LinuxProc.LinuxProcDetectionResult) :
  LinuxProc.detectLinuxProcTtyWait env sessionId = Some r →
  ∃ p, LinuxProc.pid r = Some p
       ∧ LinuxProc.detail r
         = if LinuxProc.detected r then
             process_text (LinuxProc.command r) p
             +:+ "appears to be waiting for TTY input. Positive signals: "
             +:+ join ", " (map LinuxProc.name (positive_signals r))
           else
             process_text (LinuxProc.command r) p
             +:+ "does not appear to be waiting for input".
Proof.
  intros H. destruct (detect_is_analyse _ _ _ H) as (paneTty & p & ->).
  exists p. clear H.
  unfold positive_signals, LinuxProc.analyse, process_text.
  generalize (bool_decide (LinuxProc.getProcessStdinFd env p = Some paneTty)) as a.
  generalize (LinuxProc.checkWchanForTtyRead (LinuxProc.getProcessWchan env p)) as b.
  generalize (LinuxProc.checkStackForTtyRead (LinuxProc.getProcessStack env p)) as c.
  generalize (LinuxProc.checkSyscallForStdinRead (LinuxProc.getProcessSyscall env p)) as d.
  intros d c b a. destruct a, b, c, d; split; reflexivity.
Qed.

(** The detail text for a process blocked in [n_tty_read]. *)
Lemma detail_lists_positive_signals_witness :
  let r := LinuxProc.analyse (waiting_env "n_tty_read") "/dev/pts/7" 4242 in
  ∃ p, LinuxProc.pid r = Some p
       ∧ LinuxProc.detail r
         = if LinuxProc.detected r then
             process_text (LinuxProc.command r) p
             +:+ "appears to be waiting for TTY input. Positive signals: "
             +:+ join ", " (map LinuxProc.name (positive_signals r))
           else
             process_text (LinuxProc.command r) p
             +:+ "does not appear to be waiting for input".
Proof.
  apply (detail_lists_positive_signals (waiting_env "n_tty_read") "cea-x").
  vm_compute. reflexivity.
Defined.

Section PatternFacts.
Import LinuxProc.

Lemma truthy_middle (a w b : string) :
  truthy w = true → truthy (a +:+ w +:+ b) = true.
Proof. destruct a; [| reflexivity]. destruct w; [discriminate | reflexivity]. Qed.

Lemma matches_any_middle (patterns : list string) (pattern pre w post : string) :
  In pattern patterns → toLowerCase pattern = pattern → toLowerCase w = pattern →
  matches_any patterns (pre +:+ w +:+ post) = true.
Proof.
  intros Hin Hlow Hw. unfold matches_any. apply existsb_exists.
  exists pattern. split; [exact Hin |].
  rewrite !toLowerCase_app, Hw, Hlow. apply includes_middle.
Qed.

End PatternFacts.

(** X23.  The wait-channel and stack checks match their patterns anywhere
    in the text and in any letter case: a text that holds, between any two
    texts, a spelling of a pattern in upper or lower case letters is
    recognised. *)
Theorem tty_patterns_match_in_any_case (pattern pre w post : string) :
  toLowerCase w = pattern →
  (pattern ∈ LinuxProc.TTY_READ_WCHAN_PATTERNS
   → LinuxProc.checkWchanForTtyRead (Some (pre +:+ w +:+ post)) = true)
  ∧ (pattern ∈ LinuxProc.TTY_READ_STACK_PATTERNS
     → LinuxProc.checkStackForTtyRead (Some (pre +:+ w +:+ post)) = true).
Proof.
  intros Hw. split; intros Hin.
  - assert (Hp : toLowerCase pattern = pattern ∧ truthy pattern = true).
    { unfold LinuxProc.TTY_READ_WCHAN_PATTERNS in Hin.
      rewrite !elem_of_cons, elem_of_nil in Hin.
      destruct Hin as [-> | [-> | [-> | [-> | [-> | []]]]]]; split; reflexivity. }
    destruct Hp as [Hlow Hne].
    assert (Hwne : truthy w = true).
    { rewrite <- Hw in Hne. destruct w; [discriminate | reflexivity]. }
    unfold LinuxProc.checkWchanForTtyRead, LinuxProc.absent.
    rewrite (truthy_middle _ _ _ Hwne). simpl negb. cbv iota.
    apply (matches_any_middle _ pattern); [| exact Hlow | exact Hw].
    apply list_elem_of_In, Hin.
  - assert (Hp : toLowerCase pattern = pattern ∧ truthy pattern = true).
    { unfold LinuxProc.TTY_READ_STACK_PATTERNS in Hin.
      rewrite !elem_of_cons, elem_of_nil in Hin.
      destruct Hin as [-> | [-> | [-> | [-> | []]]]]; split; reflexivity. }
    destruct Hp as [Hlow Hne].
    assert (Hwne : truthy w = true).
    { rewrite <- Hw in Hne. destruct w; [discriminate | reflexivity]. }
    unfold LinuxProc.checkStackForTtyRead, LinuxProc.absent.
    rewrite (truthy_middle _ _ _ Hwne). simpl negb. cbv iota.
    apply (matches_any_middle _ pattern); [| exact Hlow | exact Hw].
    apply list_elem_of_In, Hin.
Qed.

(** A wait channel and a stack frame written in capitals. *)
Lemma tty_patterns_match_in_any_case_witness :
  LinuxProc.checkWchanForTtyRead
    (Some (EmptyString +:+ "N_TTY_READ" +:+ EmptyString)) = true
  ∧ LinuxProc.checkStackForTtyRead
      (Some ("[<0>] " +:+ "N_TTY_READ" +:+ "+0x1a/0x2c0")) = true.
Proof.
  split.
  - apply (proj1 (tty_patterns_match_in_any_case "n_tty_read" EmptyString
                    "N_TTY_READ" EmptyString eq_refl)).
    apply (bool_decide_unpack _). vm_compute. exact I.
  - apply (proj2 (tty_patterns_match_in_any_case "n_tty_read" "[<0>] " "N_TTY_READ"
                    "+0x1a/0x2c0" eq_refl)).
    apply (bool_decide_unpack _). vm_compute. exact I.
Defined.

(** X24.  The syscall check holds exactly of the lines whose first two
    fields, separated by single spaces, are the syscall [0] or [read] and
    the descriptor [0x0] or [0]: the line is one of 0 0x0, 0 0, read 0x0,
    read 0, or begins with one of them and a space.  The absent line and the
    line [running] fail it. *)
Theorem stdin_read_syscall_lines (syscall : string) :
  (LinuxProc.checkSyscallForStdinRead (Some syscall) = true
   ↔ ∃ fields, fields ∈ stdin_read_fields
               ∧ (syscall = fields ∨ startsWith syscall (fields +:+ " ") = true))
  ∧ LinuxProc.checkSyscallForStdinRead None = false
  ∧ LinuxProc.checkSyscallForStdinRead (Some "running") = false.
Proof.
  split; [| split; reflexivity].
  split.
  - unfold LinuxProc.checkSyscallForStdinRead.
    destruct (negb (truthy syscall)); [discriminate |].
    destruct (String.eqb syscall "running"); [discriminate |].
    pose proof (join_split " " syscall) as Hj.
    destruct (split " " syscall) as [|num [|fd tl]]; [discriminate | discriminate |].
    intros H. apply andb_true_iff in H as [Hnum Hfd].
    assert (Hs : ∃ fields, fields ∈ stdin_read_fields ∧ fields = num +:+ " " +:+ fd).
    { apply orb_true_iff in Hnum, Hfd.
      destruct Hnum as [Hn | Hn], Hfd as [Hf | Hf];
        apply String.eqb_eq in Hn, Hf; subst num fd;
        eexists; (split; [| reflexivity]);
        apply (bool_decide_unpack _); vm_compute; exact I. }
    destruct Hs as (fields & Hin & ->).
    exists (num +:+ " " +:+ fd). split; [exact Hin |].
    destruct tl as [|x tl].
    + left. rewrite <- Hj. reflexivity.
    + right. rewrite <- Hj.
      change (join (chr " ") (num :: fd :: x :: tl))
        with (num +:+ " " +:+ fd +:+ " " +:+ join (chr " ") (x :: tl)).
      unfold startsWith.
      replace (num +:+ " " +:+ fd +:+ " " +:+ join (chr " ") (x :: tl))
        with (((num +:+ " " +:+ fd) +:+ " ") +:+ join (chr " ") (x :: tl))
        by (rewrite !append_assoc; reflexivity).
      apply prefix_append.
  - intros (fields & Hin & Hs).
    unfold stdin_read_fields in Hin.
    rewrite !elem_of_cons, elem_of_nil in Hin.
    destruct Hs as [-> | Hs].
    + destruct Hin as [-> | [-> | [-> | [-> | []]]]]; reflexivity.
    + apply prefix_split in Hs as [rest ->].
      destruct Hin as [-> | [-> | [-> | [-> | []]]]]; reflexivity.
Qed.

(** ** The multiplexer path resolver *)
Section ResolverFacts.
Import TmuxPath.

Lemma loaded_invariant (pl : string) (w : World) :
  resolver_invariant pl w (loaded pl w).
Proof.
  unfold resolver_invariant, loaded. simpl.
  split; [reflexivity |]. split; [reflexivity |]. split; [constructor |].
  left. auto.
Qed.

Lemma lookup_fresh (l : list Promise) (p : Promise) : (l ++ [p]) !! length l = Some p.
Proof. rewrite lookup_app_r by lia. rewrite Nat.sub_diag. reflexivity. Qed.

Lemma getTmuxPath_invariant (pl : string) (w : World) (s : Resolver) :
  resolver_invariant pl w s → resolver_invariant pl w (getTmuxPath s).2.
Proof.
  intros (Hpl & Hch & Hall & Hph). unfold getTmuxPath.
  destruct Hph as [(Hi & Hf & Ht & Hs) | [(id & Hi & Hp & Hf & Ht & Hs)
    | [(id & path & Hi & Hp & Hf & Ht & Hs & Hprop) | (id & Hi & Hp & Hf & Ht & Hs)]]].
  - rewrite Ht, Hi. unfold findTmuxPath. cbn [snd].
    split; [exact Hpl |]. split; [exact Hch |].
    split; [apply Forall_app; split; [exact Hall | repeat constructor] |].
    right. left. exists (length (promises s)). cbn.
    rewrite Hf, Hs, Hpl. unfold lookup_child.
    repeat split; try reflexivity; try assumption. apply lookup_fresh.
  - rewrite Ht, Hi. cbn [snd].
    split; [exact Hpl |]. split; [exact Hch |]. split; [exact Hall |].
    right. left. exists id. auto.
  - rewrite Ht, Hi. cbn [snd].
    split; [exact Hpl |]. split; [exact Hch |]. split; [exact Hall |].
    right. right. left. exists id, path. auto 10.
  - rewrite Ht. unfold resolver_invariant, resolver_phase.
    destruct (verified_path pl w) as [p|] eqn:Ev.
    + cbn [snd]. split; [exact Hpl |]. split; [exact Hch |].
      split; [apply Forall_app; split; [exact Hall | repeat constructor; right; reflexivity] |].
      right. right. right. exists id. cbn.
      repeat split; try assumption.
      rewrite lookup_app_l by (apply lookup_lt_Some in Hp; exact Hp). exact Hp.
    + rewrite Hi. cbn [snd].
      split; [exact Hpl |]. split; [exact Hch |]. split; [exact Hall |].
      right. right. right. exists id. auto 10.
Qed.

Lemma start_invariant (pl : string) (w : World) (s : Resolver) :
  resolver_invariant pl w s → resolver_invariant pl w (startBackgroundTmuxCheck s).
Proof.
  intros Hinv. unfold startBackgroundTmuxCheck.
  destruct (initPromise s) as [id|] eqn:Hi; [exact Hinv |].
  pose proof (getTmuxPath_invariant pl w s Hinv) as Hg.
  destruct Hinv as (Hpl & Hch & Hall & Hph).
  destruct Hph as [(_ & Hf & Ht & Hs) | [(id & Hi' & _) | [(id & path & Hi' & _)
    | (id & Hi' & _)]]]; try congruence.
  unfold getTmuxPath in *. rewrite Ht, Hi in *. unfold findTmuxPath in *.
  cbn [snd fst] in *. exact Hg.
Qed.

Lemma settle_invariant (pl : string) (w : World) (s : Resolver) (id : nat) :
  platform s = pl → child (world s) = child w →
  Forall (λ p, p = Pending ∨ p = Resolved (verified_path pl w)) (promises s) →
  initPromise s = Some id → promises s !! id = Some Pending →
  (spawned (world s) = spawned w ++ [lookup_child pl]
   ∨ ∃ path, spawned (world s) = spawned w ++ [lookup_child pl; probe_child path]) →
  resolver_invariant pl w (settle id (verified_path pl w) [] s).
Proof.
  intros Hpl Hch Hall Hi Hp Hs. unfold settle, resolver_invariant. cbn.
  split; [exact Hpl |]. split; [exact Hch |].
  split; [apply Forall_insert; [exact Hall | right; reflexivity] |].
  right. right. right. exists id.
  split; [exact Hi |].
  split; [apply list_lookup_insert_eq; apply lookup_lt_Some in Hp; exact Hp |].
  split; [reflexivity |]. split; [reflexivity |]. exact Hs.
Qed.

Lemma child_event_invariant (pl : string) (w : World) (s : Resolver) (k : nat) :
  resolver_invariant pl w s → resolver_invariant pl w (child_event k s).
Proof.
  intros Hinv. pose proof Hinv as (Hpl & Hch & Hall & Hph). unfold child_event.
  destruct Hph as [(Hi & Hf & Ht & Hs) | [(id & Hi & Hp & Hf & Ht & Hs)
    | [(id & path & Hi & Hp & Hf & Ht & Hs & Hprop) | (id & Hi & Hp & Hf & Ht & Hs)]]].
  - rewrite Hf. rewrite lookup_nil. exact Hinv.
  - rewrite Hf. destruct k as [|k]; [| exact Hinv].
    cbn [lookup list_lookup take drop app].
    rewrite Hch.
    assert (Hprop : proposed_path pl w
                    = match child w (lookup_child pl).1 ["tmux"] with
                      | SpawnFailed _ => None
                      | Exited code stdout _ _ =>
                          if bool_decide (code = Some 0) then
                            if truthy (hd EmptyString (split LF (trim stdout)))
                            then Some (hd EmptyString (split LF (trim stdout)))
                            else None
                          else None
                      end) by reflexivity.
    destruct (child w (lookup_child pl).1 ["tmux"]) as [code stdout stderr timedOut | message].
    + destruct (bool_decide (code = Some 0)); cbn [negb].
      * destruct (truthy (hd EmptyString (split LF (trim stdout)))) eqn:Etr; cbn [negb].
        -- split; [exact Hpl |]. split; [exact Hch |]. split; [exact Hall |].
           right. right. left.
           exists id, (hd EmptyString (split LF (trim stdout))). cbn.
           rewrite Hs, <- app_assoc.
           repeat split; try assumption; reflexivity.
        -- replace None with (verified_path pl w)
             by (unfold verified_path; rewrite Hprop; reflexivity).
           apply settle_invariant; auto.
      * replace None with (verified_path pl w)
          by (unfold verified_path; rewrite Hprop; reflexivity).
        apply settle_invariant; auto.
    + replace None with (verified_path pl w)
        by (unfold verified_path; rewrite Hprop; reflexivity).
      apply settle_invariant; auto.
  - rewrite Hf. destruct k as [|k]; [| exact Hinv].
    cbn [lookup list_lookup take drop app].
    rewrite Hch.
    assert (Hv : verified_path pl w
                 = match child w path ["-V"] with
                   | SpawnFailed _ => None
                   | Exited verifyCode _ _ _ =>
                       if bool_decide (verifyCode = Some 0) then Some path else None
                   end) by (unfold verified_path; rewrite Hprop; reflexivity).
    destruct (child w path ["-V"]) as [code stdout stderr timedOut | message];
      rewrite <- Hv; apply settle_invariant; eauto.
  - rewrite Hf. rewrite lookup_nil. exact Hinv.
Qed.

Lemma step_invariant (pl : string) (w : World) (s : Resolver) (e : Event) :
  resolver_invariant pl w s → resolver_invariant pl w (step s e).
Proof.
  intros Hinv. destruct e as [| | k]; cbn [step].
  - apply getTmuxPath_invariant, Hinv.
  - apply start_invariant, Hinv.
  - apply child_event_invariant, Hinv.
Qed.

Lemma run_invariant (pl : string) (w : World) (events : list Event) (s : Resolver) :
  resolver_invariant pl w s → resolver_invariant pl w (run s events).
Proof.
  revert s. induction events as [|e events IH]; intros s Hinv; [exact Hinv |].
  apply IH, step_invariant, Hinv.
Qed.

(** Once resolved, nothing changes what the resolver holds but the store
    of promises. *)
Lemma resolved_step (s : Resolver) (e : Event) (id : nat) (v : option string) :
  initPromise s = Some id → promises s !! id = Some (Resolved v) →
  inflight s = [] → tmuxPath (world s) = v →
  initPromise (step s e) = Some id ∧ promises (step s e) !! id = Some (Resolved v)
  ∧ inflight (step s e) = [] ∧ tmuxPath (world (step s e)) = v
  ∧ spawned (world (step s e)) = spawned (world s).
Proof.
  intros Hi Hp Hf Ht. destruct e as [| | k]; cbn [step].
  - unfold getTmuxPath. rewrite Ht. destruct v as [p|].
    + cbn. rewrite lookup_app_l by (apply lookup_lt_Some in Hp; exact Hp). auto.
    + rewrite Hi. cbn. auto.
  - unfold startBackgroundTmuxCheck. rewrite Hi. auto.
  - unfold child_event. rewrite Hf, lookup_nil. auto.
Qed.

Lemma resolved_run (events : list Event) (s : Resolver) (id : nat) (v : option string) :
  initPromise s = Some id → promises s !! id = Some (Resolved v) →
  inflight s = [] → tmuxPath (world s) = v →
  initPromise (run s events) = Some id
  ∧ promises (run s events) !! id = Some (Resolved v)
  ∧ inflight (run s events) = [] ∧ tmuxPath (world (run s events)) = v
  ∧ spawned (world (run s events)) = spawned (world s).
Proof.
  revert s. induction events as [|e events IH]; intros s Hi Hp Hf Ht; [auto |].
  destruct (resolved_step s e id v Hi Hp Hf Ht) as (Hi' & Hp' & Hf' & Ht' & Hs').
  destruct (IH (step s e) Hi' Hp' Hf' Ht') as (H1 & H2 & H3 & H4 & H5).
  cbn [run foldl]. unfold run in *. rewrite H5, Hs'. auto.
Qed.

End ResolverFacts.

(** X25.  Whatever calls of [getTmuxPath] and [startBackgroundTmuxCheck]
    are made after the module is loaded, and in whatever order the events
    of the children arrive between them, the resolver spawns at most the
    lookup child, once, and after it at most one probe. *)
Theorem lookup_runs_at_most_once
    (pl : string) (w : World) (events : list TmuxPath.Event) :
  let s := TmuxPath.run (TmuxPath.loaded pl w) events in
  spawned (TmuxPath.world s) = spawned w
  ∨ spawned (TmuxPath.world s) = spawned w ++ [lookup_child pl]
  ∨ ∃ path, spawned (TmuxPath.world s)
            = spawned w ++ [lookup_child pl; probe_child path].
Proof.
  cbv zeta.
  destruct (run_invariant pl w events _ (loaded_invariant pl w))
    as (_ & _ & _ & Hph).
  destruct Hph as [(_ & _ & _ & Hs) | [(id & _ & _ & _ & _ & Hs)
    | [(id & path & _ & _ & _ & _ & Hs & _) | (id & _ & _ & _ & _ & [Hs | Hs])]]];
    eauto.
Qed.

(** X26.  A resolution is final.  Once the promise of the lookup is
    resolved, with a path or with null, no later call or event spawns a
    child, the cached path stays what the promise resolved to, and every
    [getTmuxPath] returns a promise resolved to the same: a failed lookup
    is never retried. *)
Theorem resolution_is_final
    (pl : string) (w : World) (events more : list TmuxPath.Event)
    (id : nat) (v : option string) :
  let s := TmuxPath.run (TmuxPath.loaded pl w) events in
  let s' := TmuxPath.run s more in
  TmuxPath.initPromise s = Some id →
  awaited_value s id = Some v →
  spawned (TmuxPath.world s') = spawned (TmuxPath.world s)
  ∧ TmuxPath.getCachedTmuxPath s' = v
  ∧ awaited_value (TmuxPath.getTmuxPath s').2 (TmuxPath.getTmuxPath s').1 = Some v
  ∧ spawned (TmuxPath.world (TmuxPath.getTmuxPath s').2) = spawned (TmuxPath.world s).
Proof.
  cbv zeta. intros Hi Hv.
  set (s := TmuxPath.run (TmuxPath.loaded pl w) events) in *.
  destruct (run_invariant pl w events _ (loaded_invariant pl w))
    as (_ & _ & _ & Hph).
  fold s in Hph.
  assert (Hres : TmuxPath.promises s !! id = Some (TmuxPath.Resolved v)).
  { unfold awaited_value in Hv.
    destruct (TmuxPath.promises s !! id) as [[|x]|]; congruence. }
  assert (H3 : TmuxPath.inflight s = [] ∧ tmuxPath (TmuxPath.world s) = v).
  { destruct Hph as [(Hi' & _) | [(id' & Hi' & Hp & _)
      | [(id' & path & Hi' & Hp & _) | (id' & Hi' & Hp & Hf & Ht & _)]]];
      try congruence.
    assert (id' = id) by congruence. subst id'.
    rewrite Hres in Hp. injection Hp as ->. auto. }
  destruct H3 as [Hf Ht].
  destruct (resolved_run more s id v Hi Hres Hf Ht) as (Hi' & Hp' & Hf' & Ht' & Hs').
  set (s' := TmuxPath.run s more) in *.
  split; [exact Hs' |]. split; [exact Ht' |].
  destruct (resolved_step s' TmuxPath.CallGetTmuxPath id v Hi' Hp' Hf' Ht')
    as (_ & Hp'' & _ & _ & Hs'').
  cbn [TmuxPath.step] in Hp'', Hs''.
  split; [| rewrite Hs''; exact Hs'].
  unfold awaited_value, TmuxPath.getTmuxPath in *.
  unfold TmuxPath.getCachedTmuxPath in Ht'. rewrite Ht' in *.
  destruct v as [p|].
  - cbn [fst snd TmuxPath.promises]. rewrite lookup_fresh. reflexivity.
  - rewrite Hi' in *. cbn [fst snd] in *. rewrite Hp''. reflexivity.
Qed.

(** Two callers, the lookup and the probe, and two callers more, on a
    machine where [which tmux] finds a working binary. *)
Lemma resolution_is_final_witness :
  let s := TmuxPath.run (TmuxPath.loaded "linux" world_with_tmux)
             [TmuxPath.CallStartBackgroundTmuxCheck; TmuxPath.CallGetTmuxPath;
              TmuxPath.ChildEvent 0; TmuxPath.ChildEvent 0] in
  let s' := TmuxPath.run s [TmuxPath.CallGetTmuxPath;
                            TmuxPath.CallStartBackgroundTmuxCheck] in
  spawned (TmuxPath.world s') = spawned (TmuxPath.world s)
  ∧ TmuxPath.getCachedTmuxPath s' = Some "/usr/bin/tmux"
  ∧ awaited_value (TmuxPath.getTmuxPath s').2 (TmuxPath.getTmuxPath s').1
    = Some (Some "/usr/bin/tmux")
  ∧ spawned (TmuxPath.world (TmuxPath.getTmuxPath s').2) = spawned (TmuxPath.world s).
Proof.
  apply (resolution_is_final "linux" world_with_tmux
           [TmuxPath.CallStartBackgroundTmuxCheck; TmuxPath.CallGetTmuxPath;
            TmuxPath.ChildEvent 0; TmuxPath.ChildEvent 0]
           [TmuxPath.CallGetTmuxPath; TmuxPath.CallStartBackgroundTmuxCheck]
           0%nat (Some "/usr/bin/tmux")); reflexivity.
Defined.

(** X27.  What the resolver answers depends on the machine only, not on
    the order of calls and events: every resolved promise holds, and the
    cached path is, the first line the lookup child printed when it exited
    with code 0, provided that line is not empty and the probe of that path
    exited with code 0; a promise resolves to null otherwise. *)
Theorem resolved_path_is_verified
    (pl : string) (w : World) (events : list TmuxPath.Event) :
  let s := TmuxPath.run (TmuxPath.loaded pl w) events in
  (∀ pr v, awaited_value s pr = Some v → v = verified_path pl w)
  ∧ (∀ p, TmuxPath.getCachedTmuxPath s = Some p → verified_path pl w = Some p).
Proof.
  cbv zeta.
  destruct (run_invariant pl w events _ (loaded_invariant pl w))
    as (_ & _ & Hall & Hph).
  split.
  - intros pr v Hv. unfold awaited_value in Hv.
    destruct (TmuxPath.promises _ !! pr) as [x|] eqn:E; [| discriminate].
    eapply Forall_lookup_1 in Hall; [| exact E].
    destruct Hall as [-> | ->]; [discriminate |]. congruence.
  - intros p Hp. unfold TmuxPath.getCachedTmuxPath in Hp.
    destruct Hph as [(_ & _ & Ht & _) | [(id & _ & _ & _ & Ht & _)
      | [(id & path & _ & _ & _ & Ht & _) | (id & _ & _ & _ & Ht & _)]]];
      congruence.
Qed.

(** ** The output cap of the command runner *)
Section OutputCap.
Import ShellExecute.

Lemma length_units (s : string) : length (units s) = String.length s.
Proof.
  unfold units. rewrite length_map.
  induction s as [|c s IH]; [reflexivity |]. simpl. rewrite IH. reflexivity.
Qed.

Lemma length_omission_mark (omitted : Z) :
  (31 ≤ length (omission_mark omitted))%nat.
Proof.
  unfold omission_mark. rewrite !length_app, !length_units.
  destruct (of_Z_nonempty omitted) as (c & t & ->). simpl. lia.
Qed.

Lemma slice_head (s : list N) (half : Z) :
  0 <= half <= Z.of_nat (length s) →
  slice s 0 (Some half) = take (Z.to_nat half) s.
Proof.
  intros H. unfold slice. cbn [Z.ltb Z.compare].
  destruct (Z.ltb_spec half 0); [lia |].
  rewrite Z.min_l by lia. rewrite Z.min_l by lia.
  rewrite Z.sub_0_r. reflexivity.
Qed.

Lemma slice_tail (s : list N) (half : Z) :
  1 <= half <= Z.of_nat (length s) →
  slice s (- half) None = drop (length s - Z.to_nat half) s.
Proof.
  intros H. unfold slice.
  destruct (Z.ltb_spec (- half) 0); [| lia].
  rewrite Z.max_l by lia.
  replace (Z.to_nat (Z.of_nat (length s) + - half))
    with (length s - Z.to_nat half)%nat by lia.
  apply take_ge. rewrite length_drop. lia.
Qed.

Lemma slice_all (s : list N) : slice s (- 0) None = s.
Proof.
  unfold slice. cbn [Z.opp Z.ltb Z.compare].
  rewrite Z.min_l by lia. rewrite Z.sub_0_r, Nat2Z.id. cbn [Z.to_nat drop].
  apply take_ge. lia.
Qed.

Lemma truncate_long (output : list N) (maxLength : Z) :
  2 <= maxLength < Z.of_nat (length output) →
  truncateOutput output maxLength
  = take (Z.to_nat (maxLength / 2)) output
    ++ omission_mark (Z.of_nat (length output) - maxLength)
    ++ drop (length output - Z.to_nat (maxLength / 2)) output.
Proof.
  intros H. unfold truncateOutput.
  destruct (Z.leb_spec (Z.of_nat (length output)) maxLength); [lia |].
  assert (Hh : 1 <= maxLength / 2 <= Z.of_nat (length output)).
  { pose proof (Z.div_mod maxLength 2 ltac:(lia)).
    pose proof (Z.mod_pos_bound maxLength 2 ltac:(lia)). lia. }
  rewrite slice_head by lia. rewrite slice_tail by exact Hh.
  unfold omission_mark. rewrite <- !app_assoc. reflexivity.
Qed.

Lemma truncated_output_bound (output : list N) (maxLength : Z) :
  2 <= maxLength < Z.of_nat (length output) →
  maxLength + 30 <= Z.of_nat (length (truncateOutput output maxLength)).
Proof.
  intros H.
  pose proof (Z.div_mod maxLength 2 ltac:(lia)) as Hd.
  pose proof (Z.mod_pos_bound maxLength 2 ltac:(lia)) as Hm.
  rewrite truncate_long by exact H.
  rewrite !length_app, length_take, length_drop.
  pose proof (length_omission_mark (Z.of_nat (length output) - maxLength)). lia.
Qed.

End OutputCap.

(** X28.  An output longer than a cap of at least 2 is cut to its first
    and its last [maxLength / 2] code units with a mark between them.  The
    mark reports the length minus the cap, which is the number of units
    left out when the cap is even and one less when it is odd; and the
    result, mark included, is longer than the cap. *)
Theorem truncated_output_keeps_both_ends (output : list N) (maxLength : Z) :
  let len := Z.of_nat (length output) in
  let half := Z.to_nat (maxLength / 2) in
  2 <= maxLength < len →
  ShellExecute.truncateOutput output maxLength
  = take half output ++ omission_mark (len - maxLength)
    ++ drop (length output - half) output
  ∧ Z.of_nat (length output - 2 * half) = (len - maxLength) + maxLength mod 2
  ∧ maxLength + 30 <= Z.of_nat (length (ShellExecute.truncateOutput output maxLength)).
Proof.
  cbv zeta. intros H.
  pose proof (Z.div_mod maxLength 2 ltac:(lia)) as Hd.
  pose proof (Z.mod_pos_bound maxLength 2 ltac:(lia)) as Hm.
  split; [apply truncate_long, H |]. split; [lia |].
  apply truncated_output_bound, H.
Qed.

(** Ten units under a cap of four. *)
Lemma truncated_output_keeps_both_ends_witness :
  ShellExecute.truncateOutput (ShellExecute.units "abcdefghij") 4
  = ShellExecute.units "ab" ++ omission_mark 6 ++ ShellExecute.units "ij"
  ∧ Z.of_nat (10 - 2 * 2) = (10 - 4) + 4 mod 2
  ∧ 4 + 30
    <= Z.of_nat (length (ShellExecute.truncateOutput (ShellExecute.units "abcdefghij") 4)).
Proof.
  apply (truncated_output_keeps_both_ends (ShellExecute.units "abcdefghij") 4).
  simpl. lia.
Defined.

(** X29.  An output no longer than the cap is returned as it is.  Under a
    cap of 0 or 1 nothing is cut at all: the result is the mark followed by
    the whole output.  In every case where the output is longer than a cap
    that is not negative, the result is longer than the cap. *)
Theorem output_cap_edges (output : list N) (maxLength : Z) :
  let len := Z.of_nat (length output) in
  (len <= maxLength → ShellExecute.truncateOutput output maxLength = output)
  ∧ (0 <= maxLength <= 1 → maxLength < len →
     ShellExecute.truncateOutput output maxLength
     = omission_mark (len - maxLength) ++ output)
  ∧ (0 <= maxLength < len →
     maxLength < Z.of_nat (length (ShellExecute.truncateOutput output maxLength))).
Proof.
  cbv zeta.
  assert (Hsmall : 0 <= maxLength <= 1 → maxLength < Z.of_nat (length output) →
                   ShellExecute.truncateOutput output maxLength
                   = omission_mark (Z.of_nat (length output) - maxLength) ++ output).
  { intros H01 Hlt. unfold ShellExecute.truncateOutput.
    destruct (Z.leb_spec (Z.of_nat (length output)) maxLength); [lia |].
    assert (E : maxLength / 2 = 0) by (apply Z.div_small; lia). rewrite E.
    rewrite slice_all. rewrite slice_head by lia. cbn [Z.to_nat take app].
    unfold omission_mark. rewrite <- !app_assoc. reflexivity. }
  split; [| split].
  - intros H. unfold ShellExecute.truncateOutput.
    destruct (Z.leb_spec (Z.of_nat (length output)) maxLength); [reflexivity | lia].
  - exact Hsmall.
  - intros H. destruct (Z.le_gt_cases maxLength 1) as [H1 | H1].
    + rewrite Hsmall by lia. rewrite length_app.
      pose proof (length_omission_mark (Z.of_nat (length output) - maxLength)). lia.
    + pose proof (truncated_output_bound output maxLength ltac:(lia)). lia.
Qed.

(** X30.  The command runner passes the exit code of the shared session
    through, asks it for a timeout of 10000 ms when none is given, and caps
    the output at 50000 code units: a shorter output is returned as it is, a
    longer one as its first 25000 and its last 25000 units around a mark
    that reports exactly how many units were left out. *)
Theorem command_output_is_capped
    (session : list N → option (list N) → Z → Z * list N)
    (command : list N) (workdir : option (list N)) (timeoutMs : option Z) :
  let result := session command workdir (default 10000 timeoutMs) in
  let r := ShellExecute.executeCommand session command workdir timeoutMs in
  let len := length result.2 in
  ShellExecute.exitCode r = result.1
  ∧ (Z.of_nat len <= 50000 → ShellExecute.output r = result.2)
  ∧ (50000 < Z.of_nat len →
     ShellExecute.output r
     = take (Z.to_nat 25000) result.2
       ++ omission_mark (Z.of_nat len - 50000)
       ++ drop (len - Z.to_nat 25000) result.2
     ∧ Z.of_nat (length (ShellExecute.output r))
       = 50000 + Z.of_nat (length (omission_mark (Z.of_nat len - 50000)))).
Proof.
  cbv zeta. unfold ShellExecute.executeCommand.
  cbn [ShellExecute.exitCode ShellExecute.output].
  change ShellExecute.DEFAULT_TIMEOUT_MS with 10000.
  change ShellExecute.MAX_OUTPUT_LENGTH with 50000.
  set (result := session command workdir (default 10000 timeoutMs)).
  split; [reflexivity |]. split.
  - intros H. unfold ShellExecute.truncateOutput.
    destruct (Z.leb_spec (Z.of_nat (length result.2)) 50000); [reflexivity | lia].
  - intros H. rewrite truncate_long by lia.
    change (50000 / 2) with 25000.
    split; [reflexivity |].
    rewrite !length_app, length_take, length_drop. lia.
Qed.
